(** * List converters of the document-list feature

    A shallow embedding of [packages/ckeditor5-list/src/list/converters.ts]
    (upcast converters, the reconversion scheduler, the downcast converter
    and the bogus-paragraph policy) together with the properties the
    specification states about them.

    Conventions.
    - The model is the flat sequence of children of one parent.  A model
      node is referred to by its offset in that sequence, which is also how
      positions are represented: [nodeAfter p] is the node at offset [p],
      [nodeBefore p] the one at offset [p - 1].
    - Attribute maps ([Node#getAttributes], plain objects built with
      [Object.fromEntries]) are [gmap string value].
    - Insertion-ordered JS collections whose order is observable ([Map],
      [Set] iterated with [for..of], arrays) are lists.
    - The array the scheduler uses as a stack, whose length is set and
      which is indexed by the indent of a block, is a record of its
      elements and of the properties set under a number that is no array
      index.
    - A function that can raise ([TypeError], [RangeError]) returns an
      [option], and [None] stands for the error. *)

From stdpp Require Import base option list strings pretty gmap.
From Stdlib Require Import ZArith.

Set Warnings "-register-all,-clear-no-such-hyp".

Open Scope Z_scope.

(** ** Attribute values *)

(** The JavaScript values an attribute can hold. *)
Inductive value :=
  | VStr (s : string)
  | VNum (z : Z)
  | VBool (b : bool).

#[global] Instance value_eq_dec : EqDecision value.
Proof. solve_decision. Defined.

(** JavaScript truthiness of a present value; [undefined] (an absent
    attribute) is falsy, see [truthyOpt]. *)
Definition truthy (v : value) : bool :=
  match v with
  | VStr s => negb (bool_decide (s = EmptyString))
  | VNum z => negb (z =? 0)
  | VBool b => b
  end.

Definition truthyOpt (o : option value) : bool :=
  match o with
  | Some v => truthy v
  | None => false
  end.

(** ** The flat model *)

Record Node := mkNode {
  nodeIsElement : bool;
  nodeName : string;
  nodeAttrs : gmap string value
}.

Abbreviation Document := (list Node) (only parsing).

Definition hasAttribute (n : Node) (key : string) : bool :=
  bool_decide (is_Some (nodeAttrs n !! key)).

Definition getAttribute (n : Node) (key : string) : option value :=
  nodeAttrs n !! key.

Definition getAttributeKeys (n : Node) : list string :=
  (map_to_list (nodeAttrs n)).*1.

(** [node.is( 'element', name )]. *)
Definition isElementNamed (n : Node) (nm : string) : bool :=
  nodeIsElement n && bool_decide (nodeName n = nm).

(** [Array.prototype.includes] on an array of attribute names. *)
Definition includes (names : list string) (key : string) : bool :=
  bool_decide (key ∈ names).

(** The [listIndent] attribute of a list element.  The type [ListElement]
    declares it a number; anything else reads as [0] here. *)
Definition listIndentOf (n : Node) : Z :=
  match getAttribute n "listIndent" with
  | Some (VNum z) => z
  | _ => 0
  end.

Definition nodeAfter (d : Document) (p : nat) : option Node := d !! p.

Definition nodeBefore (d : Document) (p : nat) : option Node :=
  match p with
  | O => None
  | S q => d !! q
  end.

Definition indentAt (d : Document) (i : nat) : Z :=
  from_option listIndentOf 0 (d !! i).

Definition attrAt (d : Document) (i : nat) (key : string) : option value :=
  d !! i ≫= λ n, getAttribute n key.

(** ** Model utilities ([utils/model], [utils/listwalker], [utils/postfixers]) *)

(** Modelled from the spec: [isListItemBlock] of [utils/model] is not part
    of the sources at hand.  A block belongs to a list exactly when it is an
    element carrying the item identity [listItemId]. *)
Definition isListItemNode (n : Node) : bool :=
  nodeIsElement n && hasAttribute n "listItemId".

Definition isListItemBlock (d : Document) (i : nat) : bool :=
  from_option isListItemNode false (d !! i).

Fixpoint runFrom (i : nat) (l : list Node) : list nat :=
  match l with
  | [] => []
  | n :: rest => if isListItemNode n then i :: runFrom (S i) rest else []
  end.

Fixpoint runBackFrom (d : Document) (i : nat) : list nat :=
  if isListItemBlock d i then
    i :: match i with
         | O => []
         | S j => runBackFrom d j
         end
  else [].

Inductive Direction := Forward | Backward.

#[global] Instance Direction_eq_dec : EqDecision Direction.
Proof. solve_decision. Defined.

(** Modelled from the spec: [iterateSiblingListBlocks] of [utils/listwalker]
    is not part of the sources at hand.  Starting at a node it yields the
    consecutive sibling list blocks in the given direction and stops at the
    list boundary, the first node that is not a list block.  The nodes are
    returned in the order they are yielded; the [previous] of a yielded
    node is the node yielded just before it. *)
Definition iterateSiblingListBlocks (d : Document) (start : option nat)
    (dir : Direction) : list nat :=
  match start with
  | None => []
  | Some i =>
      match dir with
      | Forward => runFrom i (drop i d)
      | Backward => runBackFrom d i
      end
  end.

Record WalkerOptions := mkWalkerOptions {
  woDirection : Direction;
  woIncludeSelf : bool;
  woSameAttributes : list string;
  woSameIndent : bool;
  woLowerIndent : bool
}.

Definition nextSibling (d : Document) (i : nat) : option nat :=
  if bool_decide (S i < length d)%nat then Some (S i) else None.

Definition previousSibling (i : nat) : option nat :=
  match i with
  | O => None
  | S j => Some j
  end.

Definition walkerStartNode (d : Document) (o : WalkerOptions) (start : nat)
    : option nat :=
  if woIncludeSelf o then Some start
  else match woDirection o with
       | Forward => nextSibling d start
       | Backward => previousSibling start
       end.

Definition differsOn (d : Document) (start j : nat) (key : string) : bool :=
  negb (bool_decide (attrAt d j key = attrAt d start key)).

(** The body of the walker's iteration over the sibling blocks: [ref] is
    the reference indent, initially the indent of the start element. *)
Fixpoint walkerLoop (d : Document) (o : WalkerOptions) (start : nat)
    (ref : Z) (nodes : list nat) : list nat :=
  match nodes with
  | [] => []
  | j :: rest =>
      let indent := indentAt d j in
      if indent <? ref then
        (* Leaving a nested list. *)
        if woLowerIndent o then j :: walkerLoop d o start indent rest
        else []
      else if ref <? indent then
        (* A nested block: ignored. *)
        walkerLoop d o start ref rest
      else if negb (woSameIndent o) then
        walkerLoop d o start ref rest
      else if existsb (differsOn d start j) (woSameAttributes o) then []
      else j :: walkerLoop d o start ref rest
  end.

(** Modelled from the spec: the [ListWalker] class of [utils/listwalker]
    is not part of the sources at hand.  Given a starting block and a
    direction it produces the sibling blocks selected by the filters
    [lowerIndent] (blocks of an indent lower than the reference, the
    reference following each block found), [sameIndent] and
    [sameAttributes] (on [listItemId]: the blocks of the same item), with
    [includeSelf]; blocks of a higher indent are skipped, and the walk ends
    at the list boundary, at a lower indent when [lowerIndent] is off, and
    at a same-indent block that differs on one of [sameAttributes]. *)
Definition ListWalker (d : Document) (start : nat) (o : WalkerOptions)
    : list nat :=
  walkerLoop d o start (indentAt d start)
    (iterateSiblingListBlocks d (walkerStartNode d o start) (woDirection o)).

(** [ListWalker.first]: the first block the walker yields, or [null]. *)
Definition ListWalker_first (d : Document) (start : nat) (o : WalkerOptions)
    : option nat :=
  head (ListWalker d start o).

Definition lowerIndentOptions : WalkerOptions :=
  mkWalkerOptions Backward false [] false true.

Definition itemBlocksOptions (dir : Direction) : WalkerOptions :=
  mkWalkerOptions dir (bool_decide (dir = Forward)) ["listItemId"%string]
    true false.

(** Modelled from the spec: [getListItemBlocks] of [utils/model] is not
    part of the sources at hand.  The blocks of the logical item of
    [listItem] found in one direction, in document order: forward they
    start with [listItem] itself, backward they end just before it. *)
Definition getListItemBlocks (d : Document) (listItem : nat)
    (dir : Direction) : list nat :=
  let items := ListWalker d listItem (itemBlocksOptions dir) in
  match dir with
  | Forward => items
  | Backward => reverse items
  end.

(** Modelled from the spec: [getAllListItemBlocks] of [utils/model] is not
    part of the sources at hand.  All blocks that share the item of
    [listItem], in document order. *)
Definition getAllListItemBlocks (d : Document) (listItem : nat) : list nat :=
  getListItemBlocks d listItem Backward ++ getListItemBlocks d listItem Forward.

(** Modelled from the spec: [isFirstBlockOfListItem] of [utils/model] is
    not part of the sources at hand.  A block is the first of its item when
    no block of the same item precedes it. *)
Definition isFirstBlockOfListItem (d : Document) (listBlock : nat) : bool :=
  match ListWalker_first d listBlock (itemBlocksOptions Backward) with
  | None => true
  | Some _ => false
  end.

(** ** The view *)

Inductive ViewKind :=
  | ContainerElement
  | AttributeElement
  | EditableElement
  | UIElement.

#[global] Instance ViewKind_eq_dec : EqDecision ViewKind.
Proof. solve_decision. Defined.

Record ViewElement := mkViewElement {
  viewKind : ViewKind;
  viewName : string;
  viewId : option value;
  viewIndent : option Z;
  viewAttributes : gmap string value;
  viewCustomProperties : gmap string value
}.

#[global] Instance ViewElement_eq_dec : EqDecision ViewElement.
Proof. solve_decision. Defined.

(** [viewElement.is( 'element', name )]. *)
Definition viewIsElementNamed (e : ViewElement) (nm : string) : bool :=
  bool_decide (viewName e = nm).

Definition viewIsKind (e : ViewElement) (k : ViewKind) : bool :=
  bool_decide (viewKind e = k).

Definition getCustomProperty (e : ViewElement) (key : string) : option value :=
  viewCustomProperties e !! key.

(** [writer.createContainerElement( name, attributes )]. *)
Definition createContainerElement (nm : string) (attributes : gmap string value)
    : ViewElement :=
  mkViewElement ContainerElement nm None None attributes ∅.

(** [writer.setCustomProperty( key, value, element )]. *)
Definition setCustomProperty (key : string) (v : value) (e : ViewElement)
    : ViewElement :=
  mkViewElement (viewKind e) (viewName e) (viewId e) (viewIndent e)
    (viewAttributes e) (<[key := v]> (viewCustomProperties e)).

(** Modelled from the spec: [isListView] and [isListItemView] of
    [utils/view] are not part of the sources at hand.  The list view
    elements are [ul] and [ol], the list item view element is [li]. *)
Definition isListView (e : ViewElement) : bool :=
  viewIsElementNamed e "ol" || viewIsElementNamed e "ul".

Definition isListItemView (e : ViewElement) : bool :=
  viewIsElementNamed e "li".

(** ** The bogus-paragraph policy *)

(** The loop over [item.getAttributeKeys()] of [shouldUseBogusParagraph]:
    [true] when it leaves the function with [return false], that is when a
    key that is not a selection attribute is foreign to [attributeNames]. *)
Fixpoint hasForeignAttribute (attributeNames : list string)
    (keys : list string) : bool :=
  match keys with
  | [] => false
  | attributeKey :: rest =>
      if String.prefix "selection:" attributeKey then
        hasForeignAttribute attributeNames rest
      else if negb (includes attributeNames attributeKey) then true
      else hasForeignAttribute attributeNames rest
  end.

(** [shouldUseBogusParagraph( item, attributeNames, blocks )]; [blocks] is
    [None] when the caller leaves the argument out, and then defaults to
    [getAllListItemBlocks( item )]. *)
Definition shouldUseBogusParagraph (d : Document) (item : nat)
    (attributeNames : list string) (blocks : option (list nat)) : bool :=
  let blocks := default (getAllListItemBlocks d item) blocks in
  if negb (isListItemBlock d item) then false
  else if hasForeignAttribute attributeNames
            (from_option getAttributeKeys [] (d !! item)) then false
  else bool_decide (length blocks < 2)%nat.

(** [bogusParagraphCreator( attributeNames, { dataPipeline } )] applied to
    a model element: the created view element, or [None] for [null]. *)
Definition bogusParagraphCreator (attributeNames : list string)
    (dataPipeline : bool) (d : Document) (modelElement : nat)
    : option ViewElement :=
  if negb (shouldUseBogusParagraph d modelElement attributeNames None) then None
  else if negb dataPipeline then
    Some (createContainerElement "span"
            {[ "class"%string := VStr "ck-list-bogus-paragraph" ]})
  else
    let viewElement := createContainerElement "p" ∅ in
    Some (setCustomProperty "dataPipeline:transparentRendering" (VBool true)
            viewElement).

(** ** Upcast converters *)

(** A view tree, as the upcast pipeline receives it. *)
Inductive ViewNode :=
  | ViewText (data : string)
  | ViewElem (e : ViewElement) (children : list ViewNode).

Definition viewNodeIsListItem (n : ViewNode) : bool :=
  match n with
  | ViewText _ => false
  | ViewElem e _ => isListItemView e
  end.

Definition viewNodeIsList (n : ViewNode) : bool :=
  match n with
  | ViewText _ => false
  | ViewElem e _ => isListView e
  end.

(** The loop of [listUpcastCleanList] over a copy of the children:
    [viewWriter.remove( child )] for every child that is neither a list item
    nor a list.  The result is the children that remain. *)
Fixpoint cleanListChildren (children : list ViewNode) : list ViewNode :=
  match children with
  | [] => []
  | child :: rest =>
      if negb (viewNodeIsListItem child) && negb (viewNodeIsList child)
      then cleanListChildren rest
      else child :: cleanListChildren rest
  end.

(** [listUpcastCleanList()] applied to [data.viewItem]; [consumableTest] is
    [conversionApi.consumable.test( _, { name: true } )]. *)
Definition listUpcastCleanList (consumableTest : ViewNode → bool)
    (viewItem : ViewNode) : ViewNode :=
  if negb (consumableTest viewItem) then viewItem
  else match viewItem with
       | ViewText s => ViewText s
       | ViewElem e children => ViewElem e (cleanListChildren children)
       end.

(** Modelled from the spec: [ListItemUid] of [utils/model] is not part of
    the sources at hand.  [next()] returns a fresh, globally unique item
    identity; the generator is a counter and the identity its decimal
    rendering behind the letter [e]. *)
Definition ListItemUid_id (counter : nat) : string :=
  String (Ascii.ascii_of_nat 101) (pretty counter).

Definition ListItemUid_next (counter : nat) : string * nat :=
  (ListItemUid_id counter, S counter).

(** Modelled from the spec: [getIndent] of [utils/view] is not part of the
    sources at hand.  The nesting depth of a list item in the source
    markup is the number of list items that enclose it.  A view item is
    given by the chain of its ancestors, the parent first. *)
Definition getIndent (ancestors : list ViewElement) : Z :=
  Z.of_nat (length (filter (λ e, isListItemView e = true) ancestors)).

Record UpcastData := mkUpcastData {
  udViewAncestors : list ViewElement;
  udModelRange : option (nat * nat)
}.

(** What the converter acts upon: the model under construction, the
    identity generator and the elements registered through
    [conversionApi.keepEmptyElement]. *)
Record UpcastState := mkUpcastState {
  usModel : Document;
  usUid : nat;
  usKeptEmpty : list nat
}.

(** [modelRange.getItems( { shallow: true } )] *)
Definition rangeItems (range : nat * nat) : list nat :=
  seq range.1 (range.2 - range.1).

Record ListAttributes := mkListAttributes {
  laListItemId : string;
  laListIndent : Z;
  laListType : value
}.

(** [writer.setAttributes( attributes, item )] *)
Definition setListAttributes (a : ListAttributes) (n : Node) : Node :=
  mkNode (nodeIsElement n) (nodeName n)
    (<["listType" := laListType a]>
       (<["listIndent" := VNum (laListIndent a)]>
          (<["listItemId" := VStr (laListItemId a)]> (nodeAttrs n)))).

(** The loop [for ( const item of items )] of [listItemUpcastConverter]. *)
Fixpoint tagItems (a : ListAttributes) (items : list nat) (m : Document)
    : Document :=
  match items with
  | [] => m
  | item :: rest =>
      if negb (from_option (λ n, hasAttribute n "listItemId") false (m !! item))
      then tagItems a rest (alter (setListAttributes a) item m)
      else tagItems a rest m
  end.

(** [value != listItemId] for a generated identity.  A generated identity
    is not a numeric string, so the coercions of [!=] equate it with no
    number or boolean: only the same string is equal to it. *)
Definition looseNotEqualId (o : option value) (listItemId : string) : bool :=
  match o with
  | Some (VStr s) => negb (bool_decide (s = listItemId))
  | _ => true
  end.

Definition parentIsOl (ancestors : list ViewElement) : bool :=
  match ancestors with
  | [] => false
  | parent :: _ => viewIsElementNamed parent "ol"
  end.

(** [listItemUpcastConverter()]; [schemaCheck] is [schema.checkAttribute]. *)
Definition listItemUpcastConverter (schemaCheck : Node → string → bool)
    (data : UpcastData) (st : UpcastState) : UpcastState :=
  match udModelRange data with
  | None => st
  | Some range =>
      let items :=
        filter (λ i, from_option (λ n, schemaCheck n "listItemId") false
                       (usModel st !! i) = true)
               (rangeItems range) in
      match items with
      | [] => st
      | first :: _ =>
          let '(listItemId, uid') := ListItemUid_next (usUid st) in
          let listIndent := getIndent (udViewAncestors data) in
          let listType :=
            if parentIsOl (udViewAncestors data) then VStr "numbered"
            else VStr "bulleted" in
          let firstItemListType := attrAt (usModel st) first "listType" in
          let listType :=
            match firstItemListType with
            | Some v => if truthy v then v else listType
            | None => listType
            end in
          let attributes := mkListAttributes listItemId listIndent listType in
          let m := tagItems attributes items (usModel st) in
          let kept :=
            if bool_decide (1 < length items)%nat then
              match items !! 1%nat with
              | Some second =>
                  if looseNotEqualId (attrAt m second "listItemId")
                       (laListItemId attributes)
                  then usKeptEmpty st ++ [first]
                  else usKeptEmpty st
              | None => usKeptEmpty st
              end
            else usKeptEmpty st in
          mkUpcastState m uid' kept
      end
  end.

(** ** The reconversion scheduler *)

(** An entry of [differ.getChanges()]. *)
Inductive DiffItem :=
  | DiffInsert (name : string) (attributes : gmap string value)
      (position : nat) (length : nat)
  | DiffRemove (name : string) (attributes : gmap string value)
      (position : nat) (length : nat)
  | DiffAttribute (rangeStart : nat) (attributeKey : string)
      (attributeOldValue attributeNewValue : option value).

(** [Map<ListElement, ListElement>]: the entries in insertion order. *)
Abbreviation ListHeadMap := (list (nat * nat)) (only parsing).

Definition mapHas (m : ListHeadMap) (key : nat) : bool :=
  bool_decide (key ∈ m.*1).

Fixpoint mapSet (key v : nat) (m : ListHeadMap) : ListHeadMap :=
  match m with
  | [] => [(key, v)]
  | (k, w) :: rest =>
      if bool_decide (k = key) then (k, v) :: rest
      else (k, w) :: mapSet key v rest
  end.

Definition mapValues (m : ListHeadMap) : list nat := m.*2.

(** Modelled from the spec: [findAndAddListHeadToMap] of [utils/postfixers]
    is not part of the sources at hand.  It records the list head that
    governs a position in the map from items to heads: when no list block
    precedes the position, the block after it (if it is a list block)
    heads its list; otherwise the head is the first block of the
    contiguous run of list blocks that ends just before the position, and
    nothing is recorded when a block of that run is a key of the map
    already. *)
Definition findAndAddListHeadToMap (d : Document) (position : nat)
    (itemToListHead : ListHeadMap) : ListHeadMap :=
  match previousSibling position with
  | Some previousNode =>
      if isListItemBlock d previousNode then
        let run := iterateSiblingListBlocks d (Some previousNode) Backward in
        if existsb (mapHas itemToListHead) run then itemToListHead
        else mapSet previousNode (List.last run previousNode) itemToListHead
      else if isListItemBlock d position
      then mapSet position position itemToListHead
      else itemToListHead
  | None =>
      if isListItemBlock d position
      then mapSet position position itemToListHead
      else itemToListHead
  end.

(** A model element's view element as [mapper.toViewElement] returns it,
    with the chain of its ancestors, the parent first. *)
Record MappedView := mkMappedView {
  mvElement : ViewElement;
  mvAncestors : list ViewElement
}.

Inductive AttributesEvent := CheckItem | CheckList.

(** [Array<ListItemAttributesMap>], a JS array: its elements, with the
    holes an array can have, and the properties set under a number that
    is no array index (a negative one, or one past [2^32 - 2]), which the
    length of the array does not count and a change of the length leaves
    alone. *)
Record Stack := mkStack {
  stackElements : list (option (gmap string value));
  stackProperties : gmap Z (gmap string value)
}.

(** The array indices: [0] to [2^32 - 2]. *)
Definition isArrayIndex (i : Z) : bool := (0 <=? i) && (i <? 4294967295).

(** [stack.length = n]: truncates, or extends with holes.  [None] stands
    for the [RangeError] raised when [n] is no array length: negative, or
    above [2^32 - 1]. *)
Definition stackSetLength (n : Z) (stack : Stack) : option Stack :=
  if (n <? 0) || (4294967295 <? n) then None
  else Some (mkStack (resize (Z.to_nat n) None (stackElements stack))
               (stackProperties stack)).

(** [stack[ i ] = attrs]: at an array index it sets the element, and
    extends the array with holes when [i] is past its end; at another
    number it sets the property of that name. *)
Definition stackSet (i : Z) (attrs : gmap string value) (stack : Stack)
    : Stack :=
  if isArrayIndex i then
    mkStack
      (<[Z.to_nat i := Some attrs]>
         (resize (S (Z.to_nat i) `max` length (stackElements stack)) None
            (stackElements stack)))
      (stackProperties stack)
  else mkStack (stackElements stack) (<[i := attrs]> (stackProperties stack)).

(** [stack[ indent ]]: the element, [undefined] out of range and at a
    hole; the property of that name when [indent] is no array index. *)
Definition stackGet (stack : Stack) (indent : Z) : option (gmap string value) :=
  if isArrayIndex indent then mjoin (stackElements stack !! Z.to_nat indent)
  else stackProperties stack !! indent.

(** [new Set( array )] iterated: the distinct elements in the order of
    their first occurrence. *)
Definition setOfArray (l : list nat) : list nat :=
  foldl (λ acc x, if bool_decide (x ∈ acc) then acc else acc ++ [x]) [] l.

Record ScanState := mkScanState {
  ssItemsToRefresh : list nat;
  ssItemToListHead : ListHeadMap;
  ssChangedItems : gset nat
}.

Record CollectState := mkCollectState {
  csItemsToRefresh : list nat;
  csVisited : gset nat;
  csStack : Stack;
  (** The blocks handled by the inner loop, in order.  This trace is not a
      variable of the source: it records each execution of the loop body
      [for ( const block of blocks )]. *)
  csTrace : list nat
}.

Record SchedulerRun := mkSchedulerRun {
  (** The calls of [editing.reconvertItem], in order. *)
  srReconverted : list nat;
  (** [itemsToRefresh] before the duplicates are dropped. *)
  srItemsToRefresh : list nat;
  (** The list heads walked, in order. *)
  srListHeads : list nat;
  (** The blocks handled by the walks, in order. *)
  srTrace : list nat
}.

Section Scheduler.

(** The state of the editor the listener closes over: the model after
    the change, the mapping from model elements to view elements, and the
    listeners of the [checkElement] and [checkAttributes] events of the
    list editing plugin ([fire] returns what they put in [evt.return]). *)
Variable d : Document.
Variable attributeNames : list string.
Variable toViewElement : nat → option MappedView.
Variable fireCheckElement : nat → ViewElement → bool.
Variable fireCheckAttributes :
  AttributesEvent → ViewElement → option (gmap string value) → bool.

Definition nodeIsNamed (item : nat) (nm : string) : bool :=
  from_option (λ n, isElementNamed n nm) false (d !! item).

Definition doesItemBlockRequiresRefresh (item : nat)
    (blocks : option (list nat)) : bool :=
  match toViewElement item with
  | None => false
  | Some mapped =>
      let viewElement := mvElement mapped in
      if fireCheckElement item viewElement then true
      else if negb (nodeIsNamed item "paragraph")
              && negb (nodeIsNamed item "listItem") then false
      else
        let useBogus :=
          shouldUseBogusParagraph d item attributeNames blocks in
        if useBogus && viewIsElementNamed viewElement "p" then true
        else if negb useBogus && viewIsElementNamed viewElement "span"
        then true
        else false
  end.

(** The loop of [doesItemWrappingRequiresRefresh] over the ancestors of
    the view element.  [None] stands for the [TypeError] raised when the
    chain of parents ends before an editable element is met. *)
Fixpoint wrappingLoop (stack : Stack) (indent : Z)
    (ancestors : list ViewElement) : option bool :=
  match ancestors with
  | [] => None
  | element :: rest =>
      if viewIsKind element EditableElement then Some true
      else
        let isListItemElement := isListItemView element in
        let isListElement := isListView element in
        if negb isListElement && negb isListItemElement
        then wrappingLoop stack indent rest
        else
          let eventName :=
            if isListItemElement then CheckItem else CheckList in
          if fireCheckAttributes eventName element (stackGet stack indent)
          then Some true
          else if isListElement then
            if indent - 1 <? 0 then Some false
            else wrappingLoop stack (indent - 1) rest
          else wrappingLoop stack indent rest
  end.

(** [None] stands for a [TypeError]: the non-null assertion on
    [mapper.toViewElement( item )] fails, or the parents run out. *)
Definition doesItemWrappingRequiresRefresh (item : nat) (stack : Stack)
    (changedItems : gset nat) : option bool :=
  if bool_decide (item ∈ changedItems) then Some false
  else
    match toViewElement item with
    | None => None
    | Some mapped =>
        wrappingLoop stack (Z.of_nat (length (stackElements stack)) - 1)
          (mvAncestors mapped)
    end.

(** [Object.fromEntries] of the attributes of a node whose key is a list
    attribute. *)
Definition listAttributesOf (node : nat) : gmap string value :=
  filter (λ kv, kv.1 ∈ attributeNames)
    (from_option nodeAttrs ∅ (d !! node)).

(** The loop [for ( const block of blocks )]. *)
Fixpoint blocksLoop (changedItems : gset nat) (blocks : list nat)
    (rest : list nat) (st : CollectState) : option CollectState :=
  match rest with
  | [] => Some st
  | block :: rest' =>
      let visited := {[ block ]} ∪ csVisited st in
      let trace := csTrace st ++ [block] in
      if doesItemBlockRequiresRefresh block (Some blocks) then
        blocksLoop changedItems blocks rest'
          (mkCollectState (csItemsToRefresh st ++ [block]) visited
             (csStack st) trace)
      else
        needsRefresh ←
          doesItemWrappingRequiresRefresh block (csStack st) changedItems;
        blocksLoop changedItems blocks rest'
          (mkCollectState
             (if needsRefresh : bool then csItemsToRefresh st ++ [block]
              else csItemsToRefresh st)
             visited (csStack st) trace)
  end.

(** The loop over [iterateSiblingListBlocks( listHead, 'forward' )];
    [previous] is the node the iterator yielded before [node].  [None]
    stands for an error raised on the way: the [RangeError] of
    [stack.length = itemIndent + 1], or a [TypeError] of the check of the
    wrappers. *)
Fixpoint siblingsLoop (changedItems : gset nat) (previous : option nat)
    (nodes : list nat) (st : CollectState) : option CollectState :=
  match nodes with
  | [] => Some st
  | node :: rest =>
      if bool_decide (node ∈ csVisited st)
      then siblingsLoop changedItems (Some node) rest st
      else
        let itemIndent := indentAt d node in
        stack ←
          match previous with
          | Some p =>
              if itemIndent <? indentAt d p
              then stackSetLength (itemIndent + 1) (csStack st)
              else Some (csStack st)
          | None => Some (csStack st)
          end;
        let stack := stackSet itemIndent (listAttributesOf node) stack in
        let blocks := getListItemBlocks d node Forward in
        st' ← blocksLoop changedItems blocks blocks
                (mkCollectState (csItemsToRefresh st) (csVisited st) stack
                   (csTrace st));
        siblingsLoop changedItems (Some node) rest st'
  end.

(** [collectListItemsToRefresh( listHead, changedItems )]: the items to
    refresh, with the trace of the blocks handled. *)
Definition collectListItemsToRefresh (listHead : nat)
    (changedItems : gset nat) : option (list nat * list nat) :=
  st ← siblingsLoop changedItems None
          (iterateSiblingListBlocks d (Some listHead) Forward)
          (mkCollectState [] ∅ (mkStack [] ∅) []);
  Some (csItemsToRefresh st, csTrace st).

(** The body of the loop [for ( const entry of changes )]. *)
Definition scanEntry (st : ScanState) (entry : DiffItem) : ScanState :=
  match entry with
  | DiffInsert name attributes position len =>
      if negb (bool_decide (name = "$text"%string)) then
        let heads :=
          findAndAddListHeadToMap d position (ssItemToListHead st) in
        if negb (bool_decide (is_Some (attributes !! "listItemId"%string)))
        then
          mkScanState (ssItemsToRefresh st)
            (findAndAddListHeadToMap d (position + len)%nat heads)
            (ssChangedItems st)
        else
          mkScanState (ssItemsToRefresh st) heads
            ({[ position ]} ∪ ssChangedItems st)
      else st
  | DiffRemove name attributes position len =>
      if bool_decide (is_Some (attributes !! "listItemId"%string)) then
        mkScanState (ssItemsToRefresh st)
          (findAndAddListHeadToMap d position (ssItemToListHead st))
          (ssChangedItems st)
      else st
  | DiffAttribute rangeStart attributeKey _ attributeNewValue =>
      let item := rangeStart in
      if includes attributeNames attributeKey then
        let heads :=
          findAndAddListHeadToMap d rangeStart (ssItemToListHead st) in
        match attributeNewValue with
        | None =>
            let heads :=
              findAndAddListHeadToMap d (rangeStart + 1)%nat heads in
            if doesItemBlockRequiresRefresh item None then
              mkScanState (ssItemsToRefresh st ++ [item]) heads
                (ssChangedItems st)
            else mkScanState (ssItemsToRefresh st) heads (ssChangedItems st)
        | Some _ =>
            mkScanState (ssItemsToRefresh st) heads
              ({[ item ]} ∪ ssChangedItems st)
        end
      else if isListItemBlock d item then
        if doesItemBlockRequiresRefresh item None then
          mkScanState (ssItemsToRefresh st ++ [item])
            (ssItemToListHead st) (ssChangedItems st)
        else st
      else st
  end.

Definition scanChanges (changes : list DiffItem) : ScanState :=
  foldl scanEntry (mkScanState [] [] ∅) changes.

(** The loop [for ( const listHead of itemToListHead.values() )]: the
    items pushed and the trace of the walks. *)
Fixpoint headsLoop (changedItems : gset nat) (heads : list nat)
    (itemsToRefresh trace : list nat) : option (list nat * list nat) :=
  match heads with
  | [] => Some (itemsToRefresh, trace)
  | listHead :: rest =>
      r ← collectListItemsToRefresh listHead changedItems;
      headsLoop changedItems rest (itemsToRefresh ++ r.1) (trace ++ r.2)
  end.

(** The listener [reconvertItemsOnDataChange] returns, run on the changes
    of the differ.  [None] stands for an error raised on the way. *)
Definition reconvertItemsOnDataChange (changes : list DiffItem)
    : option SchedulerRun :=
  let st := scanChanges changes in
  let heads := mapValues (ssItemToListHead st) in
  r ← headsLoop (ssChangedItems st) heads (ssItemsToRefresh st) [];
  Some (mkSchedulerRun (setOfArray r.1) r.1 heads r.2).

End Scheduler.

(** ** The downcast converter *)

Inductive AttributeScope := ScopeList | ScopeItem.

(** The registered strategies ([DowncastStrategy] of [listediting]): an
    attribute strategy scoped to the list or to the item applies the value
    of its attribute to a wrapper; an item-marker strategy creates a marker
    element and, optionally, an element wrapping it. *)
Inductive DowncastStrategy :=
  | AttributeStrategy (scope : AttributeScope) (attributeName : string)
      (setAttributeOnDowncast : value → ViewElement → ViewElement)
  | ItemMarkerStrategy (attributeName : string)
      (createElement : Document → nat → bool → option ViewElement)
      (createWrapperElement : option (Document → nat → bool → ViewElement))
      (canWrapElement : option (Document → nat → bool)).

(** Modelled from the spec: [createListItemElement] and [createListElement]
    of [utils/view] are not part of the sources at hand.  The item wrapper
    is an [li] attribute element identified by the item identity; the list
    wrapper is an [ol] attribute element for a numbered list and an [ul]
    one otherwise, identified by the list type; both record their indent
    level. *)
Definition createListItemElement (indent : Z) (id : option value)
    : ViewElement :=
  mkViewElement AttributeElement "li" id (Some indent) ∅ ∅.

Definition createListElement (indent : Z) (type : option value)
    : ViewElement :=
  mkViewElement AttributeElement
    (if bool_decide (type = Some (VStr "numbered")) then "ol" else "ul")
    type (Some indent) ∅ ∅.

(** [writer.wrap( viewRange, attributeElement )]: the range that results
    holds the wrapper around what the range held. *)
Definition wrap (viewRange : list ViewNode) (wrapper : ViewElement)
    : list ViewNode :=
  [ViewElem wrapper viewRange].

(** The loop over the strategies in the body of [wrapListItemBlock]; the
    pair is the list wrapper and the item wrapper. *)
Fixpoint applyStrategies (d : Document) (strategies : list DowncastStrategy)
    (currentListItem : nat) (wrappers : ViewElement * ViewElement)
    : ViewElement * ViewElement :=
  match strategies with
  | [] => wrappers
  | AttributeStrategy scope attributeName setAttributeOnDowncast :: rest =>
      match attrAt d currentListItem attributeName with
      | Some v =>
          applyStrategies d rest currentListItem
            match scope with
            | ScopeList => (setAttributeOnDowncast v wrappers.1, wrappers.2)
            | ScopeItem => (wrappers.1, setAttributeOnDowncast v wrappers.2)
            end
      | None => applyStrategies d rest currentListItem wrappers
      end
  | ItemMarkerStrategy _ _ _ _ :: rest =>
      applyStrategies d rest currentListItem wrappers
  end.

(** The loop [for ( let indent = listItemIndent; indent >= 0; indent-- )]
    of [wrapListItemBlock], entered with a non-negative indent. *)
Fixpoint wrapLoop (d : Document) (strategies : list DowncastStrategy)
    (indent : nat) (currentListItem : nat) (viewRange : list ViewNode)
    : list ViewNode :=
  let listItemViewElement :=
    createListItemElement (Z.of_nat indent)
      (attrAt d currentListItem "listItemId") in
  let listViewElement :=
    createListElement (Z.of_nat indent)
      (attrAt d currentListItem "listType") in
  let wrappers :=
    applyStrategies d strategies currentListItem
      (listViewElement, listItemViewElement) in
  let viewRange := wrap viewRange wrappers.2 in
  let viewRange := wrap viewRange wrappers.1 in
  match indent with
  | O => viewRange
  | S lower =>
      match ListWalker_first d currentListItem lowerIndentOptions with
      | Some parent => wrapLoop d strategies lower parent viewRange
      | None => viewRange
      end
  end.

Definition wrapListItemBlock (d : Document) (listItem : nat)
    (viewRange : list ViewNode) (strategies : list DowncastStrategy)
    : list ViewNode :=
  match d !! listItem with
  | None => viewRange
  | Some n =>
      if negb (hasAttribute n "listIndent") then viewRange
      else
        let listItemIndent := listIndentOf n in
        if listItemIndent <? 0 then viewRange
        else wrapLoop d strategies (Z.to_nat listItemIndent) listItem viewRange
  end.

(** [ModelConsumable]: [true] for a consumable that is still there,
    [false] for a consumed one; [test] returns [null] ([None]) for what was
    never added. *)
Abbreviation ModelConsumable := (gmap (nat * string) bool) (only parsing).

Definition consumableTest (c : ModelConsumable) (node : nat) (event : string)
    : option bool :=
  c !! (node, event).

Definition consumableConsume (c : ModelConsumable) (node : nat)
    (event : string) : ModelConsumable :=
  match c !! (node, event) with
  | Some true => <[(node, event) := false]> c
  | _ => c
  end.

(** The events [createAttributesConsumer] collects: one per attribute of
    [attributeNames] that is set on the node. *)
Definition consumerEvents (attributeNames : list string) (d : Document)
    (node : nat) : list string :=
  (λ attributeName, "attribute:" ++ attributeName)%string <$>
    filter (λ attributeName,
              from_option (λ n, hasAttribute n attributeName) false
                (d !! node) = true)
           attributeNames.

(** [createAttributesConsumer( attributeNames )( node, consumable )]: the
    returned flag and the consumable afterwards. *)
Definition createAttributesConsumer (attributeNames : list string)
    (d : Document) (node : nat) (consumable : ModelConsumable)
    : bool * ModelConsumable :=
  let events := consumerEvents attributeNames d node in
  if negb (forallb (λ event,
             negb (bool_decide (consumableTest consumable node event
                                = Some false))) events)
  then (false, consumable)
  else (true, foldl (λ c event, consumableConsume c node event)
                consumable events).

(** An item the backward view walker yields before the element. *)
Record WalkedItem := mkWalkedItem {
  wiElement : option ViewElement;
  wiMapped : bool
}.

(** The view around the element a model block is mapped to: what the range
    on the element holds, the ancestors of the element (the parent first,
    up to the root, which is no attribute element and is left out), and
    the items a backward walker yields from the position before the
    element. *)
Record BlockView := mkBlockView {
  bvRange : list ViewNode;
  bvParents : list ViewElement;
  bvPreceding : list WalkedItem
}.

Definition isItemWrapper (e : ViewElement) : bool :=
  viewIsKind e AttributeElement
  && truthyOpt (getCustomProperty e "listItemWrapper").

Definition isListWrapper (e : ViewElement) : bool :=
  viewIsKind e AttributeElement
  && bool_decide (viewName e ∈ ["ul"; "ol"; "li"]%string).

Fixpoint dropWhile {A} (f : A → bool) (l : list A) : list A :=
  match l with
  | [] => []
  | x :: rest => if f x then dropWhile f rest else l
  end.

Definition isMarkerItem (w : WalkedItem) : bool :=
  match wiElement w with
  | Some e => truthyOpt (getCustomProperty e "listItemMarker")
  | None => false
  end.

Definition isMappedElement (w : WalkedItem) : bool :=
  match wiElement w with
  | Some _ => wiMapped w
  | None => false
  end.

(** The walk of [removeCustomMarkerElements]: the markers met before the
    first mapped element are removed from the view. *)
Fixpoint removeMarkers (items : list WalkedItem) : list WalkedItem :=
  match items with
  | [] => []
  | w :: rest =>
      if isMappedElement w then items
      else if isMarkerItem w then removeMarkers rest
      else w :: removeMarkers rest
  end.

Definition removeCustomMarkerElements (v : BlockView) : BlockView :=
  mkBlockView (bvRange v) (dropWhile isItemWrapper (bvParents v))
    (removeMarkers (bvPreceding v)).

Definition unwrapListItemBlock (v : BlockView) : BlockView :=
  mkBlockView (bvRange v) (dropWhile isListWrapper (bvParents v))
    (bvPreceding v).

(** The loop over the strategies of [insertCustomMarkerElements]. *)
Fixpoint insertMarkers (d : Document) (listItem : nat) (dataPipeline : bool)
    (strategies : list DowncastStrategy) (viewRange : list ViewNode)
    : list ViewNode :=
  match strategies with
  | [] => viewRange
  | AttributeStrategy _ _ _ :: rest =>
      insertMarkers d listItem dataPipeline rest viewRange
  | ItemMarkerStrategy _ createElement createWrapperElement canWrapElement
      :: rest =>
      match createElement d listItem dataPipeline with
      | None => insertMarkers d listItem dataPipeline rest viewRange
      | Some markerElement =>
          let markerElement :=
            setCustomProperty "listItemMarker" (VBool true) markerElement in
          let marker := ViewElem markerElement [] in
          match createWrapperElement, canWrapElement with
          | Some createWrapper, Some canWrap =>
              let wrapper :=
                setCustomProperty "listItemWrapper" (VBool true)
                  (createWrapper d listItem dataPipeline) in
              if canWrap d listItem then
                insertMarkers d listItem dataPipeline rest
                  (wrap (marker :: viewRange) wrapper)
              else
                insertMarkers d listItem dataPipeline rest
                  (wrap [marker] wrapper ++ viewRange)
          | _, _ =>
              insertMarkers d listItem dataPipeline rest (marker :: viewRange)
          end
      end
  end.

Definition insertCustomMarkerElements (d : Document) (listItem : nat)
    (viewRange : list ViewNode) (strategies : list DowncastStrategy)
    (dataPipeline : bool) : list ViewNode :=
  if negb (isFirstBlockOfListItem d listItem) then viewRange
  else insertMarkers d listItem dataPipeline strategies viewRange.

Record DowncastState := mkDowncastState {
  (** The view, by the model block each part of it is mapped to
      ([findMappedViewElement]). *)
  dsView : gmap nat BlockView;
  dsConsumable : ModelConsumable
}.

(** [listItemDowncastConverter( attributeNames, strategies, model,
    { dataPipeline } )] run for the attribute [attributeKey] of the block
    [listItem].  [None] stands for the [TypeError] raised when there is no
    mapped view element. *)
Definition listItemDowncastConverter (attributeNames : list string)
    (strategies : list DowncastStrategy) (d : Document) (dataPipeline : bool)
    (listItem : nat) (attributeKey : string) (st : DowncastState)
    : option DowncastState :=
  if negb (includes attributeNames attributeKey) then Some st
  else
    let '(consumed, consumable) :=
      createAttributesConsumer attributeNames d listItem (dsConsumable st) in
    if negb consumed then Some st
    else
      viewElement ← dsView st !! listItem;
      let v := removeCustomMarkerElements viewElement in
      let v := unwrapListItemBlock v in
      let viewRange :=
        insertCustomMarkerElements d listItem (bvRange v) strategies
          dataPipeline in
      let viewRange := wrapListItemBlock d listItem viewRange strategies in
      Some (mkDowncastState
              (<[listItem := mkBlockView viewRange (bvParents v)
                               (bvPreceding v)]> (dsView st))
              consumable).

(** ** The upcast pipeline around the list item converter *)

(** Nested list markup.  A list is ordered ([ol]) or not ([ul]) and holds
    items; an item holds its own block and then its children, which are
    further blocks and nested lists.  [ChildList true [[]; [ChildList
    false [[]]]]] is [<ol><li>A</li><li>B<ul><li>C</li></ul></li></ol>]. *)
Inductive ItemChild :=
  | ChildBlock
  | ChildList (ordered : bool) (items : list (list ItemChild)).

Definition listViewFor (ordered : bool) : ViewElement :=
  mkViewElement ContainerElement (if ordered then "ol" else "ul")
    None None ∅ ∅.

Definition itemView : ViewElement :=
  mkViewElement ContainerElement "li" None None ∅ ∅.

(** The block converters put a new paragraph at the end of the model. *)
Definition appendBlock (st : UpcastState) : UpcastState :=
  mkUpcastState (usModel st ++ [mkNode true "paragraph" ∅]) (usUid st)
    (usKeptEmpty st).

(** Every block accepts the list attributes. *)
Definition schemaAllowsAll (n : Node) (key : string) : bool := true.

(** Modelled from the spec: the upcast dispatcher of the engine is not
    part of the sources at hand.  The content of a list item is converted
    first, its own block and then its children in their order, the nested
    lists through the same conversion; once the children of the item are
    converted, [listItemUpcastConverter] runs on the range of the blocks
    that resulted.  [ancestors] are the view elements above the list, the
    parent first. *)
Definition upcastItemWith
    (upcastChild : list ViewElement → ItemChild → UpcastState → UpcastState)
    (ordered : bool) (ancestors : list ViewElement) (item : list ItemChild)
    (st : UpcastState) : UpcastState :=
  let start := length (usModel st) in
  let st := appendBlock st in
  let st :=
    foldl (λ st child,
             upcastChild (itemView :: listViewFor ordered :: ancestors)
               child st)
          st item in
  listItemUpcastConverter schemaAllowsAll
    (mkUpcastData (listViewFor ordered :: ancestors)
       (Some (start, length (usModel st))))
    st.

Fixpoint upcastChild (ancestors : list ViewElement) (child : ItemChild)
    (st : UpcastState) {struct child} : UpcastState :=
  match child with
  | ChildBlock => appendBlock st
  | ChildList ordered items =>
      foldl (λ st item, upcastItemWith upcastChild ordered ancestors item st)
            st items
  end.

(** The flat model a list markup upcasts to, the identity generator
    standing at [counter]. *)
Definition upcastList (ordered : bool) (items : list (list ItemChild))
    (counter : nat) : Document :=
  usModel (upcastChild [] (ChildList ordered items) (mkUpcastState [] counter [])).

(** The chain of attribute elements around a view node, the outermost
    first, down to the first node that is no attribute element holding a
    single node. *)
Fixpoint wrapperChain (v : ViewNode) : list ViewElement :=
  match v with
  | ViewElem e [inner] =>
      if viewIsKind e AttributeElement then e :: wrapperChain inner else []
  | _ => []
  end.

Definition rangeChain (viewRange : list ViewNode) : list ViewElement :=
  match viewRange with
  | [v] => wrapperChain v
  | _ => []
  end.

(** ** Sample documents *)

Definition listAttributeNames : list string :=
  ["listItemId"; "listIndent"; "listType"]%string.

(** A paragraph of a list: [<paragraph listItemId=id listIndent=indent
    listType=type>]. *)
Definition listParagraph (id : string) (indent : Z) (type : string) : Node :=
  mkNode true "paragraph"
    (<["listItemId" := VStr id]>
       (<["listIndent" := VNum indent]>
          (<["listType" := VStr type]> ∅))).

Definition plainParagraph : Node := mkNode true "paragraph" ∅.

Definition viewUl : ViewElement :=
  mkViewElement ContainerElement "ul" None None ∅ ∅.

Definition viewOl : ViewElement :=
  mkViewElement ContainerElement "ol" None None ∅ ∅.

Definition viewLi : ViewElement :=
  mkViewElement ContainerElement "li" None None ∅ ∅.

(** [<ul> <li>A</li></ul>] with a whitespace text node before the item. *)
Definition ulWithWhitespace : ViewNode :=
  ViewElem viewUl [ViewText " "; ViewElem viewLi [ViewText "A"]].

(** The paragraph an inner converter made for a list item, with an empty
    [listType]. *)
Definition untypedParagraph : Node :=
  mkNode true "paragraph" {[ "listType"%string := VStr EmptyString ]}.

Definition allowAll (n : Node) (key : string) : bool := true.

(** The model blocks of [<li><p></p><ul><li>X</li></ul></li>] when the
    converter of the outer item runs: its own paragraph, and the paragraph
    of the nested item, which the recursive conversion tagged already. *)
Definition nestedOnlyItems : list Node :=
  [plainParagraph; listParagraph (ListItemUid_id 0) 1 "bulleted"].

(** The model blocks of [<li><p>A</p><p>B</p></li>]. *)
Definition twoBlockItems : list Node :=
  [plainParagraph; plainParagraph].

(** One bulleted item of a single paragraph. *)
Definition singleItemDocument : list Node :=
  [listParagraph "a" 0 "bulleted"].

Definition bogusSpan : ViewElement :=
  mkViewElement ContainerElement "span" None None
    {[ "class"%string := VStr "ck-list-bogus-paragraph" ]} ∅.

Definition singleItemView : gmap nat BlockView :=
  {[ 0%nat := mkBlockView [ViewElem bogusSpan [ViewText "A"]]
                [createListItemElement 0 (Some (VStr "a"));
                 createListElement 0 (Some (VStr "bulleted"))]
                [] ]}.

(** The consumable after another converter consumed [listItemId]. *)
Definition partlyConsumed : gmap (nat * string) bool :=
  {[ (0%nat, "attribute:listItemId"%string) := false;
     (0%nat, "attribute:listIndent"%string) := true;
     (0%nat, "attribute:listType"%string) := true ]}.

(** [A] with a numbered sublist [B], [C] nested below [B]. *)
Definition nestedDocument : list Node :=
  [listParagraph "a" 0 "bulleted";
   listParagraph "b" 1 "numbered";
   listParagraph "c" 2 "bulleted"].

(** A slice of a nested list, as the clipboard holds it: the item [C] of
    indent 2 below [B] of indent 1, without the item of indent 0. *)
Definition partialDocument : list Node :=
  [listParagraph "b" 1 "numbered";
   listParagraph "c" 2 "bulleted"].

Definition blockElement (text : string) : ViewNode :=
  ViewElem (mkViewElement ContainerElement "p" None None ∅ ∅) [ViewText text].

(** Three bulleted items of one paragraph each. *)
Definition threeItemDocument : list Node :=
  [listParagraph "a" 0 "bulleted";
   listParagraph "b" 0 "bulleted";
   listParagraph "c" 0 "bulleted"].

Definition rootEditable : ViewElement :=
  mkViewElement EditableElement "div" None None ∅ ∅.

(** The editing view of an item of indent 0: a bogus paragraph in an [li]
    in an [ul] in the editable root. *)
Definition topLevelItemView (id : string) : MappedView :=
  mkMappedView bogusSpan
    [createListItemElement 0 (Some (VStr id));
     createListElement 0 (Some (VStr "bulleted"));
     rootEditable].

Definition threeItemView (item : nat) : option MappedView :=
  match item with
  | 0%nat => Some (topLevelItemView "a")
  | 1%nat => Some (topLevelItemView "b")
  | 2%nat => Some (topLevelItemView "c")
  | _ => None
  end.

(** The list editing plugin with no listener on its events: [fire]
    returns [undefined]. *)
Definition noCheckElement (item : nat) (viewElement : ViewElement) : bool :=
  false.

Definition noCheckAttributes (event : AttributesEvent)
    (viewElement : ViewElement) (modelAttributes : option (gmap string value))
    : bool :=
  false.

(** The item [a] after its [listType] was changed to [numbered]. *)
Definition retypedItemDocument : list Node :=
  [listParagraph "a" 0 "numbered"].

Definition retypedItemView (item : nat) : option MappedView :=
  match item with
  | 0%nat => Some (topLevelItemView "a")
  | _ => None
  end.

Definition retypeChange : DiffItem :=
  DiffAttribute 0 "listType" (Some (VStr "bulleted")) (Some (VStr "numbered")).

(** Listeners that report every wrapper as out of date. *)
Definition staleCheckAttributes (event : AttributesEvent)
    (viewElement : ViewElement) (modelAttributes : option (gmap string value))
    : bool :=
  true.

(** Two changes of [listType], on the third block and on the first, in
    this order. *)
Definition unorderedChanges : list DiffItem :=
  [DiffAttribute 2 "listType" (Some (VStr "numbered")) (Some (VStr "bulleted"));
   DiffAttribute 0 "listType" (Some (VStr "numbered")) (Some (VStr "bulleted"))].

(** The list [a], [b], [c] after [listItemId] was removed from [b]. *)
Definition splitDocument : list Node :=
  [listParagraph "a" 0 "bulleted";
   mkNode true "paragraph"
     (<["listIndent" := VNum 0]> (<["listType" := VStr "bulleted"]> ∅));
   listParagraph "c" 0 "bulleted"].

Definition removedItemId : DiffItem :=
  DiffAttribute 1 "listItemId" (Some (VStr "b")) None.

(** [<ol><li>A</li><li>B<ul><li>C</li></ul></li></ol>] *)
Definition scenarioItems : list (list ItemChild) :=
  [ []; [ChildList false [ [] ]] ].

(** ** Notions used to state the properties *)

(** The condition under which a block is rendered as a bogus paragraph. *)
Definition bogusCondition (d : Document) (item : nat)
    (attributeNames : list string) : Prop :=
  isListItemBlock d item = true ∧
  (∀ n key, d !! item = Some n → hasAttribute n key = true →
     String.prefix "selection:" key = false → key ∈ attributeNames) ∧
  (length (getAllListItemBlocks d item) < 2)%nat.

(** What the loop of [listItemUpcastConverter] does to one of its items:
    an item that carries no [listItemId] receives the three attributes. *)
Definition tagNode (a : ListAttributes) (n : Node) : Node :=
  if hasAttribute n "listItemId" then n else setListAttributes a n.

(** The items of the converter: the shallow items of the range on which
    the schema allows [listItemId]. *)
Definition upcastItems (schemaCheck : Node → string → bool) (m : Document)
    (range : nat * nat) : list nat :=
  filter (λ i, from_option (λ n, schemaCheck n "listItemId") false (m !! i)
               = true)
         (rangeItems range).

(** The list type the converter assigns: the truthy [listType] of the
    first item if there is one, else the type named by the parent. *)
Definition upcastListType (ancestors : list ViewElement)
    (firstItemListType : option value) : value :=
  match firstItemListType with
  | Some v => if truthy v then v
              else if parentIsOl ancestors then VStr "numbered"
              else VStr "bulleted"
  | None => if parentIsOl ancestors then VStr "numbered" else VStr "bulleted"
  end.

Definition keepsChild (child : ViewNode) : bool :=
  viewNodeIsListItem child || viewNodeIsList child.

(** An attribute of [attributeNames] that is set on the block and whose
    event the consumable reports as consumed already ([test] answers
    [false]). *)
Definition failsConsumableTest (attributeNames : list string) (d : Document)
    (listItem : nat) (consumable : ModelConsumable) : Prop :=
  ∃ attributeName n,
    attributeName ∈ attributeNames ∧ d !! listItem = Some n ∧
    hasAttribute n attributeName = true ∧
    consumableTest consumable listItem ("attribute:" ++ attributeName)
      = Some false.

(** Every attribute of [attributeNames] that is set on the block passes the
    test of the consumer: [test] does not answer [false]. *)
Definition allStillConsumable (attributeNames : list string) (d : Document)
    (listItem : nat) (consumable : ModelConsumable) : Prop :=
  ∀ attributeName n,
    attributeName ∈ attributeNames → d !! listItem = Some n →
    hasAttribute n attributeName = true →
    consumableTest consumable listItem ("attribute:" ++ attributeName)
      ≠ Some false.

#[global] Instance AttributeScope_eq_dec : EqDecision AttributeScope.
Proof. solve_decision. Defined.

(** The blocks that govern the wrappers of a block, one per level: the
    block itself and then, level after level, the nearest preceding block
    of a lower indent, for as long as there is one and for [levels] levels
    at most. *)
Fixpoint governingBlocks (d : Document) (levels : nat) (block : nat)
    : list nat :=
  block ::
    match levels with
    | O => []
    | S lower =>
        match ListWalker_first d block lowerIndentOptions with
        | Some parent => governingBlocks d lower parent
        | None => []
        end
    end.

(** A wrapper with the view attributes of every registered strategy of the
    given scope whose attribute is set on the governing block, applied in
    the order of registration. *)
Definition withStrategyAttributes (d : Document)
    (strategies : list DowncastStrategy) (scope : AttributeScope)
    (block : nat) (wrapper : ViewElement) : ViewElement :=
  foldl (λ e strategy,
           match strategy with
           | AttributeStrategy scope' attributeName setAttributeOnDowncast =>
               if bool_decide (scope' = scope) then
                 match attrAt d block attributeName with
                 | Some v => setAttributeOnDowncast v e
                 | None => e
                 end
               else e
           | ItemMarkerStrategy _ _ _ _ => e
           end)
        wrapper strategies.

(** The list wrapper and the item wrapper of one level. *)
Definition listWrapperAt (d : Document) (strategies : list DowncastStrategy)
    (indent : nat) (block : nat) : ViewElement :=
  withStrategyAttributes d strategies ScopeList block
    (createListElement (Z.of_nat indent) (attrAt d block "listType")).

Definition itemWrapperAt (d : Document) (strategies : list DowncastStrategy)
    (indent : nat) (block : nat) : ViewElement :=
  withStrategyAttributes d strategies ScopeItem block
    (createListItemElement (Z.of_nat indent) (attrAt d block "listItemId")).

(** A range wrapped in one pair per governing block, the first at level
    [indent] and each next one a level lower. *)
Fixpoint wrappedInPairs (d : Document) (strategies : list DowncastStrategy)
    (indent : nat) (governors : list nat) (viewRange : list ViewNode)
    : list ViewNode :=
  match governors with
  | [] => viewRange
  | block :: rest =>
      wrappedInPairs d strategies (pred indent) rest
        [ViewElem (listWrapperAt d strategies indent block)
           [ViewElem (itemWrapperAt d strategies indent block) viewRange]]
  end.

(** Two blocks carry the same item identity. *)
Definition sameItemId (d : Document) (start j : nat) : Prop :=
  attrAt d j "listItemId" = attrAt d start "listItemId".

(** A node that is no list block, or a list block whose [listIndent] is a
    number and an array index. *)
Definition hasValidIndent (n : Node) : bool :=
  negb (isListItemNode n)
  || match getAttribute n "listIndent" with
     | Some (VNum indent) => isArrayIndex indent
     | _ => false
     end.

Section SchedulerNotions.

Variable d : Document.
Variable attributeNames : list string.
Variable toViewElement : nat → option MappedView.
Variable fireCheckElement : nat → ViewElement → bool.
Variable fireCheckAttributes :
  AttributesEvent → ViewElement → option (gmap string value) → bool.

(** What puts a block in the refresh set: the check of the paragraph
    shape asks for it, or the block was not changed in the batch and the
    check of its wrappers asks for it. *)
Definition refreshReason (changedItems : gset nat) (block : nat) : Prop :=
  (∃ blocks,
     doesItemBlockRequiresRefresh d attributeNames toViewElement
       fireCheckElement block blocks = true) ∨
  ((block ∉ changedItems) ∧
   (∃ stack,
      doesItemWrappingRequiresRefresh toViewElement fireCheckAttributes
        block stack changedItems = Some true)).

(** Every list block has a view element, and that view element lives in
    an editable element. *)
Definition viewComplete : Prop :=
  ∀ item, isListItemBlock d item = true →
    ∃ mapped, toViewElement item = Some mapped ∧
      (∃ e, e ∈ mvAncestors mapped ∧ viewIsKind e EditableElement = true).

(** The indents of the document are valid: every list block carries a
    [listIndent] that is a number and an array index, from 0 on as the
    data model has it, so that the stack of a walk has a level for it. *)
Definition validIndents : Prop :=
  Forall (λ n, hasValidIndent n = true) d.

(** The state of a walk when the iterator is about to yield the node at
    [bound]: the trace has no duplicates and holds the visited blocks,
    all of them list blocks, and every visited block came with all the
    blocks of the item of an earlier node. *)
Definition walkInvariant (bound : nat) (st : CollectState) : Prop :=
  NoDup (csTrace st) ∧
  (∀ b, b ∈ csTrace st ↔ b ∈ csVisited st) ∧
  (∀ b, b ∈ csVisited st → isListItemBlock d b = true) ∧
  (∀ v, v ∈ csVisited st →
     ∃ m, (m < bound)%nat ∧ v ∈ getListItemBlocks d m Forward ∧
       (∀ u, u ∈ getListItemBlocks d m Forward → u ∈ csVisited st)).

End SchedulerNotions.

(** *** The nested structure of a list markup *)

(** One level of the nesting of a block: whether the list is ordered, and
    the item, named by its number in the order in which the items are
    closed (an item is closed after the items nested in it). *)
Abbreviation Level := (bool * nat)%type (only parsing).

(** The number of items in a child of an item. *)
Fixpoint itemCount (child : ItemChild) : nat :=
  match child with
  | ChildBlock => 0
  | ChildList _ items =>
      sum_list_with (λ item, S (sum_list_with itemCount item)) items
  end.

Section StacksWith.

Variable childStacks : list Level → ItemChild → nat → list (list Level).

Fixpoint childrenStacksWith (stack : list Level) (children : list ItemChild)
    (counter : nat) : list (list Level) :=
  match children with
  | [] => []
  | child :: more =>
      childStacks stack child counter
        ++ childrenStacksWith stack more (counter + itemCount child)
  end.

Fixpoint itemsStacksWith (ordered : bool) (context : list Level)
    (items : list (list ItemChild)) (counter : nat) : list (list Level) :=
  match items with
  | [] => []
  | item :: rest =>
      let number := (counter + sum_list_with itemCount item)%nat in
      let stack := (ordered, number) :: context in
      (stack :: childrenStacksWith stack item counter)
        ++ itemsStacksWith ordered context rest (S number)
  end.

End StacksWith.

(** The nesting of every block of a markup, in document order: for each
    block its levels, the innermost first.  [context] is the nesting of
    the item that holds the child, and the items are numbered from
    [counter]. *)
Fixpoint childStacks (context : list Level) (child : ItemChild)
    (counter : nat) {struct child} : list (list Level) :=
  match child with
  | ChildBlock => [context]
  | ChildList ordered items =>
      itemsStacksWith childStacks ordered context items counter
  end.

Definition listTypeOf (ordered : bool) : string :=
  if ordered then "numbered" else "bulleted".

(** The wrappers a nesting asks for, the outermost first: per level a list
    wrapper of the type of the list around an item wrapper with the
    identity of the item. *)
Fixpoint expectedWrappersFrom (indent : nat) (stack : list Level)
    (inner : list ViewElement) : list ViewElement :=
  match stack with
  | [] => inner
  | (ordered, number) :: outer =>
      expectedWrappersFrom (pred indent) outer
        (createListElement (Z.of_nat indent)
           (Some (VStr (listTypeOf ordered)))
         :: createListItemElement (Z.of_nat indent)
              (Some (VStr (ListItemUid_id number)))
         :: inner)
  end.

Definition expectedWrappers (stack : list Level) : list ViewElement :=
  expectedWrappersFrom (pred (length stack)) stack [].

(** The model block of a block of the given nesting. *)
Definition nodeOfStack (stack : list Level) : Node :=
  match stack with
  | [] => mkNode true "paragraph" ∅
  | (ordered, number) :: outer =>
      setListAttributes
        (mkListAttributes (ListItemUid_id number) (Z.of_nat (length outer))
           (VStr (listTypeOf ordered)))
        (mkNode true "paragraph" ∅)
  end.

(** The blocks that precede a block, the nearest first, place its
    ancestors right: the nearest one that is not nested at least as deep
    is a block of the enclosing item, and so on outwards. *)
Fixpoint ancestorsPlaced (preceding : list (list Level))
    (stack : list Level) {struct stack} : Prop :=
  match stack with
  | [] => True
  | _ :: outer =>
      match outer with
      | [] => True
      | _ :: _ =>
          ∃ nearer further,
            preceding = nearer ++ outer :: further ∧
            Forall (λ s, (length stack ≤ length s)%nat) nearer ∧
            ancestorsPlaced further outer
      end
  end.

(** The blocks in the model once a child of an item is converted and
    before the converter of the item runs: a block of the item itself is
    untagged still, the blocks of a nested list are tagged. *)
Definition rawChild (stack : list Level) (child : ItemChild) (counter : nat)
    : list Node :=
  match child with
  | ChildBlock => [mkNode true "paragraph" ∅]
  | ChildList _ _ => nodeOfStack <$> childStacks stack child counter
  end.

Fixpoint rawChildren (stack : list Level) (children : list ItemChild)
    (counter : nat) : list Node :=
  match children with
  | [] => []
  | child :: more =>
      rawChild stack child counter
        ++ rawChildren stack more (counter + itemCount child)
  end.

(** What the conversion of a child of an item, or of a list, does to the
    model and to the identity generator. *)
Definition upcastsTo (child : ItemChild) : Prop :=
  ∀ ancestors context st,
    getIndent ancestors = Z.of_nat (length context) →
    usModel (upcastChild ancestors child st)
      = usModel st ++ rawChild context child (usUid st) ∧
    usUid (upcastChild ancestors child st) = (usUid st + itemCount child)%nat.

(** Every block of a sequence has its ancestors placed right among the
    blocks before it; [preceding] are the blocks before the sequence, the
    nearest first. *)
Fixpoint allPlaced (preceding : list (list Level))
    (blocks : list (list Level)) : Prop :=
  match blocks with
  | [] => True
  | stack :: rest =>
      ancestorsPlaced preceding stack ∧ allPlaced (stack :: preceding) rest
  end.

(** The blocks before the next child of an item of nesting [stack]: after
    the last block of the item itself come only blocks nested deeper, and
    the ancestors of that block are placed right. *)
Definition insideItem (stack : list Level) (preceding : list (list Level))
    : Prop :=
  ∃ deeper before,
    preceding = deeper ++ stack :: before ∧
    Forall (λ s, (length stack < length s)%nat) deeper ∧
    ancestorsPlaced before stack.

(** What the nesting of the blocks of a child looks like. *)
Definition stacksPlaced (child : ItemChild) : Prop :=
  ∀ context preceding counter,
    context = [] ∨ insideItem context preceding →
    Forall (λ s, ∃ inner, s = inner ++ context ∧
                  match child with
                  | ChildBlock => True
                  | ChildList _ _ => inner ≠ []
                  end)
           (childStacks context child counter) ∧
    allPlaced preceding (childStacks context child counter).

Definition stacksNonEmpty (child : ItemChild) : Prop :=
  ∀ context counter,
    match child with
    | ChildBlock => context ≠ []
    | ChildList _ _ => True
    end →
    Forall (λ s, s ≠ []) (childStacks context child counter).

(** ** Notions used to state the further properties *)

(** A differ entry the scheduler has nothing to do for: the insertion of
    text, the removal of a node that carried no [listItemId], and the
    change of an attribute that is no list attribute on a block that is
    not in a list. *)
Definition leavesListsAlone (d : Document) (attributeNames : list string)
    (entry : DiffItem) : Prop :=
  match entry with
  | DiffInsert name _ _ _ => name = "$text"%string
  | DiffRemove _ attributes _ _ => attributes !! "listItemId"%string = None
  | DiffAttribute rangeStart attributeKey _ _ =>
      (attributeKey ∉ attributeNames) ∧ isListItemBlock d rangeStart = false
  end.

(** ** Further sample documents *)

(** A right-aligned paragraph, as an inner converter made it. *)
Definition alignedParagraph : Node :=
  mkNode true "paragraph" {[ "alignment"%string := VStr "right" ]}.

(** A batch that does not concern lists: text typed into the first block,
    a plain block removed, and the alignment of the first block changed. *)
Definition unrelatedChanges : list DiffItem :=
  [DiffInsert "$text" ∅ 0 3;
   DiffRemove "paragraph" ∅ 1 1;
   DiffAttribute 0 "alignment" None (Some (VStr "right"))].

(** The only item of a list after it was turned into a plain paragraph:
    the batch removes its three list attributes, and its view is the bogus
    paragraph still. *)
Definition unlistedDocument : list Node := [plainParagraph].

Definition unlistChanges : list DiffItem :=
  [DiffAttribute 0 "listItemId" (Some (VStr "a")) None;
   DiffAttribute 0 "listIndent" (Some (VNum 0)) None;
   DiffAttribute 0 "listType" (Some (VStr "bulleted")) None].

Definition unmappedView (item : nat) : option MappedView := None.

(** ** Notions for the downcast converter *)

(** A view range inside the given elements, the innermost first. *)
Definition nestIn (wrappers : list ViewElement) (viewRange : list ViewNode)
    : list ViewNode :=
  foldl wrap viewRange wrappers.

(** A strategy whose [setAttributeOnDowncast] sets attributes, classes or
    styles on the element it is given: the element keeps its kind and its
    name. *)
Definition keepsElement (strategy : DowncastStrategy) : Prop :=
  match strategy with
  | AttributeStrategy _ _ setAttributeOnDowncast =>
      ∀ v e,
        viewKind (setAttributeOnDowncast v e) = viewKind e ∧
        viewName (setAttributeOnDowncast v e) = viewName e
  | ItemMarkerStrategy _ _ _ _ => True
  end.

(** A strategy that makes no marker element for the block: an attribute
    strategy, or an item-marker strategy whose [createElement] returns
    [null] for it. *)
Definition makesNoMarker (d : Document) (listItem : nat) (dataPipeline : bool)
    (strategy : DowncastStrategy) : Prop :=
  match strategy with
  | AttributeStrategy _ _ _ => True
  | ItemMarkerStrategy _ createElement _ _ =>
      createElement d listItem dataPipeline = None
  end.

(** What [consume] does to the entry of an event: a consumable that is
    still there is marked as consumed, anything else stays. *)
Definition consumed (entry : option bool) : option bool :=
  match entry with
  | Some true => Some false
  | other => other
  end.

(** The consumable of a block whose three list attributes wait for
    conversion. *)
Definition freshConsumable : gmap (nat * string) bool :=
  {[ (0%nat, "attribute:listItemId"%string) := true;
     (0%nat, "attribute:listIndent"%string) := true;
     (0%nat, "attribute:listType"%string) := true ]}.

(** A strategy that renders the attribute [listStyle] as a view attribute
    of the list element. *)
Definition listStyleStrategy : DowncastStrategy :=
  AttributeStrategy ScopeList "listStyle"
    (λ v e,
       mkViewElement (viewKind e) (viewName e) (viewId e) (viewIndent e)
         (<["style" := v]> (viewAttributes e)) (viewCustomProperties e)).

(** The wrappers of the governing blocks of a block, the innermost first:
    per governing block its item wrapper and then its list wrapper. *)
Fixpoint pairWrappers (d : Document) (strategies : list DowncastStrategy)
    (indent : nat) (governors : list nat) : list ViewElement :=
  match governors with
  | [] => []
  | block :: rest =>
      itemWrapperAt d strategies indent block
        :: listWrapperAt d strategies indent block
        :: pairWrappers d strategies (pred indent) rest
  end.

(** The editing view of the third block of [nestedDocument] once the
    converter wrapped it: the paragraph inside its three pairs of wrappers
    inside the editable root. *)
Definition wrappedItemView (item : nat) : option MappedView :=
  match item with
  | 2%nat =>
      Some (mkMappedView
              (mkViewElement ContainerElement "p" None None ∅ ∅)
              (pairWrappers nestedDocument [] 2 [2%nat; 1%nat; 0%nat]
                 ++ [rootEditable]))
  | _ => None
  end.

(** ** Notions for the list heads of the scheduler *)

(** The first block of the run of consecutive list blocks that ends at
    [block]. *)
Definition listHeadOf (d : Document) (block : nat) : nat :=
  List.last (runBackFrom d block) block.

(** The positions at which the scan of the changes looks for a list head
    ([findAndAddListHeadToMap]) for one entry, in the order of the
    calls. *)
Definition scannedPositions (attributeNames : list string)
    (entry : DiffItem) : list nat :=
  match entry with
  | DiffInsert name attributes position len =>
      if bool_decide (name = "$text"%string) then []
      else if bool_decide (is_Some (attributes !! "listItemId"%string))
      then [position]
      else [position; (position + len)%nat]
  | DiffRemove _ attributes position _ =>
      if bool_decide (is_Some (attributes !! "listItemId"%string))
      then [position]
      else []
  | DiffAttribute rangeStart attributeKey _ attributeNewValue =>
      if includes attributeNames attributeKey then
        match attributeNewValue with
        | None => [rangeStart; (rangeStart + 1)%nat]
        | Some _ => [rangeStart]
        end
      else []
  end.

(** Every entry of the map of the scheduler names a list block and the
    head of its run. *)
Definition headsRecorded (d : Document) (m : list (nat * nat)) : Prop :=
  ∀ k v, (k, v) ∈ m → isListItemBlock d k = true ∧ v = listHeadOf d k.

(** The block next to a position whose list the scan records: the block
    before the position when that is a list block, else the block at the
    position when that is one. *)
Definition recordedAt (d : Document) (position block : nat) : Prop :=
  isListItemBlock d block = true ∧
  (position = S block
   ∨ position = block ∧ ∀ q, position = S q → isListItemBlock d q = false).

(** The fourth item of a list was removed: the batch on the document of the
    three items that are left. *)
Definition lastItemRemoved : list DiffItem :=
  [DiffRemove "paragraph" {[ "listItemId"%string := VStr "d" ]} 3 1].

(** A list block of indent [-2] after one of indent 0: a document outside
    the data model, on which the length of the stack cannot be set. *)
Definition negativeIndentDocument : list Node :=
  [listParagraph "a" 0 "bulleted"; listParagraph "b" (-2) "bulleted"].

(** ** The batches of the differ *)

(** The position of an entry of the differ. *)
Definition entryPosition (entry : DiffItem) : nat :=
  match entry with
  | DiffInsert _ _ position _ => position
  | DiffRemove _ _ position _ => position
  | DiffAttribute rangeStart _ _ _ => rangeStart
  end.

(** No position is before the one that precedes it, nor before [p]. *)
Fixpoint nondecreasingFrom (p : nat) (positions : list nat) : Prop :=
  match positions with
  | [] => True
  | q :: rest => (p ≤ q)%nat ∧ nondecreasingFrom q rest
  end.

(** An insertion is of text or of one element. *)
Definition insertsOneElement (entry : DiffItem) : Prop :=
  match entry with
  | DiffInsert name _ _ len => name = "$text"%string ∨ len = 1%nat
  | _ => True
  end.

(** Modelled from the spec: [differ.getChanges()] of the engine is not
    part of the sources at hand.  It returns the entries sorted by their
    position, and the entry of an inserted element has the length 1 (only
    the insertions of text are merged into longer entries). *)
Definition differOrdered (changes : list DiffItem) : Prop :=
  nondecreasingFrom 0 (entryPosition <$> changes) ∧
  Forall insertsOneElement changes.

(** The map of the scheduler while the entries up to the position [p] are
    scanned: every entry names a list block and the head of its run, no
    two keys lie in the same run, and a key at or after [p] is the head
    of its run. *)
Definition oneKeyPerList (d : Document) (m : list (nat * nat)) (p : nat)
    : Prop :=
  headsRecorded d m ∧
  NoDup m.*1 ∧
  (∀ k1 k2, k1 ∈ m.*1 → k2 ∈ m.*1 →
     listHeadOf d k1 = listHeadOf d k2 → k1 = k2) ∧
  (∀ k, k ∈ m.*1 → (k ≤ S p)%nat ∧ ((p ≤ k)%nat → listHeadOf d k = k)).

(** Two changes of [listType], on the first block and on the third. *)
Definition orderedChanges : list DiffItem :=
  [DiffAttribute 0 "listType" (Some (VStr "numbered")) (Some (VStr "bulleted"));
   DiffAttribute 2 "listType" (Some (VStr "numbered")) (Some (VStr "bulleted"))].

(** ** Views that are up to date *)

(** The blocks of every item are consecutive: the blocks of an item, from
    one of them on, are that block and the blocks right after it, with no
    block of a nested list in between. *)
Definition itemsUnbroken (d : Document) : Prop :=
  ∀ node, isListItemBlock d node = true →
    getListItemBlocks d node Forward
    = seq node (length (getListItemBlocks d node Forward)).

(** The first block of the item of a block: the first of the blocks of
    the same indent and item identity that come right before it. *)
Fixpoint itemHead (d : Document) (block : nat) : nat :=
  match block with
  | O => O
  | S p =>
      if isListItemBlock d p
         && bool_decide (indentAt d p = indentAt d block)
         && bool_decide (attrAt d p "listItemId" = attrAt d block "listItemId")
      then itemHead d p
      else block
  end.

(** The item that encloses a block at a level of its nesting: going back
    from the block over the list blocks, the first block whose indent is
    not above the level is a block of that item, if its indent is the
    level; the owner is the first block of the item.  No item owns a
    level over which the indent jumps. *)
Fixpoint levelOwner (d : Document) (level : Z) (block : nat) : option nat :=
  if isListItemBlock d block then
    if level <? indentAt d block then
      match block with
      | O => None
      | S p => levelOwner d level p
      end
    else if indentAt d block =? level then Some (itemHead d block)
    else None
  else None.

(** The list attributes of the items that enclose a block, level by level
    from 0 to the indent of the block. *)
Definition itemLevels (d : Document) (attributeNames : list string)
    (block : nat) : list (option (gmap string value)) :=
  (λ level : nat,
     listAttributesOf d attributeNames
       <$> levelOwner d (Z.of_nat level) block)
    <$> seq 0 (Z.to_nat (indentAt d block + 1)).

(** The wrappers of a block are up to date: the block has a view
    element, and the check of its wrappers against the attributes of the
    items that enclose it in the model finds nothing to refresh. *)
Definition wrappersUpToDate (d : Document) (attributeNames : list string)
    (toViewElement : nat → option MappedView)
    (fireCheckAttributes :
       AttributesEvent → ViewElement → option (gmap string value) → bool)
    (block : nat) : Prop :=
  ∃ mapped,
    toViewElement block = Some mapped ∧
    wrappingLoop fireCheckAttributes
      (mkStack (itemLevels d attributeNames block) ∅) (indentAt d block)
      (mvAncestors mapped) = Some false.

(** The state of a walk when the iterator is about to yield the node
    [next].  Before the first node, the head of a run, nothing is visited
    and the stack is empty; after a node the node is visited and the
    stack holds, level by level up to the indent of the node, the
    attributes of the items that enclose it. *)
Definition stackFollows (d : Document) (attributeNames : list string)
    (previous : option nat) (next : nat) (st : CollectState) : Prop :=
  match previous with
  | None =>
      csVisited st = ∅ ∧ csStack st = mkStack [] ∅ ∧
      ∀ q, next = S q → isListItemBlock d q = false
  | Some p =>
      next = S p ∧ p ∈ csVisited st ∧
      Z.of_nat (length (stackElements (csStack st))) = indentAt d p + 1 ∧
      ∀ level, 0 ≤ level ≤ indentAt d p →
        stackGet (csStack st) level
        = listAttributesOf d attributeNames <$> levelOwner d level p
  end.

(** Listeners that compare a wrapper with the model attributes: an item
    wrapper has to carry the [listItemId], a list wrapper the
    [listType]. *)
Definition comparingCheckAttributes (event : AttributesEvent)
    (viewElement : ViewElement) (modelAttributes : option (gmap string value))
    : bool :=
  match event with
  | CheckItem =>
      negb (bool_decide
              (viewId viewElement
               = modelAttributes ≫= λ a, a !! "listItemId"%string))
  | CheckList =>
      negb (bool_decide
              (viewId viewElement
               = modelAttributes ≫= λ a, a !! "listType"%string))
  end.

(** The editing view of [nestedDocument] when it is up to date: every
    block inside the wrappers of its governing blocks inside the editable
    root. *)
Definition nestedView (item : nat) : option MappedView :=
  match item with
  | 0%nat =>
      Some (mkMappedView bogusSpan
              (pairWrappers nestedDocument [] 0 [0%nat] ++ [rootEditable]))
  | 1%nat =>
      Some (mkMappedView bogusSpan
              (pairWrappers nestedDocument [] 1 [1%nat; 0%nat]
                 ++ [rootEditable]))
  | 2%nat =>
      Some (mkMappedView bogusSpan
              (pairWrappers nestedDocument [] 2 [2%nat; 1%nat; 0%nat]
                 ++ [rootEditable]))
  | _ => None
  end.

(** The batch that changed the [listType] of the third block of
    [nestedDocument]. *)
Definition retypeNested : DiffItem :=
  DiffAttribute 2 "listType" (Some (VStr "numbered")) (Some (VStr "bulleted")).

(** The item [a] with a second block after its nested list [n], then the
    items [d] and [l]; the [listType] of [l] was changed to [numbered]. *)
Definition brokenItemDocument : list Node :=
  [listParagraph "a" 0 "bulleted";
   listParagraph "n" 1 "bulleted";
   listParagraph "a" 0 "bulleted";
   listParagraph "d" 0 "bulleted";
   listParagraph "l" 0 "numbered"].

(** The editing view of [brokenItemDocument] before the change of [l] is
    converted: the two blocks of [a] are paragraphs in the item [a], the
    block of [n] is a bogus paragraph in its item in the list nested in
    [a], and the blocks of [d] and [l] are bogus paragraphs in their
    items. *)
Definition brokenItemView (item : nat) : option MappedView :=
  match item with
  | 0%nat | 2%nat =>
      Some (mkMappedView
              (mkViewElement ContainerElement "p" None None ∅ ∅)
              [createListItemElement 0 (Some (VStr "a"));
               createListElement 0 (Some (VStr "bulleted"));
               rootEditable])
  | 1%nat =>
      Some (mkMappedView bogusSpan
              [createListItemElement 1 (Some (VStr "n"));
               createListElement 1 (Some (VStr "bulleted"));
               createListItemElement 0 (Some (VStr "a"));
               createListElement 0 (Some (VStr "bulleted"));
               rootEditable])
  | 3%nat => Some (topLevelItemView "d")
  | 4%nat => Some (topLevelItemView "l")
  | _ => None
  end.

Definition retypeLast : DiffItem :=
  DiffAttribute 4 "listType" (Some (VStr "bulleted")) (Some (VStr "numbered")).

(** ** The downcast pipeline around the list item converter *)

(** The view element the converter of an inserted paragraph makes. *)
Definition paragraphView : ViewNode :=
  ViewElem (mkViewElement ContainerElement "p" None None ∅ ∅) [].

Definition attributeKeysAt (d : Document) (block : nat) : list string :=
  from_option getAttributeKeys [] (d !! block).

(** Modelled from the spec: the downcast dispatcher of the engine is not
    part of the sources at hand.  For an inserted block the converter of
    the element maps the block to a view element outside any wrapper, and
    the events of the attributes of the block are consumable.  Then the
    dispatcher fires one event per attribute of the block, and
    [listItemDowncastConverter] runs on each of them.  The blocks are
    converted in the order of the document. *)
Definition insertBlock (d : Document) (block : nat) (st : DowncastState)
    : DowncastState :=
  mkDowncastState
    (<[block := mkBlockView [paragraphView] [] []]> (dsView st))
    (foldr (λ key c, <[(block, ("attribute:" ++ key)%string) := true]> c)
       (dsConsumable st) (attributeKeysAt d block)).

Definition downcastBlock (attributeNames : list string)
    (strategies : list DowncastStrategy) (d : Document) (dataPipeline : bool)
    (st : option DowncastState) (block : nat) : option DowncastState :=
  foldl (λ st key,
           st ≫= listItemDowncastConverter attributeNames strategies d
                   dataPipeline block key)
        (insertBlock d block <$> st) (attributeKeysAt d block).

Definition downcastDocument (attributeNames : list string)
    (strategies : list DowncastStrategy) (d : Document) (dataPipeline : bool)
    : option DowncastState :=
  foldl (downcastBlock attributeNames strategies d dataPipeline)
    (Some (mkDowncastState ∅ ∅)) (seq 0 (length d)).

(** The view wrapper stack of a block in the data view: the wrappers
    around the view element of the block, the outermost first, once the
    document is downcast with the three list attributes and no further
    strategy. *)
Definition viewWrapperStack (d : Document) (block : nat) : list ViewElement :=
  from_option (λ v, rangeChain (bvRange v)) []
    (downcastDocument listAttributeNames [] d true
       ≫= λ st, dsView st !! block).

(** What the converter makes of the view of an inserted block. *)
Definition convertedView (d : Document) (strategies : list DowncastStrategy)
    (dataPipeline : bool) (block : nat) : BlockView :=
  mkBlockView
    (wrapListItemBlock d block
       (insertCustomMarkerElements d block [paragraphView] strategies
          dataPipeline)
       strategies)
    [] [].

(** * Properties *)

(** ** Helper lemmas *)

Lemma includes_true (names : list string) (key : string) :
  includes names key = true ↔ key ∈ names.
Proof. unfold includes. apply bool_decide_eq_true. Qed.

Lemma hasForeignAttribute_false (attributeNames keys : list string) :
  hasForeignAttribute attributeNames keys = false ↔
  ∀ key, key ∈ keys →
    String.prefix "selection:" key = false → key ∈ attributeNames.
Proof.
  induction keys as [|k keys IH]; simpl.
  - split; [intros _ key Hk; inversion Hk | done].
  - destruct (String.prefix "selection:" k) eqn:Hsel.
    + rewrite IH. split.
      * intros H key Hk Hp. apply elem_of_cons in Hk as [-> | Hk].
        -- congruence.
        -- by apply H.
      * intros H key Hk. apply H. by right.
    + destruct (includes attributeNames k) eqn:Hin; simpl.
      * rewrite IH. apply includes_true in Hin. split.
        -- intros H key Hk Hp. apply elem_of_cons in Hk as [-> | Hk]; auto.
        -- intros H key Hk. apply H. by right.
      * split; [done |]. intros H.
        assert (k ∈ attributeNames) as Hk by (apply H; [by left | done]).
        apply includes_true in Hk. congruence.
Qed.

Lemma elem_of_getAttributeKeys (n : Node) (key : string) :
  key ∈ getAttributeKeys n ↔ is_Some (nodeAttrs n !! key).
Proof.
  unfold getAttributeKeys. rewrite list_elem_of_fmap. split.
  - intros [[k v] [-> Hkv]]. apply elem_of_map_to_list in Hkv. by exists v.
  - intros [v Hv]. exists (key, v). split; [done |].
    by apply elem_of_map_to_list.
Qed.

(** ** The bogus-paragraph policy *)

Lemma shouldUseBogusParagraph_iff (d : Document) (item : nat)
    (attributeNames : list string) :
  shouldUseBogusParagraph d item attributeNames None = true ↔
  bogusCondition d item attributeNames.
Proof.
  unfold shouldUseBogusParagraph, bogusCondition. simpl.
  destruct (isListItemBlock d item) eqn:Hli; simpl.
  2: { split; [done | by intros [? _]]. }
  destruct (hasForeignAttribute _ _) eqn:Hf.
  - split; [done |]. intros (_ & Hkeys & _).
    assert (hasForeignAttribute attributeNames
              (from_option getAttributeKeys [] (d !! item)) = false) as Hc;
      [| congruence].
    apply hasForeignAttribute_false. intros key Hk Hp.
    destruct (d !! item) as [n|] eqn:Hn; simpl in Hk; [| inversion Hk].
    apply (Hkeys n key); [done | | done].
    unfold hasAttribute. apply bool_decide_eq_true.
    by apply elem_of_getAttributeKeys.
  - rewrite bool_decide_eq_true. split.
    + intros Hlen. split; [done |]. split; [| done].
      intros n key Hn Hhas Hp.
      rewrite hasForeignAttribute_false in Hf. apply Hf; [| done].
      rewrite Hn. simpl. apply elem_of_getAttributeKeys.
      unfold hasAttribute in Hhas. by apply bool_decide_eq_true in Hhas.
    + by intros (_ & _ & Hlen).
Qed.

(** C1.  A block renders as a bogus paragraph if and only if it is a list
    item block, every attribute key on it that does not start with the
    selection prefix is one of the list attributes, and its item has fewer
    than two blocks.  When this holds the creator produces a [span]
    container with the bogus-paragraph class in the editing pipeline and a
    [p] container flagged for transparent rendering in the data pipeline;
    otherwise it produces no element in either pipeline. *)
Theorem bogusParagraphCreator_spec (d : Document) (item : nat)
    (attributeNames : list string) :
  (shouldUseBogusParagraph d item attributeNames None = true ↔
   bogusCondition d item attributeNames) ∧
  (bogusCondition d item attributeNames →
   bogusParagraphCreator attributeNames false d item =
     Some (mkViewElement ContainerElement "span" None None
             {[ "class"%string := VStr "ck-list-bogus-paragraph" ]} ∅) ∧
   bogusParagraphCreator attributeNames true d item =
     Some (mkViewElement ContainerElement "p" None None ∅
             {[ "dataPipeline:transparentRendering"%string := VBool true ]})) ∧
  (¬ bogusCondition d item attributeNames →
   ∀ dataPipeline,
     bogusParagraphCreator attributeNames dataPipeline d item = None).
Proof.
  split; [apply shouldUseBogusParagraph_iff |]. split.
  - intros H. apply shouldUseBogusParagraph_iff in H.
    unfold bogusParagraphCreator. rewrite H. simpl. split; reflexivity.
  - intros H dataPipeline. unfold bogusParagraphCreator.
    destruct (shouldUseBogusParagraph d item attributeNames None) eqn:Hs.
    + exfalso. apply H. by apply shouldUseBogusParagraph_iff.
    + reflexivity.
Qed.

Lemma bogusParagraphCreator_spec_witness :
  bogusParagraphCreator listAttributeNames false singleItemDocument 0 =
    Some bogusSpan ∧
  bogusParagraphCreator listAttributeNames true singleItemDocument 0 =
    Some (mkViewElement ContainerElement "p" None None ∅
            {[ "dataPipeline:transparentRendering"%string := VBool true ]}) ∧
  bogusParagraphCreator listAttributeNames false nestedOnlyItems 0 = None.
Proof.
  destruct (bogusParagraphCreator_spec singleItemDocument 0
              listAttributeNames) as (Hiff & Hyes & _).
  destruct (bogusParagraphCreator_spec nestedOnlyItems 0
              listAttributeNames) as (Hiff' & _ & Hno).
  split; [| split].
  - apply Hyes, Hiff. by vm_compute.
  - apply Hyes, Hiff. by vm_compute.
  - apply Hno. intros Hcond%Hiff'. by vm_compute in Hcond.
Defined.

(** ** The upcast converters *)

Lemma cleanListChildren_filter (children : list ViewNode) :
  cleanListChildren children =
  List.filter keepsChild children.
Proof.
  induction children as [|child rest IH]; simpl; [done |].
  unfold keepsChild at 1.
  destruct (viewNodeIsListItem child), (viewNodeIsList child); simpl;
    by rewrite IH.
Qed.

(** C9, as stated, fails: when the name of the list element is no longer
    consumable the converter returns at once and the whitespace text node
    stays among the children. *)
Lemma cleanList_consumed_counterexample :
  listUpcastCleanList (λ _, false) ulWithWhitespace = ulWithWhitespace ∧
  viewNodeIsListItem (ViewText " ") = false ∧
  viewNodeIsList (ViewText " ") = false ∧
  ∃ rest, ulWithWhitespace = ViewElem viewUl (ViewText " " :: rest).
Proof. repeat split. by eexists. Qed.

(** C9, amended.  For every list view element whose name is still
    consumable, the converter removes each direct child that is neither a
    list item view nor a list view and leaves the other children in place,
    in their order; it is a total function, so malformed input is handled
    by deletion and never by an error. *)
Theorem listUpcastCleanList_spec (consumableTest : ViewNode → bool)
    (e : ViewElement) (children : list ViewNode) :
  consumableTest (ViewElem e children) = true →
  listUpcastCleanList consumableTest (ViewElem e children) =
    ViewElem e (List.filter keepsChild children) ∧
  ∀ child, child ∈ List.filter keepsChild children ↔
    child ∈ children ∧
    (viewNodeIsListItem child = true ∨ viewNodeIsList child = true).
Proof.
  intros Htest. split.
  - unfold listUpcastCleanList. rewrite Htest. simpl.
    by rewrite cleanListChildren_filter.
  - intros child. rewrite !list_elem_of_In, filter_In.
    unfold keepsChild. by rewrite orb_true_iff.
Qed.

Lemma listUpcastCleanList_spec_witness :
  listUpcastCleanList (λ _, true) ulWithWhitespace =
    ViewElem viewUl [ViewElem viewLi [ViewText "A"]].
Proof.
  exact (proj1 (listUpcastCleanList_spec (λ _, true) viewUl
                  [ViewText " "; ViewElem viewLi [ViewText "A"]] eq_refl)).
Defined.

Lemma ListItemUid_id_inj (j k : nat) :
  ListItemUid_id j = ListItemUid_id k → j = k.
Proof.
  unfold ListItemUid_id. intros H. injection H as H.
  by apply (inj pretty) in H.
Qed.

Lemma tagItems_lookup (a : ListAttributes) (items : list nat) (m : Document)
    (i : nat) :
  NoDup items →
  tagItems a items m !! i =
    if bool_decide (i ∈ items) then tagNode a <$> m !! i else m !! i.
Proof.
  revert m. induction items as [|item rest IH]; intros m Hnd; simpl.
  { done. }
  apply NoDup_cons in Hnd as [Hnotin Hnd].
  destruct (decide (i = item)) as [-> | Hne].
  - rewrite (bool_decide_eq_true_2 (item ∈ item :: rest)) by apply list_elem_of_here.
    destruct (m !! item) as [n|] eqn:Hn; simpl.
    + unfold tagNode. destruct (hasAttribute n "listItemId") eqn:Hhas; simpl.
      * rewrite IH by done. rewrite bool_decide_eq_false_2 by done. done.
      * rewrite IH by done. rewrite bool_decide_eq_false_2 by done.
        rewrite list_lookup_alter_eq, Hn. done.
    + rewrite IH by done. rewrite bool_decide_eq_false_2 by done.
      rewrite list_lookup_alter_eq, Hn. done.
  - assert (bool_decide (i ∈ item :: rest) = bool_decide (i ∈ rest)) as ->.
    { apply bool_decide_ext. rewrite elem_of_cons. intuition congruence. }
    destruct (negb _).
    + rewrite IH by done. by rewrite list_lookup_alter_ne.
    + by rewrite IH.
Qed.

Lemma tagItems_length (a : ListAttributes) (items : list nat) (m : Document) :
  length (tagItems a items m) = length m.
Proof.
  revert m. induction items as [|item rest IH]; intros m; simpl; [done |].
  destruct (negb _); rewrite IH; [apply length_alter | done].
Qed.

Lemma upcastItems_NoDup schemaCheck (m : Document) (range : nat * nat) :
  NoDup (upcastItems schemaCheck m range).
Proof. apply NoDup_filter, NoDup_seq. Qed.

(** The converter, once it has items to work on, in closed form. *)
Lemma listItemUpcastConverter_items schemaCheck (data : UpcastData)
    (st : UpcastState) (range : nat * nat) (first : nat) (others : list nat) :
  udModelRange data = Some range →
  upcastItems schemaCheck (usModel st) range = first :: others →
  let attributes :=
    mkListAttributes (ListItemUid_id (usUid st))
      (getIndent (udViewAncestors data))
      (upcastListType (udViewAncestors data)
         (attrAt (usModel st) first "listType")) in
  let m := tagItems attributes (first :: others) (usModel st) in
  listItemUpcastConverter schemaCheck data st =
    mkUpcastState m (S (usUid st))
      match others with
      | second :: _ =>
          if looseNotEqualId (attrAt m second "listItemId")
               (ListItemUid_id (usUid st))
          then usKeptEmpty st ++ [first]
          else usKeptEmpty st
      | [] => usKeptEmpty st
      end.
Proof.
  intros Hrange Hitems. unfold listItemUpcastConverter.
  rewrite Hrange. fold (upcastItems schemaCheck (usModel st) range).
  rewrite Hitems. cbn zeta. unfold ListItemUid_next.
  assert (∀ o, match o with
               | Some v =>
                   if truthy v then v
                   else if parentIsOl (udViewAncestors data)
                        then VStr "numbered" else VStr "bulleted"
               | None =>
                   if parentIsOl (udViewAncestors data)
                   then VStr "numbered" else VStr "bulleted"
               end = upcastListType (udViewAncestors data) o) as Hty by done.
  rewrite Hty. f_equal.
  destruct others as [|second rest]; simpl; [done |].
  done.
Qed.
Lemma looseNotEqualId_true (o : option value) (id : string) :
  looseNotEqualId o id = true ↔ o ≠ Some (VStr id).
Proof.
  unfold looseNotEqualId. destruct o as [[s|z|b]|]; try (split; [done | naive_solver]).
  rewrite negb_true_iff, bool_decide_eq_false. split; intros H; congruence.
Qed.

Lemma attrAt_tagItems (a : ListAttributes) (items : list nat) (m : Document)
    (i : nat) (n : Node) :
  NoDup items → i ∈ items → m !! i = Some n →
  attrAt (tagItems a items m) i "listItemId" =
    match getAttribute n "listItemId" with
    | Some v => Some v
    | None => Some (VStr (laListItemId a))
    end.
Proof.
  intros Hnd Hin Hn. unfold attrAt.
  rewrite tagItems_lookup, bool_decide_eq_true_2, Hn by done. simpl.
  unfold tagNode, hasAttribute, getAttribute.
  destruct (nodeAttrs n !! "listItemId") as [v|] eqn:Hv.
  - rewrite bool_decide_eq_true_2 by (by eexists). done.
  - rewrite bool_decide_eq_false_2 by (by intros [? ?]). simpl.
    rewrite !lookup_insert_ne by done. by rewrite lookup_insert_eq.
Qed.

Lemma upcastItems_lookup schemaCheck (m : Document) (range : nat * nat) (i : nat) :
  i ∈ upcastItems schemaCheck m range → is_Some (m !! i).
Proof.
  unfold upcastItems. rewrite list_elem_of_filter. intros [H _].
  destruct (m !! i); [by eexists | done].
Qed.
(** C4, as stated, fails: a first block that carries the empty [listType]
    does not have it used; the type named by the parent is assigned. *)
Lemma upcast_listType_counterexample :
  let st := mkUpcastState [untypedParagraph] 0 [] in
  let st' :=
    listItemUpcastConverter allowAll
      (mkUpcastData [viewOl] (Some (0, 1)%nat)) st in
  hasAttribute untypedParagraph "listType" = true ∧
  attrAt (usModel st) 0 "listType" = Some (VStr EmptyString) ∧
  attrAt (usModel st') 0 "listType" = Some (VStr "numbered").
Proof. vm_compute. done. Qed.

(** C4, amended.  When the range of a list item holds items on which the
    schema allows [listItemId], the converter draws one fresh identity from
    the generator (different from every identity the generator gives at
    another count) and sets it, together with a [listIndent] equal to the
    nesting depth of the view item and one [listType], on exactly those of
    these items that carry no [listItemId]; every other node is left as it
    was.  The [listType] is the one of the first item when that value is
    truthy (a non-empty string), and otherwise [numbered] under an [ol]
    parent and [bulleted] under any other parent. *)
Theorem listItemUpcastConverter_attributes schemaCheck (data : UpcastData)
    (st : UpcastState) (range : nat * nat) (first : nat) (others : list nat) :
  udModelRange data = Some range →
  upcastItems schemaCheck (usModel st) range = first :: others →
  let listItemId := ListItemUid_id (usUid st) in
  let firstItemListType := attrAt (usModel st) first "listType" in
  let attributes :=
    mkListAttributes listItemId (getIndent (udViewAncestors data))
      (upcastListType (udViewAncestors data) firstItemListType) in
  let st' := listItemUpcastConverter schemaCheck data st in
  usUid st' = S (usUid st) ∧
  (∀ k, k ≠ usUid st → ListItemUid_id k ≠ listItemId) ∧
  length (usModel st') = length (usModel st) ∧
  (∀ i n, usModel st !! i = Some n →
     usModel st' !! i =
       Some (if bool_decide (i ∈ first :: others)
                && negb (hasAttribute n "listItemId")
             then setListAttributes attributes n else n)) ∧
  (∀ v, firstItemListType = Some v → truthy v = true →
     laListType attributes = v) ∧
  (truthyOpt firstItemListType = false →
     laListType attributes =
       if parentIsOl (udViewAncestors data) then VStr "numbered"
       else VStr "bulleted").
Proof.
  intros Hrange Hitems listItemId firstItemListType attributes st'.
  subst st'. rewrite (listItemUpcastConverter_items _ _ _ _ _ _ Hrange Hitems).
  fold listItemId firstItemListType attributes.
  cbn [usUid usModel usKeptEmpty].
  split; [done |]. split.
  { intros k Hk Heq. by apply ListItemUid_id_inj in Heq. }
  split; [apply tagItems_length |]. split.
  - intros i n Hn. rewrite tagItems_lookup, Hn.
    2: { rewrite <- Hitems. apply upcastItems_NoDup. }
    unfold tagNode. simpl.
    destruct (bool_decide (i ∈ first :: others)); simpl; [| done].
    by destruct (hasAttribute n "listItemId").
  - split.
    + intros v Hv Ht. subst attributes firstItemListType.
      cbn [laListType]. unfold upcastListType. by rewrite Hv, Ht.
    + subst attributes firstItemListType. cbn [laListType].
      unfold upcastListType, truthyOpt.
      destruct (attrAt (usModel st) first "listType") as [v|]; [| done].
      by intros ->.
Qed.

Lemma listItemUpcastConverter_attributes_witness :
  let st := mkUpcastState [plainParagraph; plainParagraph] 7 [] in
  let st' :=
    listItemUpcastConverter allowAll
      (mkUpcastData [viewOl; viewLi; viewUl] (Some (0, 2)%nat)) st in
  usModel st' =
    [mkNode true "paragraph"
       (<["listType" := VStr "numbered"]>
          (<["listIndent" := VNum 1]>
             (<["listItemId" := VStr (ListItemUid_id 7)]> ∅)));
     mkNode true "paragraph"
       (<["listType" := VStr "numbered"]>
          (<["listIndent" := VNum 1]>
             (<["listItemId" := VStr (ListItemUid_id 7)]> ∅)))].
Proof.
  intros st st'.
  pose proof (listItemUpcastConverter_attributes allowAll
                (mkUpcastData [viewOl; viewLi; viewUl] (Some (0, 2)%nat))
                st (0, 2)%nat 0%nat [1%nat] eq_refl eq_refl)
    as (_ & _ & Hlen & Hlook & _ & _).
  fold st' in Hlen, Hlook.
  apply list_eq. intros i.
  destruct i as [|[|i]].
  - by rewrite (Hlook 0%nat plainParagraph eq_refl).
  - by rewrite (Hlook 1%nat plainParagraph eq_refl).
  - transitivity (@None Node); [| done].
    apply lookup_ge_None_2. rewrite Hlen. simpl. lia.
Defined.
(** C7.  When the view of a list item converts to more than one block and,
    at the time of the check, the second block carries a [listItemId] that
    differs from the fresh one or carries none, the converter registers the
    first block with [keepEmptyElement]; when the second block shares the
    fresh identity nothing is registered, and neither is anything for an
    item of a single block.  In terms of the blocks the converter
    received: a second block that came with an identity of its own (it
    starts a nested list) has the first block kept, a second block that
    came with none receives the fresh identity and nothing is kept. *)
Theorem listItemUpcastConverter_keepEmptyElement schemaCheck
    (data : UpcastData) (st : UpcastState) (range : nat * nat)
    (first : nat) (others : list nat) :
  udModelRange data = Some range →
  upcastItems schemaCheck (usModel st) range = first :: others →
  let listItemId := ListItemUid_id (usUid st) in
  let st' := listItemUpcastConverter schemaCheck data st in
  (others = [] → usKeptEmpty st' = usKeptEmpty st) ∧
  (∀ second rest, others = second :: rest →
     (attrAt (usModel st') second "listItemId" ≠ Some (VStr listItemId) →
      usKeptEmpty st' = usKeptEmpty st ++ [first]) ∧
     (attrAt (usModel st') second "listItemId" = Some (VStr listItemId) →
      usKeptEmpty st' = usKeptEmpty st) ∧
     (∀ v, attrAt (usModel st) second "listItemId" = Some v →
        v ≠ VStr listItemId →
        usKeptEmpty st' = usKeptEmpty st ++ [first]) ∧
     (attrAt (usModel st) second "listItemId" = None →
      attrAt (usModel st') second "listItemId" = Some (VStr listItemId) ∧
      usKeptEmpty st' = usKeptEmpty st)).
Proof.
  intros Hrange Hitems listItemId st'. subst st'.
  rewrite (listItemUpcastConverter_items _ _ _ _ _ _ Hrange Hitems).
  fold listItemId. cbn [usUid usModel usKeptEmpty].
  split; [by intros -> |].
  intros second rest ->.
  set (attributes := mkListAttributes _ _ _).
  set (m := tagItems attributes (first :: second :: rest) (usModel st)).
  assert (NoDup (first :: second :: rest)) as Hnd.
  { rewrite <- Hitems. apply upcastItems_NoDup. }
  assert (second ∈ first :: second :: rest) as Hin
    by (right; left).
  destruct (upcastItems_lookup schemaCheck (usModel st) range second)
    as [n Hn]; [by rewrite Hitems |].
  assert (attrAt m second "listItemId" =
            match getAttribute n "listItemId" with
            | Some v => Some v
            | None => Some (VStr listItemId)
            end) as Hpost
    by (by apply attrAt_tagItems).
  assert (attrAt (usModel st) second "listItemId" =
            getAttribute n "listItemId") as Hpre
    by (unfold attrAt; by rewrite Hn).
  destruct (looseNotEqualId (attrAt m second "listItemId") listItemId)
    eqn:Hloose.
  - apply looseNotEqualId_true in Hloose.
    split; [done |]. split; [done |]. split; [done |].
    intros Hnone. rewrite Hpre in Hnone. rewrite Hnone in Hpost. done.
  - assert (attrAt m second "listItemId" = Some (VStr listItemId)) as Heq.
    { destruct (decide (attrAt m second "listItemId"
                        = Some (VStr listItemId))) as [|Hne]; [done |].
      apply looseNotEqualId_true in Hne. congruence. }
    split; [done |]. split; [done |]. split.
    + intros v Hv Hne. rewrite Hpre in Hv. rewrite Hv in Hpost. congruence.
    + done.
Qed.

Lemma listItemUpcastConverter_keepEmptyElement_witness :
  usKeptEmpty
    (listItemUpcastConverter allowAll
       (mkUpcastData [viewUl] (Some (0, 2)%nat))
       (mkUpcastState nestedOnlyItems 1 [])) = [0%nat] ∧
  usKeptEmpty
    (listItemUpcastConverter allowAll
       (mkUpcastData [viewUl] (Some (0, 2)%nat))
       (mkUpcastState twoBlockItems 1 [])) = [].
Proof.
  split.
  - refine (proj1 (proj2 (proj2
      (proj2 (listItemUpcastConverter_keepEmptyElement allowAll
                (mkUpcastData [viewUl] (Some (0, 2)%nat))
                (mkUpcastState nestedOnlyItems 1 [])
                (0, 2)%nat 0%nat [1%nat] eq_refl eq_refl)
         1%nat [] eq_refl))) (VStr (ListItemUid_id 0)) eq_refl _).
    vm_compute. discriminate.
  - exact (proj2 (proj2 (proj2 (proj2
      (proj2 (listItemUpcastConverter_keepEmptyElement allowAll
                (mkUpcastData [viewUl] (Some (0, 2)%nat))
                (mkUpcastState twoBlockItems 1 [])
                (0, 2)%nat 0%nat [1%nat] eq_refl eq_refl)
         1%nat [] eq_refl))) eq_refl)).
Defined.
(** ** The downcast converter *)

Lemma elem_of_consumerEvents (attributeNames : list string) (d : Document)
    (node : nat) (event : string) :
  event ∈ consumerEvents attributeNames d node ↔
  ∃ attributeName n,
    event = ("attribute:" ++ attributeName)%string ∧
    attributeName ∈ attributeNames ∧ d !! node = Some n ∧
    hasAttribute n attributeName = true.
Proof.
  unfold consumerEvents. rewrite list_elem_of_fmap. split.
  - intros (name & -> & Hin). apply list_elem_of_filter in Hin as [Hhas Hin].
    destruct (d !! node) as [n|]; [| done]. by exists name, n.
  - intros (name & n & -> & Hin & Hn & Hhas). exists name. split; [done |].
    apply list_elem_of_filter. by rewrite Hn.
Qed.

Lemma createAttributesConsumer_true (attributeNames : list string)
    (d : Document) (node : nat) (consumable : ModelConsumable) :
  (createAttributesConsumer attributeNames d node consumable).1 = true ↔
  allStillConsumable attributeNames d node consumable.
Proof.
  unfold createAttributesConsumer, allStillConsumable.
  destruct (forallb _ _) eqn:Hall; simpl.
  - split; [| done]. intros _ name n Hin Hn Hhas.
    rewrite forallb_forall in Hall.
    specialize (Hall ("attribute:" ++ name)%string).
    rewrite negb_true_iff, bool_decide_eq_false in Hall. apply Hall.
    apply list_elem_of_In, elem_of_consumerEvents. by exists name, n.
  - split; [done |]. intros H. exfalso.
    assert (forallb
              (λ event, negb (bool_decide
                 (consumableTest consumable node event = Some false)))
              (consumerEvents attributeNames d node) = true) as Ht;
      [| congruence].
    apply forallb_forall. intros event Hev.
    apply list_elem_of_In, elem_of_consumerEvents in Hev
      as (name & n & -> & Hin & Hn & Hhas).
    rewrite negb_true_iff, bool_decide_eq_false. by apply (H name n).
Qed.

Lemma createAttributesConsumer_false (attributeNames : list string)
    (d : Document) (node : nat) (consumable : ModelConsumable) :
  (createAttributesConsumer attributeNames d node consumable).1 = false →
  (createAttributesConsumer attributeNames d node consumable).2 = consumable.
Proof.
  unfold createAttributesConsumer. by destruct (forallb _ _).
Qed.

Lemma failsConsumableTest_not_all (attributeNames : list string)
    (d : Document) (node : nat) (consumable : ModelConsumable) :
  failsConsumableTest attributeNames d node consumable →
  (createAttributesConsumer attributeNames d node consumable).1 = false.
Proof.
  intros (name & n & Hin & Hn & Hhas & Htest).
  destruct (createAttributesConsumer attributeNames d node consumable).1
    eqn:Hc; [| done].
  apply createAttributesConsumer_true in Hc. by destruct (Hc name n).
Qed.

(** C10.  The converter leaves the view and the consumable as they are
    when the attribute that triggers it is not a list attribute, and when
    a list attribute set on the block fails the consumable test; whenever
    it changes the consumable, the triggering attribute is a list
    attribute and every list attribute set on the block passed the test. *)
Theorem listItemDowncastConverter_frame (attributeNames : list string)
    (strategies : list DowncastStrategy) (d : Document) (dataPipeline : bool)
    (listItem : nat) (attributeKey : string) (st : DowncastState) :
  (attributeKey ∉ attributeNames →
   listItemDowncastConverter attributeNames strategies d dataPipeline
     listItem attributeKey st = Some st) ∧
  (failsConsumableTest attributeNames d listItem (dsConsumable st) →
   listItemDowncastConverter attributeNames strategies d dataPipeline
     listItem attributeKey st = Some st) ∧
  (∀ st',
     listItemDowncastConverter attributeNames strategies d dataPipeline
       listItem attributeKey st = Some st' →
     dsConsumable st' ≠ dsConsumable st →
     attributeKey ∈ attributeNames ∧
     allStillConsumable attributeNames d listItem (dsConsumable st)).
Proof.
  unfold listItemDowncastConverter. split; [| split].
  - intros Hnot. unfold includes. by rewrite bool_decide_eq_false_2.
  - intros Hfail. apply failsConsumableTest_not_all in Hfail.
    destruct (negb (includes attributeNames attributeKey)); [done |].
    destruct (createAttributesConsumer _ _ _ _) as [consumed consumable].
    simpl in Hfail. by rewrite Hfail.
  - intros st' Hrun Hchanged.
    destruct (includes attributeNames attributeKey) eqn:Hinc; simpl in Hrun.
    2: { injection Hrun as <-. done. }
    apply includes_true in Hinc. split; [done |].
    apply createAttributesConsumer_true.
    destruct (createAttributesConsumer _ _ _ _) as [consumed consumable].
    destruct consumed; [done |]. simpl in Hrun. injection Hrun as <-. done.
Qed.
Lemma listItemDowncastConverter_frame_witness :
  listItemDowncastConverter listAttributeNames [] singleItemDocument false
    0 "alignment" (mkDowncastState singleItemView partlyConsumed)
    = Some (mkDowncastState singleItemView partlyConsumed) ∧
  listItemDowncastConverter listAttributeNames [] singleItemDocument false
    0 "listType" (mkDowncastState singleItemView partlyConsumed)
    = Some (mkDowncastState singleItemView partlyConsumed).
Proof.
  pose proof (listItemDowncastConverter_frame listAttributeNames []
                singleItemDocument false 0 "alignment"
                (mkDowncastState singleItemView partlyConsumed))
    as (Hkey & _ & _).
  pose proof (listItemDowncastConverter_frame listAttributeNames []
                singleItemDocument false 0 "listType"
                (mkDowncastState singleItemView partlyConsumed))
    as (_ & Hfail & _).
  split.
  - apply Hkey. unfold listAttributeNames. intros Hin.
    repeat (apply elem_of_cons in Hin as [Hin | Hin]; [discriminate |]).
    by apply not_elem_of_nil in Hin.
  - apply Hfail.
    exists "listItemId"%string, (listParagraph "a" 0 "bulleted").
    split; [by left |]. by vm_compute.
Defined.
Lemma applyStrategies_scoped (d : Document)
    (strategies : list DowncastStrategy) (block : nat)
    (listView itemView : ViewElement) :
  applyStrategies d strategies block (listView, itemView) =
    (withStrategyAttributes d strategies ScopeList block listView,
     withStrategyAttributes d strategies ScopeItem block itemView).
Proof.
  unfold withStrategyAttributes.
  revert listView itemView.
  induction strategies as [|strategy rest IH]; intros listView itemView;
    simpl; [done |].
  destruct strategy as [scope name set | name ce cw can]; [| apply IH].
  destruct (attrAt d block name) as [v|]; destruct scope; simpl; apply IH.
Qed.

Lemma wrapLoop_pairs (d : Document) (strategies : list DowncastStrategy)
    (indent : nat) (block : nat) (viewRange : list ViewNode) :
  wrapLoop d strategies indent block viewRange =
    wrappedInPairs d strategies indent (governingBlocks d indent block)
      viewRange.
Proof.
  revert block viewRange.
  induction indent as [|lower IH]; intros block viewRange.
  - simpl. by rewrite applyStrategies_scoped.
  - cbn [wrapLoop governingBlocks wrappedInPairs]. rewrite applyStrategies_scoped.
    cbn [fst snd wrap pred].
    destruct (ListWalker_first d block lowerIndentOptions) as [parent|].
    + apply IH.
    + done.
Qed.

Lemma governingBlocks_length (d : Document) (levels : nat) (block : nat) :
  (1 ≤ length (governingBlocks d levels block) ≤ S levels)%nat.
Proof.
  revert block. induction levels as [|lower IH]; intros block; simpl.
  - lia.
  - destruct (ListWalker_first d block lowerIndentOptions) as [parent|];
      simpl; [specialize (IH parent) |]; lia.
Qed.

Lemma governingBlocks_step (d : Document) (levels : nat) (block : nat)
    (k : nat) (g : nat) :
  governingBlocks d levels block !! k = Some g →
  (k < levels)%nat →
  governingBlocks d levels block !! S k =
    ListWalker_first d g lowerIndentOptions.
Proof.
  revert block k. induction levels as [|lower IH]; intros block k Hk Hlt;
    [lia |].
  simpl in *. destruct k as [|k].
  - injection Hk as ->.
    destruct (ListWalker_first d g lowerIndentOptions) as [parent|]; [| done].
    by destruct lower.
  - destruct (ListWalker_first d block lowerIndentOptions) as [parent|];
      [| done].
    apply IH; [done | lia].
Qed.
(** What the walker with [lowerIndent] yields first on the run of list
    blocks that ends at [i]: the nearest block of an indent below the
    reference, or nothing when the run holds no such block. *)
Lemma walkerLoop_lower_head (d : Document) (start : nat) (ref : Z) (i : nat) :
  match head (walkerLoop d lowerIndentOptions start ref (runBackFrom d i)) with
  | Some p =>
      (p ≤ i)%nat ∧ isListItemBlock d p = true ∧ indentAt d p < ref ∧
      ∀ t, (p < t ≤ i)%nat →
        isListItemBlock d t = true ∧ ref ≤ indentAt d t
  | None =>
      ∀ p, (p ≤ i)%nat →
        (∀ t, (p ≤ t ≤ i)%nat → isListItemBlock d t = true) →
        ref ≤ indentAt d p
  end.
Proof.
  induction i as [|i IH].
  - cbn [runBackFrom]. destruct (isListItemBlock d 0) eqn:Hli.
    + cbn [walkerLoop lowerIndentOptions woLowerIndent woSameIndent negb].
      destruct (Z.ltb_spec (indentAt d 0) ref) as [Hlt | Hge].
      * cbn [head]. split; [lia |]. split; [done |]. split; [done |].
        intros t Ht. lia.
      * assert (head (if ref <? indentAt d 0 then [] else [])
                = @None nat) as -> by (by destruct (ref <? indentAt d 0)).
        intros p Hp _. by replace p with 0%nat by lia.
    + cbn [walkerLoop head]. intros p Hp Hall.
      rewrite Hall in Hli by lia. done.
  - cbn [runBackFrom]. destruct (isListItemBlock d (S i)) eqn:Hli.
    + cbn [walkerLoop lowerIndentOptions woLowerIndent woSameIndent negb].
      destruct (Z.ltb_spec (indentAt d (S i)) ref) as [Hlt | Hge].
      * cbn [head]. split; [lia |]. split; [done |]. split; [done |].
        intros t Ht. lia.
      * assert (head (if ref <? indentAt d (S i)
                      then walkerLoop d lowerIndentOptions start ref
                             (runBackFrom d i)
                      else walkerLoop d lowerIndentOptions start ref
                             (runBackFrom d i))
                = head (walkerLoop d lowerIndentOptions start ref
                          (runBackFrom d i))) as ->
          by (by destruct (ref <? indentAt d (S i))).
        destruct (head _) as [p|].
        -- destruct IH as (Hle & Hp & Hlower & Hbetween).
           split; [lia |]. split; [done |]. split; [done |].
           intros t Ht. destruct (decide (t = S i)) as [-> | Hne]; [done |].
           apply Hbetween. lia.
        -- intros p Hp Hall.
           destruct (decide (p = S i)) as [-> | Hne]; [done |].
           apply IH; [lia |]. intros t Ht. apply Hall. lia.
    + cbn [walkerLoop head]. intros p Hp Hall.
      rewrite Hall in Hli by lia. done.
Qed.

(** [ListWalker.first] with [lowerIndent] is the nearest preceding block
    of a lower indent in the list of the block, if there is one. *)
Lemma ListWalker_first_lowerIndent (d : Document) (block : nat) :
  match ListWalker_first d block lowerIndentOptions with
  | Some p =>
      (p < block)%nat ∧ isListItemBlock d p = true ∧
      indentAt d p < indentAt d block ∧
      ∀ t, (p < t < block)%nat →
        isListItemBlock d t = true ∧ indentAt d block ≤ indentAt d t
  | None =>
      ∀ p, (p < block)%nat →
        (∀ t, (p ≤ t < block)%nat → isListItemBlock d t = true) →
        indentAt d block ≤ indentAt d p
  end.
Proof.
  unfold ListWalker_first, ListWalker.
  destruct block as [|i].
  { cbn. intros p Hp. lia. }
  change (walkerStartNode d lowerIndentOptions (S i)) with (Some i).
  change (woDirection lowerIndentOptions) with Backward.
  cbn [iterateSiblingListBlocks].
  pose proof (walkerLoop_lower_head d (S i) (indentAt d (S i)) i) as Hhead.
  destruct (head _) as [p|].
  - destruct Hhead as (Hle & Hp & Hlower & Hbetween).
    split; [lia |]. split; [done |]. split; [done |].
    intros t Ht. apply Hbetween. lia.
  - intros p Hp Hall. apply Hhead; [lia |]. intros t Ht. apply Hall. lia.
Qed.

(** C5.  A block of indent [n] is wrapped, together with what the range
    holds already (an inserted marker included), in one pair of an item
    wrapper inside a list wrapper per governing block: the pair of the
    block itself at level [n], then one pair per level below for the
    nearest preceding block of a lower indent (a list block before which
    only list blocks of an indent at least as high stand), each pair
    carrying the view attributes of the list-scoped and item-scoped
    strategies whose attribute is set on the governing block.  With a governing block at
    every level there are [n + 1] pairs, down to level 0; when at some
    level no preceding block of a lower indent exists, wrapping stops with
    the pair of that level and the outer levels stay unwrapped. *)
Theorem wrapListItemBlock_pairs (d : Document)
    (strategies : list DowncastStrategy) (listItem : nat) (node : Node)
    (n : nat) (viewRange : list ViewNode) :
  d !! listItem = Some node →
  getAttribute node "listIndent" = Some (VNum (Z.of_nat n)) →
  let governors := governingBlocks d n listItem in
  wrapListItemBlock d listItem viewRange strategies =
    wrappedInPairs d strategies n governors viewRange ∧
  governors !! 0%nat = Some listItem ∧
  (1 ≤ length governors ≤ S n)%nat ∧
  (∀ k g, governors !! k = Some g → (k < n)%nat →
     governors !! S k = ListWalker_first d g lowerIndentOptions) ∧
  (∀ k g p, governors !! k = Some g → governors !! S k = Some p →
     (p < g)%nat ∧ isListItemBlock d p = true ∧
     indentAt d p < indentAt d g ∧
     ∀ t, (p < t < g)%nat →
       isListItemBlock d t = true ∧ indentAt d g ≤ indentAt d t) ∧
  ((∀ k g, governors !! k = Some g → (k < n)%nat →
      is_Some (ListWalker_first d g lowerIndentOptions)) →
   length governors = S n) ∧
  (∀ k g, governors !! k = Some g → (k < n)%nat →
     ListWalker_first d g lowerIndentOptions = None →
     length governors = S k).
Proof.
  intros Hnode Hindent governors.
  assert (Hlen := governingBlocks_length d n listItem). fold governors in Hlen.
  split; [| split; [| split; [| split; [| split; [| split]]]]].
  - unfold wrapListItemBlock, hasAttribute, listIndentOf.
    unfold getAttribute in Hindent. rewrite Hnode.
    rewrite bool_decide_eq_true_2 by (by eexists). simpl.
    unfold getAttribute. rewrite Hindent.
    destruct (Z.ltb_spec (Z.of_nat n) 0) as [Hneg|_]; [lia |].
    rewrite Nat2Z.id. apply wrapLoop_pairs.
  - subst governors. by destruct n.
  - done.
  - intros k g Hk Hlt. by apply governingBlocks_step.
  - intros k g p Hk Hnext.
    assert (k < n)%nat as Hlt.
    { apply lookup_lt_Some in Hnext. lia. }
    subst governors. rewrite (governingBlocks_step _ _ _ _ _ Hk Hlt) in Hnext.
    pose proof (ListWalker_first_lowerIndent d g) as Hwalk.
    by rewrite Hnext in Hwalk.
  - intros Hcomplete.
    assert (∀ k, (k ≤ n)%nat → is_Some (governors !! k)) as Hall.
    { induction k as [|k IHk]; intros Hle.
      - subst governors. destruct n; by eexists.
      - destruct IHk as [g Hg]; [lia |].
        subst governors.
        rewrite (governingBlocks_step _ _ _ _ _ Hg) by lia.
        apply (Hcomplete k g); [done | lia]. }
    destruct (Hall n) as [g Hg]; [lia |].
    apply lookup_lt_Some in Hg. lia.
  - intros k g Hk Hlt Hnone.
    assert (governors !! S k = None) as Hnext.
    { subst governors.
      by rewrite (governingBlocks_step _ _ _ _ _ Hk) by lia. }
    apply lookup_lt_Some in Hk. apply lookup_ge_None in Hnext. lia.
Qed.

Lemma wrapListItemBlock_pairs_witness :
  wrapListItemBlock nestedDocument 2 [blockElement "C"] [] =
    [ViewElem (createListElement 0 (Some (VStr "bulleted")))
      [ViewElem (createListItemElement 0 (Some (VStr "a")))
        [ViewElem (createListElement 1 (Some (VStr "numbered")))
          [ViewElem (createListItemElement 1 (Some (VStr "b")))
            [ViewElem (createListElement 2 (Some (VStr "bulleted")))
              [ViewElem (createListItemElement 2 (Some (VStr "c")))
                [blockElement "C"]]]]]]] ∧
  wrapListItemBlock partialDocument 1 [blockElement "C"] [] =
    [ViewElem (createListElement 1 (Some (VStr "numbered")))
      [ViewElem (createListItemElement 1 (Some (VStr "b")))
        [ViewElem (createListElement 2 (Some (VStr "bulleted")))
          [ViewElem (createListItemElement 2 (Some (VStr "c")))
            [blockElement "C"]]]]].
Proof.
  split.
  - exact (proj1 (wrapListItemBlock_pairs nestedDocument [] 2
                    (listParagraph "c" 2 "bulleted") 2 [blockElement "C"]
                    eq_refl eq_refl)).
  - exact (proj1 (wrapListItemBlock_pairs partialDocument [] 1
                    (listParagraph "c" 2 "bulleted") 2 [blockElement "C"]
                    eq_refl eq_refl)).
Defined.
(** ** The sibling iterator and the list walker *)

Lemma runFrom_seq (i : nat) (l : list Node) :
  runFrom i l = seq i (length (runFrom i l)).
Proof.
  revert i. induction l as [|n rest IH]; intros i; simpl; [done |].
  destruct (isListItemNode n); simpl; [| done]. by rewrite <- IH.
Qed.

Lemma elem_of_runFrom (i : nat) (l : list Node) (e : nat) :
  e ∈ runFrom i l →
  (i ≤ e)%nat ∧ from_option isListItemNode false (l !! (e - i)%nat) = true.
Proof.
  revert i. induction l as [|n rest IH]; intros i; simpl.
  { intros H. by apply not_elem_of_nil in H. }
  destruct (isListItemNode n) eqn:Hn.
  2: { intros H. by apply not_elem_of_nil in H. }
  intros [-> | He]%elem_of_cons.
  - split; [lia |]. by rewrite Nat.sub_diag.
  - apply IH in He as [Hle Hli]. split; [lia |].
    replace (e - i)%nat with (S (e - S i)) by lia. done.
Qed.

Lemma iterateForward_isListItemBlock (d : Document) (start e : nat) :
  e ∈ iterateSiblingListBlocks d (Some start) Forward →
  (start ≤ e)%nat ∧ isListItemBlock d e = true.
Proof.
  simpl. intros [Hle Hli]%elem_of_runFrom. split; [done |].
  unfold isListItemBlock. rewrite lookup_drop in Hli.
  by replace (start + (e - start))%nat with e in Hli by lia.
Qed.

Lemma iterateForward_seq (d : Document) (start : nat) :
  iterateSiblingListBlocks d (Some start) Forward =
    seq start (length (iterateSiblingListBlocks d (Some start) Forward)).
Proof. simpl. apply runFrom_seq. Qed.

Lemma iterateForward_head (d : Document) (start : nat) :
  isListItemBlock d start = true →
  ∃ rest, iterateSiblingListBlocks d (Some start) Forward = start :: rest.
Proof.
  unfold isListItemBlock. simpl. intros Hli.
  destruct (d !! start) as [n|] eqn:Hn; [| done].
  rewrite (drop_S _ _ _ Hn). simpl in *. rewrite Hli. by eexists.
Qed.

Lemma walkerLoop_sublist (d : Document) (o : WalkerOptions) (start : nat)
    (ref : Z) (nodes : list nat) :
  walkerLoop d o start ref nodes `sublist_of` nodes.
Proof.
  revert ref. induction nodes as [|j rest IH]; intros ref; simpl; [done |].
  repeat case_match;
    first [ apply sublist_nil_l | by apply sublist_skip | by apply sublist_cons ].
Qed.

Lemma getListItemBlocks_forward_sublist (d : Document) (node : nat) :
  getListItemBlocks d node Forward `sublist_of`
    iterateSiblingListBlocks d (Some node) Forward.
Proof. apply walkerLoop_sublist. Qed.

Lemma getListItemBlocks_forward_NoDup (d : Document) (node : nat) :
  NoDup (getListItemBlocks d node Forward).
Proof.
  eapply sublist_NoDup; [| apply getListItemBlocks_forward_sublist].
  rewrite iterateForward_seq. apply NoDup_seq.
Qed.

Lemma getListItemBlocks_forward_isListItemBlock (d : Document)
    (node e : nat) :
  e ∈ getListItemBlocks d node Forward →
  (node ≤ e)%nat ∧ isListItemBlock d e = true.
Proof.
  intros He. apply iterateForward_isListItemBlock.
  eapply elem_of_sublist; [done | apply getListItemBlocks_forward_sublist].
Qed.

Lemma getListItemBlocks_forward_self (d : Document) (node : nat) :
  isListItemBlock d node = true →
  ∃ rest, getListItemBlocks d node Forward = node :: rest.
Proof.
  intros Hli. unfold getListItemBlocks, ListWalker. simpl.
  destruct (iterateForward_head d node Hli) as [rest Hrest].
  simpl in Hrest. rewrite Hrest. simpl.
  rewrite Z.ltb_irrefl. unfold differsOn.
  rewrite bool_decide_eq_true_2 by done. simpl. by eexists.
Qed.
Lemma differsOn_listItemId (d : Document) (start j : nat) :
  existsb (differsOn d start j) ["listItemId"%string] = false ↔
  sameItemId d start j.
Proof.
  simpl. unfold differsOn, sameItemId. rewrite orb_false_r, negb_false_iff.
  apply bool_decide_eq_true.
Qed.

(** The blocks the walker yields for the item of [start], over a run of
    consecutive nodes. *)
Lemma elem_of_walkerLoop_item (d : Document) (start : nat) (ref : Z)
    (a k j : nat) :
  j ∈ walkerLoop d (itemBlocksOptions Forward) start ref (seq a k) ↔
  (a ≤ j < a + k)%nat ∧ indentAt d j = ref ∧ sameItemId d start j ∧
  ∀ t, (a ≤ t < j)%nat →
    ref < indentAt d t ∨ (indentAt d t = ref ∧ sameItemId d start t).
Proof.
  revert a. induction k as [|k IH]; intros a.
  { simpl. split; [intros H; by apply not_elem_of_nil in H | lia]. }
  cbn [seq walkerLoop itemBlocksOptions woLowerIndent woSameIndent
       woSameAttributes negb].
  destruct (Z.ltb_spec (indentAt d a) ref) as [Hlt | Hge].
  { split; [intros H; by apply not_elem_of_nil in H |].
    intros (Hrange & Hind & Hid & Hall).
    destruct (decide (j = a)) as [-> | Hne]; [lia |].
    destruct (Hall a) as [? | [? _]]; lia. }
  destruct (Z.ltb_spec ref (indentAt d a)) as [Hgt | Hle].
  { rewrite IH. split.
    - intros (Hrange & Hind & Hid & Hall). split; [lia |].
      split; [done |]. split; [done |]. intros t Ht.
      destruct (decide (t = a)) as [-> | Hne]; [by left | apply Hall; lia].
    - intros (Hrange & Hind & Hid & Hall).
      destruct (decide (j = a)) as [-> | Hne]; [lia |].
      split; [lia |]. split; [done |]. split; [done |].
      intros t Ht. apply Hall. lia. }
  assert (indentAt d a = ref) as Heq by lia.
  destruct (existsb (differsOn d start a) ["listItemId"%string]) eqn:Hdiff.
  { split; [intros H; by apply not_elem_of_nil in H |].
    intros (Hrange & Hind & Hid & Hall).
    assert (sameItemId d start a) as Hsame.
    { destruct (decide (j = a)) as [-> | Hne]; [done |].
      destruct (Hall a) as [? | [_ ?]]; [lia | lia | done]. }
    apply differsOn_listItemId in Hsame. congruence. }
  apply differsOn_listItemId in Hdiff.
  rewrite elem_of_cons, IH. split.
  - intros [-> | (Hrange & Hind & Hid & Hall)].
    + split; [lia |]. split; [done |]. split; [done |]. intros t Ht. lia.
    + split; [lia |]. split; [done |]. split; [done |]. intros t Ht.
      destruct (decide (t = a)) as [-> | Hne]; [by right | apply Hall; lia].
  - intros (Hrange & Hind & Hid & Hall).
    destruct (decide (j = a)) as [-> | Hne]; [by left | right].
    split; [lia |]. split; [done |]. split; [done |].
    intros t Ht. apply Hall. lia.
Qed.

Lemma elem_of_getListItemBlocks_forward (d : Document) (node j : nat) :
  j ∈ getListItemBlocks d node Forward ↔
  (node ≤ j < node
     + length (iterateSiblingListBlocks d (Some node) Forward))%nat ∧
  indentAt d j = indentAt d node ∧ sameItemId d node j ∧
  ∀ t, (node ≤ t < j)%nat →
    indentAt d node < indentAt d t
    ∨ (indentAt d t = indentAt d node ∧ sameItemId d node t).
Proof.
  unfold getListItemBlocks, ListWalker.
  change (walkerStartNode d (itemBlocksOptions Forward) node)
    with (Some node).
  change (woDirection (itemBlocksOptions Forward)) with Forward.
  rewrite iterateForward_seq at 1.
  apply (elem_of_walkerLoop_item d node (indentAt d node)).
Qed.

(** A block of the item of [i] that an earlier node [m] reached already
    puts [i] itself among the blocks of [m]. *)
Lemma getListItemBlocks_forward_overlap (d : Document) (m i u : nat) :
  (m < i)%nat →
  u ∈ getListItemBlocks d m Forward →
  u ∈ getListItemBlocks d i Forward →
  i ∈ getListItemBlocks d m Forward.
Proof.
  intros Hmi Hm Hi.
  apply elem_of_getListItemBlocks_forward in Hm
    as (Hrange & Hind & Hid & Hall).
  apply elem_of_getListItemBlocks_forward in Hi as (Hrange' & Hind' & _).
  apply elem_of_getListItemBlocks_forward.
  destruct (decide (i = u)) as [-> | Hne]; [done |].
  destruct (Hall i) as [Hlt | [Heq Hsame]]; [lia | lia |].
  split; [lia |]. split; [done |]. split; [done |].
  intros t Ht. apply Hall. lia.
Qed.
(** ** The reconversion scheduler *)

Lemma setOfArray_foldl (acc l : list nat) :
  NoDup acc →
  let r := foldl (λ acc x, if bool_decide (x ∈ acc) then acc else acc ++ [x])
             acc l in
  NoDup r ∧ ∀ x, x ∈ r ↔ x ∈ acc ∨ x ∈ l.
Proof.
  revert acc. induction l as [|y l IH]; intros acc Hnd; simpl.
  { split; [done |]. intros x. rewrite elem_of_nil. tauto. }
  destruct (bool_decide (y ∈ acc)) eqn:Hy.
  - apply bool_decide_eq_true in Hy. destruct (IH acc Hnd) as [Hnd' Hel].
    split; [done |]. intros x. rewrite Hel, elem_of_cons.
    split; [tauto |]. intros [? | [-> | ?]]; tauto.
  - apply bool_decide_eq_false in Hy.
    destruct (IH (acc ++ [y])) as [Hnd' Hel].
    { apply NoDup_app. split; [done |]. split; [| apply NoDup_singleton].
      intros x Hx ->%list_elem_of_singleton. done. }
    split; [done |]. intros x.
    rewrite Hel, elem_of_app, list_elem_of_singleton, elem_of_cons. tauto.
Qed.

Lemma setOfArray_NoDup (l : list nat) : NoDup (setOfArray l).
Proof. apply (setOfArray_foldl [] l), NoDup_nil_2. Qed.

Lemma elem_of_setOfArray (l : list nat) (x : nat) :
  x ∈ setOfArray l ↔ x ∈ l.
Proof.
  destruct (setOfArray_foldl [] l (NoDup_nil_2)) as [_ Hel].
  unfold setOfArray. rewrite Hel, elem_of_nil. tauto.
Qed.

Section SchedulerFacts.

Variable d : Document.
Variable attributeNames : list string.
Variable toViewElement : nat → option MappedView.
Variable fireCheckElement : nat → ViewElement → bool.
Variable fireCheckAttributes :
  AttributesEvent → ViewElement → option (gmap string value) → bool.

Local Abbreviation blockCheck :=
  (doesItemBlockRequiresRefresh d attributeNames toViewElement
     fireCheckElement).
Local Abbreviation wrappingCheck :=
  (doesItemWrappingRequiresRefresh toViewElement fireCheckAttributes).
Local Abbreviation reason :=
  (refreshReason d attributeNames toViewElement fireCheckElement
     fireCheckAttributes).
Local Abbreviation blocksLoop' :=
  (blocksLoop d attributeNames toViewElement fireCheckElement
     fireCheckAttributes).
Local Abbreviation siblingsLoop' :=
  (siblingsLoop d attributeNames toViewElement fireCheckElement
     fireCheckAttributes).
Local Abbreviation collect :=
  (collectListItemsToRefresh d attributeNames toViewElement
     fireCheckElement fireCheckAttributes).
Local Abbreviation invariant := (walkInvariant d).

Lemma wrappingCheck_changed (item : nat) (stack : Stack)
    (changedItems : gset nat) :
  item ∈ changedItems → wrappingCheck item stack changedItems = Some false.
Proof.
  intros Hin. unfold doesItemWrappingRequiresRefresh.
  by rewrite bool_decide_eq_true_2.
Qed.

Lemma wrappingCheck_true_unchanged (item : nat) (stack : Stack)
    (changedItems : gset nat) :
  wrappingCheck item stack changedItems = Some true → item ∉ changedItems.
Proof.
  intros Hcheck Hin. by rewrite wrappingCheck_changed in Hcheck.
Qed.

(** What one run of the loop over the blocks of an item does. *)
Lemma blocksLoop_spec (changedItems : gset nat) (blocks rest : list nat)
    (st st' : CollectState) :
  blocksLoop' changedItems blocks rest st = Some st' →
  csTrace st' = csTrace st ++ rest ∧
  csVisited st' = list_to_set rest ∪ csVisited st ∧
  csStack st' = csStack st ∧
  ∃ added,
    csItemsToRefresh st' = csItemsToRefresh st ++ added ∧
    added `sublist_of` rest ∧
    ∀ b, b ∈ added → reason changedItems b.
Proof.
  revert st. induction rest as [|block rest IH]; intros st Hrun.
  { simpl in Hrun. injection Hrun as <-. rewrite app_nil_r.
    split; [done |]. split; [set_solver |]. split; [done |].
    exists []. rewrite app_nil_r. split; [done |]. split; [done |].
    intros b Hb. by apply not_elem_of_nil in Hb. }
  cbn [blocksLoop] in Hrun.
  destruct (blockCheck block (Some blocks)) eqn:Hblock.
  - apply IH in Hrun as (Htrace & Hvisited & Hstack & added & Hitems
                         & Hsub & Hreason).
    cbn [csTrace csVisited csStack csItemsToRefresh] in *.
    split; [by rewrite Htrace, <- app_assoc |].
    split; [rewrite Hvisited; set_solver |]. split; [done |].
    exists (block :: added). split; [by rewrite Hitems, <- app_assoc |].
    split; [by apply sublist_skip |].
    intros b [-> | Hb]%elem_of_cons; [| by apply Hreason].
    left. by exists (Some blocks).
  - destruct (wrappingCheck block (csStack st) changedItems)
      as [needsRefresh|] eqn:Hwrap; [| done].
    cbn [mbind option_bind] in Hrun.
    apply IH in Hrun as (Htrace & Hvisited & Hstack & added & Hitems
                         & Hsub & Hreason).
    cbn [csTrace csVisited csStack csItemsToRefresh] in *.
    split; [by rewrite Htrace, <- app_assoc |].
    split; [rewrite Hvisited; set_solver |]. split; [done |].
    destruct needsRefresh.
    + exists (block :: added). split; [by rewrite Hitems, <- app_assoc |].
      split; [by apply sublist_skip |].
      intros b [-> | Hb]%elem_of_cons; [| by apply Hreason].
      right. split; [by eapply wrappingCheck_true_unchanged |].
      by exists (csStack st).
    + exists added. split; [done |]. split; [by apply sublist_cons |]. done.
Qed.

Lemma walkInvariant_mono (bound bound' : nat) (st : CollectState) :
  (bound ≤ bound')%nat → invariant bound st → invariant bound' st.
Proof.
  intros Hle (Hnd & Htrace & Hli & Hwit).
  split; [done |]. split; [done |]. split; [done |].
  intros v Hv. destruct (Hwit v Hv) as (m & Hm & Hvm & Hsub).
  exists m. split; [lia | done].
Qed.

(** Handling the blocks of a node that was not visited keeps the
    invariant: none of them was visited. *)
Lemma walkInvariant_blocks (node : nat) (st st' : CollectState) :
  isListItemBlock d node = true →
  invariant node st →
  node ∉ csVisited st →
  csTrace st' = csTrace st ++ getListItemBlocks d node Forward →
  csVisited st' =
    list_to_set (getListItemBlocks d node Forward) ∪ csVisited st →
  invariant (S node) st'.
Proof.
  intros Hnode (Hnd & Htrace & Hli & Hwit) Hnew Htrace' Hvisited'.
  unfold walkInvariant. rewrite Htrace', Hvisited'.
  split; [| split; [| split]].
  - apply NoDup_app. split; [done |].
    split; [| apply getListItemBlocks_forward_NoDup].
    intros x Hx Hblock. apply Htrace in Hx.
    destruct (Hwit x Hx) as (m & Hm & Hxm & Hsub).
    apply Hnew, Hsub.
    by apply (getListItemBlocks_forward_overlap d m node x).
  - intros b. rewrite elem_of_app, elem_of_union, elem_of_list_to_set.
    rewrite Htrace. tauto.
  - intros b [Hb | Hb]%elem_of_union; [| by apply Hli].
    apply elem_of_list_to_set in Hb.
    by apply getListItemBlocks_forward_isListItemBlock in Hb as [_ ?].
  - intros v [Hv | Hv]%elem_of_union.
    + apply elem_of_list_to_set in Hv. exists node.
      split; [lia |]. split; [done |]. intros u Hu.
      apply elem_of_union. left. by apply elem_of_list_to_set.
    + destruct (Hwit v Hv) as (m & Hm & Hvm & Hsub).
      exists m. split; [lia |]. split; [done |]. intros u Hu.
      apply elem_of_union. right. by apply Hsub.
Qed.

(** What the loop over the nodes of the iterator does, over a run of
    consecutive list blocks. *)
Lemma siblingsLoop_spec (changedItems : gset nat) (k a : nat)
    (previous : option nat) (st st' : CollectState) :
  (∀ j, (a ≤ j < a + k)%nat → isListItemBlock d j = true) →
  invariant a st →
  siblingsLoop' changedItems previous (seq a k) st = Some st' →
  invariant (a + k) st' ∧
  csTrace st `prefix_of` csTrace st' ∧
  (∀ j, (a ≤ j < a + k)%nat → j ∈ csVisited st') ∧
  ∃ added,
    csItemsToRefresh st' = csItemsToRefresh st ++ added ∧
    ∀ b, b ∈ added → reason changedItems b ∧ b ∈ csTrace st'.
Proof.
  revert a previous st.
  induction k as [|k IH]; intros a previous st Hrun Hinv Hloop.
  { simpl in Hloop. injection Hloop as <-. rewrite Nat.add_0_r.
    split; [done |]. split; [done |]. split; [lia |].
    exists []. rewrite app_nil_r. split; [done |].
    intros b Hb. by apply not_elem_of_nil in Hb. }
  cbn [seq siblingsLoop] in Hloop.
  assert (isListItemBlock d a = true) as Ha by (apply Hrun; lia).
  assert (∀ j, (S a ≤ j < S a + k)%nat → isListItemBlock d j = true)
    as Hrun' by (intros j Hj; apply Hrun; lia).
  replace (a + S k)%nat with (S a + k)%nat by lia.
  destruct (bool_decide (a ∈ csVisited st)) eqn:Hvisited.
  - apply bool_decide_eq_true in Hvisited.
    apply IH in Hloop as (Hinv' & Hprefix & Hall & added & Hitems & Hadded);
      [| done | by apply (walkInvariant_mono a); [lia |]].
    split; [done |]. split; [done |]. split; [| by exists added].
    intros j Hj. destruct (decide (j = a)) as [-> | Hne]; [| apply Hall; lia].
    destruct Hinv as (_ & Htrace & _). destruct Hinv' as (_ & Htrace' & _).
    apply Htrace'. eapply elem_of_prefix; [| done]. by apply Htrace.
  - apply bool_decide_eq_false in Hvisited.
    match type of Hloop with
    | (?trimmed ≫= _) = _ => destruct trimmed as [stack|]; [| done]
    end.
    cbn [mbind option_bind] in Hloop.
    match type of Hloop with
    | context [blocksLoop' _ _ _ ?s] => set (st1 := s) in Hloop
    end.
    destruct (blocksLoop' changedItems (getListItemBlocks d a Forward)
                (getListItemBlocks d a Forward) st1) as [st2|] eqn:Hblocks;
      [| done].
    cbn [mbind option_bind] in Hloop.
    apply blocksLoop_spec in Hblocks
      as (Htrace2 & Hvisited2 & _ & added1 & Hitems2 & Hsub1 & Hreason1).
    subst st1. cbn [csTrace csVisited csItemsToRefresh] in *.
    assert (invariant (S a) st2) as Hinv2
      by (by apply (walkInvariant_blocks a st st2)).
    apply IH in Hloop
      as (Hinv' & Hprefix & Hall & added & Hitems & Hadded); [| done..].
    assert (csTrace st2 `prefix_of` csTrace st') as Hprefix2 by done.
    split; [done |]. split.
    { etrans; [| done]. rewrite Htrace2. by apply prefix_app_r. }
    split.
    { intros j Hj.
      destruct (decide (j = a)) as [-> | Hne]; [| apply Hall; lia].
      destruct Hinv2 as (_ & Htr2 & _). destruct Hinv' as (_ & Htr' & _).
      apply Htr'. eapply elem_of_prefix; [| done]. apply Htr2.
      rewrite Hvisited2. apply elem_of_union. left.
      apply elem_of_list_to_set.
      destruct (getListItemBlocks_forward_self d a Ha) as [rest ->].
      apply list_elem_of_here. }
    exists (added1 ++ added).
    split; [by rewrite Hitems, Hitems2, <- app_assoc |].
    intros b [Hb | Hb]%elem_of_app; [| by apply Hadded].
    split; [by apply Hreason1 |].
    eapply elem_of_prefix; [| done]. rewrite Htrace2.
    apply elem_of_app. right. by eapply elem_of_sublist.
Qed.

Local Abbreviation headsLoop' :=
  (headsLoop d attributeNames toViewElement fireCheckElement
     fireCheckAttributes).
Local Abbreviation scanEntry' :=
  (scanEntry d attributeNames toViewElement fireCheckElement).
Local Abbreviation scanChanges' :=
  (scanChanges d attributeNames toViewElement fireCheckElement).
Local Abbreviation reconvert :=
  (reconvertItemsOnDataChange d attributeNames toViewElement
     fireCheckElement fireCheckAttributes).

(** One walk: its trace has no duplicates and holds list blocks only,
    among them the head, and every item it pushes has a reason. *)
Lemma collectListItemsToRefresh_spec (listHead : nat)
    (changedItems : gset nat) (items trace : list nat) :
  collect listHead changedItems = Some (items, trace) →
  NoDup trace ∧
  (∀ b, b ∈ trace → isListItemBlock d b = true) ∧
  (isListItemBlock d listHead = true → listHead ∈ trace) ∧
  ∀ b, b ∈ items → reason changedItems b ∧ b ∈ trace.
Proof.
  unfold collectListItemsToRefresh. intros Hrun.
  destruct (siblingsLoop' _ _ _ _) as [st|] eqn:Hloop; [| done].
  cbn [mbind option_bind] in Hrun. injection Hrun as <- <-.
  rewrite iterateForward_seq in Hloop.
  set (k := length (iterateSiblingListBlocks d (Some listHead) Forward))
    in Hloop.
  apply siblingsLoop_spec in Hloop
    as (Hinv & _ & Hall & added & Hitems & Hadded).
  - destruct Hinv as (Hnd & Htrace & Hli & _).
    split; [done |]. split; [intros b Hb; by apply Hli, Htrace |].
    split.
    + intros Hhead. apply Htrace, Hall.
      destruct (iterateForward_head d listHead Hhead) as [rest Hrest].
      subst k. rewrite Hrest. simpl. lia.
    + simpl in Hitems. subst added. done.
  - intros j Hj. apply (iterateForward_isListItemBlock d listHead).
    rewrite iterateForward_seq. fold k. apply elem_of_seq. lia.
  - split; [apply NoDup_nil_2 |]. simpl.
    split; [intros b; rewrite elem_of_nil; set_solver |].
    split; intros b Hb; set_solver.
Qed.

(** The walks from the recorded list heads. *)
Lemma headsLoop_spec (changedItems : gset nat) (heads : list nat)
    (items trace items' trace' : list nat) :
  headsLoop' changedItems heads items trace = Some (items', trace') →
  ∃ added walks,
    items' = items ++ added ∧ trace' = trace ++ concat walks ∧
    Forall2 (λ listHead walk,
               ∃ pushed, collect listHead changedItems
                         = Some (pushed, walk)) heads walks ∧
    ∀ b, b ∈ added → reason changedItems b ∧ b ∈ concat walks.
Proof.
  revert items trace.
  induction heads as [|listHead rest IH]; intros items trace Hrun.
  { simpl in Hrun. injection Hrun as <- <-. exists [], [].
    rewrite !app_nil_r. split; [done |]. split; [done |].
    split; [constructor |]. intros b Hb. by apply not_elem_of_nil in Hb. }
  cbn [headsLoop] in Hrun.
  destruct (collect listHead changedItems) as [[pushed walk]|] eqn:Hwalk;
    [| done].
  cbn [mbind option_bind fst snd] in Hrun.
  apply IH in Hrun as (added & walks & -> & -> & Hwalks & Hadded).
  apply collectListItemsToRefresh_spec in Hwalk as Hspec.
  destruct Hspec as (_ & _ & _ & Hpushed).
  exists (pushed ++ added), (walk :: walks).
  split; [by rewrite app_assoc |]. split; [by rewrite <- app_assoc |].
  split; [constructor; [by exists pushed | done] |].
  simpl. intros b [Hb | Hb]%elem_of_app.
  - destruct (Hpushed b Hb). split; [done |]. apply elem_of_app. by left.
  - destruct (Hadded b Hb). split; [done |]. apply elem_of_app. by right.
Qed.

Lemma scanEntry_spec (st : ScanState) (entry : DiffItem) :
  ssChangedItems st ⊆ ssChangedItems (scanEntry' st entry) ∧
  ∃ added,
    ssItemsToRefresh (scanEntry' st entry) = ssItemsToRefresh st ++ added ∧
    ∀ b, b ∈ added → blockCheck b None = true.
Proof.
  assert (∃ added : list nat,
            ssItemsToRefresh st = ssItemsToRefresh st ++ added ∧
            ∀ b, b ∈ added → blockCheck b None = true) as Hnone.
  { exists []. rewrite app_nil_r. split; [done |].
    intros b Hb. by apply not_elem_of_nil in Hb. }
  destruct entry as [name attrs position len | name attrs position len
                    | rangeStart key old new]; simpl.
  - destruct (negb (bool_decide (name = "$text"%string))); [| done].
    destruct (negb (bool_decide (is_Some (attrs !! "listItemId"%string))));
      simpl; split; [done | done | set_solver | done].
  - destruct (bool_decide (is_Some (attrs !! "listItemId"%string)));
      simpl; done.
  - destruct (includes attributeNames key).
    + destruct new as [v|]; simpl; [split; [set_solver | done] |].
      destruct (blockCheck rangeStart None) eqn:Hcheck; simpl;
        [| done].
      split; [done |]. exists [rangeStart]. split; [done |].
      by intros b ->%list_elem_of_singleton.
    + destruct (isListItemBlock d rangeStart); [| done].
      destruct (blockCheck rangeStart None) eqn:Hcheck; simpl; [| done].
      split; [done |]. exists [rangeStart]. split; [done |].
      by intros b ->%list_elem_of_singleton.
Qed.

Lemma scanChanges_from (changes : list DiffItem) (st : ScanState) :
  let st' := foldl scanEntry' st changes in
  ssChangedItems st ⊆ ssChangedItems st' ∧
  ∃ added,
    ssItemsToRefresh st' = ssItemsToRefresh st ++ added ∧
    ∀ b, b ∈ added → blockCheck b None = true.
Proof.
  revert st. induction changes as [|entry rest IH]; intros st; simpl.
  { split; [done |]. exists []. rewrite app_nil_r. split; [done |].
    intros b Hb. by apply not_elem_of_nil in Hb. }
  destruct (scanEntry_spec st entry) as (Hsub & added & Hitems & Hadded).
  destruct (IH (scanEntry' st entry)) as (Hsub' & added' & Hitems' & Hadded').
  split; [set_solver |]. exists (added ++ added').
  split; [by rewrite Hitems', Hitems, <- app_assoc |].
  intros b [Hb | Hb]%elem_of_app; auto.
Qed.

Lemma scanChanges_changed (changes : list DiffItem) (st : ScanState)
    (rangeStart : nat) (key : string) (old : option value) (v : value) :
  DiffAttribute rangeStart key old (Some v) ∈ changes →
  key ∈ attributeNames →
  rangeStart ∈ ssChangedItems (foldl scanEntry' st changes).
Proof.
  revert st. induction changes as [|entry rest IH]; intros st Hin Hkey.
  { by apply not_elem_of_nil in Hin. }
  simpl. apply elem_of_cons in Hin as [<- | Hin]; [| by apply IH].
  destruct (scanChanges_from rest
              (scanEntry' st (DiffAttribute rangeStart key old (Some v))))
    as [Hsub _].
  apply Hsub. simpl.
  apply includes_true in Hkey. rewrite Hkey. simpl. set_solver.
Qed.

Lemma scanChanges_items (changes : list DiffItem) (b : nat) :
  b ∈ ssItemsToRefresh (scanChanges' changes) → blockCheck b None = true.
Proof.
  unfold scanChanges.
  destruct (scanChanges_from changes (mkScanState [] [] ∅))
    as (_ & added & Hitems & Hadded).
  rewrite Hitems. simpl. apply Hadded.
Qed.

(** *** The scheduler returns when the view is complete *)

Lemma wrappingLoop_total (stack : Stack) (indent : Z)
    (ancestors : list ViewElement) :
  (∃ e, e ∈ ancestors ∧ viewIsKind e EditableElement = true) →
  is_Some (wrappingLoop fireCheckAttributes stack indent ancestors).
Proof.
  revert indent.
  induction ancestors as [|element rest IH]; intros indent (e & He & Hkind).
  { by apply not_elem_of_nil in He. }
  cbn [wrappingLoop].
  destruct (viewIsKind element EditableElement) eqn:Hel; [by eexists |].
  assert (∃ e, e ∈ rest ∧ viewIsKind e EditableElement = true) as Hrest.
  { apply elem_of_cons in He as [-> | He]; [congruence | by exists e]. }
  destruct (negb (isListView element) && negb (isListItemView element));
    [by apply IH |].
  destruct (fireCheckAttributes _ _ _); [by eexists |].
  destruct (isListView element); [| by apply IH].
  destruct (indent - 1 <? 0); [by eexists | by apply IH].
Qed.

Local Abbreviation complete := (viewComplete d toViewElement).
Local Abbreviation valid := (validIndents d).

Lemma wrappingCheck_total (item : nat) (stack : Stack)
    (changedItems : gset nat) :
  complete → isListItemBlock d item = true →
  is_Some (wrappingCheck item stack changedItems).
Proof.
  intros Hview Hitem. unfold doesItemWrappingRequiresRefresh.
  destruct (bool_decide (item ∈ changedItems)); [by eexists |].
  destruct (Hview item Hitem) as (mapped & -> & Heditable).
  by apply wrappingLoop_total.
Qed.

Lemma blocksLoop_total (changedItems : gset nat) (blocks rest : list nat)
    (st : CollectState) :
  complete → (∀ b, b ∈ rest → isListItemBlock d b = true) →
  is_Some (blocksLoop' changedItems blocks rest st).
Proof.
  intros Hview. revert st.
  induction rest as [|block rest IH]; intros st Hrest; [by eexists |].
  cbn [blocksLoop].
  assert (∀ b, b ∈ rest → isListItemBlock d b = true) as Hrest'
    by (intros b Hb; apply Hrest; by right).
  destruct (blockCheck block (Some blocks)); [by apply IH |].
  destruct (wrappingCheck_total block (csStack st) changedItems Hview)
    as [needsRefresh ->]; [apply Hrest; by left |].
  cbn [mbind option_bind]. by apply IH.
Qed.

Lemma validIndents_index (node : nat) :
  valid → isListItemBlock d node = true →
  isArrayIndex (indentAt d node) = true.
Proof.
  unfold isListItemBlock, indentAt, listIndentOf. intros Hvalid Hblock.
  destruct (d !! node) as [n|] eqn:Hn; [| done].
  pose proof (Forall_lookup_1 _ _ _ _ Hvalid Hn) as Hindent.
  unfold hasValidIndent in Hindent. cbn [from_option] in Hblock |- *.
  rewrite Hblock in Hindent. cbn [negb orb] in Hindent.
  by destruct (getAttribute n "listIndent") as [[| |indent]|].
Qed.

Lemma stackSetLength_valid (indent : Z) (stack : Stack) :
  isArrayIndex indent = true → is_Some (stackSetLength (indent + 1) stack).
Proof.
  unfold isArrayIndex, stackSetLength. intros [Hlow Hhigh]%andb_prop.
  destruct (Z.ltb_spec (indent + 1) 0); [lia |].
  destruct (Z.ltb_spec 4294967295 (indent + 1)); [lia |]. by eexists.
Qed.

Lemma siblingsLoop_total (changedItems : gset nat) (previous : option nat)
    (nodes : list nat) (st : CollectState) :
  complete → valid →
  (∀ node, node ∈ nodes → isListItemBlock d node = true) →
  is_Some (siblingsLoop' changedItems previous nodes st).
Proof.
  intros Hview Hvalid. revert previous st.
  induction nodes as [|node rest IH]; intros previous st Hnodes;
    [by eexists |].
  assert (∀ node, node ∈ rest → isListItemBlock d node = true) as Hrest
    by (intros b Hb; apply Hnodes; by right).
  cbn [siblingsLoop].
  destruct (bool_decide (node ∈ csVisited st)); [by apply IH |].
  assert (∃ stack,
            match previous with
            | Some p =>
                if indentAt d node <? indentAt d p
                then stackSetLength (indentAt d node + 1) (csStack st)
                else Some (csStack st)
            | None => Some (csStack st)
            end = Some stack) as [stack ->].
  { destruct previous as [p|]; [| by eexists].
    destruct (indentAt d node <? indentAt d p); [| by eexists].
    apply stackSetLength_valid, validIndents_index; [done |].
    apply Hnodes. by left. }
  cbn [mbind option_bind].
  match goal with
  | |- context [blocksLoop' ?c ?b ?r ?s] =>
      destruct (blocksLoop_total c b r s Hview) as [st' ->]
  end.
  - intros b Hb.
    by apply getListItemBlocks_forward_isListItemBlock in Hb as [_ ?].
  - cbn [mbind option_bind]. by apply IH.
Qed.

Lemma collectListItemsToRefresh_total (listHead : nat)
    (changedItems : gset nat) :
  complete → valid → is_Some (collect listHead changedItems).
Proof.
  intros Hview Hvalid. unfold collectListItemsToRefresh.
  destruct (siblingsLoop_total changedItems None
              (iterateSiblingListBlocks d (Some listHead) Forward)
              (mkCollectState [] ∅ (mkStack [] ∅) []) Hview Hvalid) as [st ->].
  - intros node Hnode.
    by apply iterateForward_isListItemBlock in Hnode as [_ ?].
  - by eexists.
Qed.

Lemma headsLoop_total (changedItems : gset nat) (heads : list nat)
    (items trace : list nat) :
  complete → valid → is_Some (headsLoop' changedItems heads items trace).
Proof.
  intros Hview Hvalid. revert items trace.
  induction heads as [|listHead rest IH]; intros items trace;
    [by eexists |].
  cbn [headsLoop].
  destruct (collectListItemsToRefresh_total listHead changedItems Hview
              Hvalid) as [r ->].
  cbn [mbind option_bind]. apply IH.
Qed.

(** With a complete view and valid indents the listener raises no
    error. *)
Lemma reconvertItemsOnDataChange_total (changes : list DiffItem) :
  complete → valid → is_Some (reconvert changes).
Proof.
  intros Hview Hvalid. unfold reconvertItemsOnDataChange.
  match goal with
  | |- context [headsLoop' ?c ?h ?i ?t] =>
      destruct (headsLoop_total c h i t Hview Hvalid) as [r ->]
  end.
  by eexists.
Qed.

Lemma reconvertItemsOnDataChange_spec (changes : list DiffItem)
    (run : SchedulerRun) :
  reconvert changes = Some run →
  srListHeads run = mapValues (ssItemToListHead (scanChanges' changes)) ∧
  srReconverted run = setOfArray (srItemsToRefresh run) ∧
  ∃ added walks,
    srItemsToRefresh run
      = ssItemsToRefresh (scanChanges' changes) ++ added ∧
    srTrace run = concat walks ∧
    Forall2 (λ listHead walk,
               ∃ pushed,
                 collect listHead (ssChangedItems (scanChanges' changes))
                 = Some (pushed, walk))
            (srListHeads run) walks ∧
    ∀ b, b ∈ added → b ∈ concat walks.
Proof.
  intros Hrun. unfold reconvertItemsOnDataChange in Hrun.
  destruct (headsLoop' _ _ _ _) as [[items trace]|] eqn:Hheads; [| done].
  cbn [mbind option_bind fst snd] in Hrun. injection Hrun as <-.
  cbn [srReconverted srItemsToRefresh srListHeads srTrace].
  split; [done |]. split; [done |].
  apply headsLoop_spec in Hheads as (added & walks & -> & -> & Hwalks & Hadded).
  exists added, walks. split; [done |]. split; [done |]. split; [done |].
  intros b Hb. by apply Hadded.
Qed.

Lemma walk_elements_are_list_blocks (changedItems : gset nat)
    (heads : list nat) (walks : list (list nat)) (b : nat) :
  Forall2 (λ listHead walk,
             ∃ pushed, collect listHead changedItems = Some (pushed, walk))
          heads walks →
  b ∈ concat walks → isListItemBlock d b = true.
Proof.
  induction 1 as [|listHead walk heads walks [pushed Hw] _ IH]; simpl.
  { intros Hb. by apply not_elem_of_nil in Hb. }
  intros [Hb | Hb]%elem_of_app; [| by apply IH].
  apply collectListItemsToRefresh_spec in Hw as (_ & Hli & _). by apply Hli.
Qed.

Lemma findAndAddListHeadToMap_after_list_block (q : nat) :
  isListItemBlock d q = true →
  ∃ listHead, findAndAddListHeadToMap d (S q) [] = [(q, listHead)].
Proof.
  intros Hq. unfold findAndAddListHeadToMap. cbn [previousSibling].
  rewrite Hq.
  assert (∀ run, existsb (mapHas []) run = false) as ->.
  { induction run as [|x run IH]; [done |].
    cbn [existsb]. rewrite IH. unfold mapHas.
    rewrite bool_decide_eq_false_2; [done |]. apply not_elem_of_nil. }
  by eexists.
Qed.

Lemma findAndAddListHeadToMap_new_head (p : nat) (m : ListHeadMap) :
  isListItemBlock d p = false → isListItemBlock d (S p) = true →
  findAndAddListHeadToMap d (S p) m = mapSet (S p) (S p) m.
Proof.
  intros Hp Hnext. unfold findAndAddListHeadToMap. cbn [previousSibling].
  by rewrite Hp, Hnext.
Qed.

(** C3.  For a differ entry that changes a list attribute the scheduler
    records the list head that governs the start of the range; when the
    new value is absent it records, after that, the list head that
    governs the position just after the block, and it puts the block in
    the refresh set exactly when the check of its paragraph shape asks
    for it.  So when [listItemId] is removed from a block between two
    list blocks, the run returns if the view is complete and the indents
    are valid, and in a run that returns the block that follows is
    recorded as a list head and handled by the walk from it, and the
    block itself is reconverted exactly when the check of its paragraph
    shape asks for it. *)
Theorem scan_attribute_change :
  (∀ st rangeStart key old new, key ∈ attributeNames →
     ssItemToListHead
       (scanEntry' st (DiffAttribute rangeStart key old new)) =
       match new with
       | Some _ =>
           findAndAddListHeadToMap d rangeStart (ssItemToListHead st)
       | None =>
           findAndAddListHeadToMap d (rangeStart + 1)
             (findAndAddListHeadToMap d rangeStart (ssItemToListHead st))
       end) ∧
  (∀ st rangeStart key old, key ∈ attributeNames →
     let st' := scanEntry' st (DiffAttribute rangeStart key old None) in
     ssItemsToRefresh st' =
       ssItemsToRefresh st
         ++ (if blockCheck rangeStart None then [rangeStart] else []) ∧
     ssChangedItems st' = ssChangedItems st) ∧
  (∀ q old, "listItemId"%string ∈ attributeNames →
     isListItemBlock d q = true →
     isListItemBlock d (S q) = false →
     isListItemBlock d (S (S q)) = true →
     (complete → valid →
      is_Some (reconvert [DiffAttribute (S q) "listItemId" old None])) ∧
     ∀ run,
       reconvert [DiffAttribute (S q) "listItemId" old None] = Some run →
       S (S q) ∈ srListHeads run ∧
       S (S q) ∈ srTrace run ∧
       (S q ∈ srReconverted run ↔ blockCheck (S q) None = true)).
Proof.
  assert (∀ st rangeStart key old new, key ∈ attributeNames →
     ssItemToListHead
       (scanEntry' st (DiffAttribute rangeStart key old new)) =
       match new with
       | Some _ =>
           findAndAddListHeadToMap d rangeStart (ssItemToListHead st)
       | None =>
           findAndAddListHeadToMap d (rangeStart + 1)
             (findAndAddListHeadToMap d rangeStart (ssItemToListHead st))
       end) as Hheads.
  { intros st rangeStart key old new Hkey%includes_true. simpl.
    rewrite Hkey. destruct new as [v|]; [done |].
    by destruct (blockCheck rangeStart None). }
  assert (∀ st rangeStart key old, key ∈ attributeNames →
     let st' := scanEntry' st (DiffAttribute rangeStart key old None) in
     ssItemsToRefresh st' =
       ssItemsToRefresh st
         ++ (if blockCheck rangeStart None then [rangeStart] else []) ∧
     ssChangedItems st' = ssChangedItems st) as Hitems.
  { intros st rangeStart key old Hkey%includes_true. simpl.
    rewrite Hkey. destruct (blockCheck rangeStart None); simpl;
      [done | by rewrite app_nil_r]. }
  split; [done |]. split; [done |].
  intros q old Hkey Hq Hblock Hnext.
  split; [intros Hview Hvalid; by apply reconvertItemsOnDataChange_total |].
  intros run Hrun.
  apply reconvertItemsOnDataChange_spec in Hrun
    as (Hh & Hrec & added & walks & Hits & Htrace & Hwalks & Hadded).
  change (scanChanges' [DiffAttribute (S q) "listItemId" old None])
    with (scanEntry' (mkScanState [] [] ∅)
            (DiffAttribute (S q) "listItemId" old None))
    in Hh, Hits, Hwalks.
  destruct (Hitems (mkScanState [] [] ∅) (S q) "listItemId"%string old Hkey)
    as [Hits' _].
  rewrite Hits' in Hits. cbn [ssItemsToRefresh] in Hits.
  rewrite Hheads in Hh by done. cbn [ssItemToListHead] in Hh.
  destruct (findAndAddListHeadToMap_after_list_block q Hq)
    as [listHead HlistHead].
  rewrite HlistHead in Hh.
  replace (S q + 1)%nat with (S (S q)) in Hh by lia.
  rewrite findAndAddListHeadToMap_new_head in Hh by done.
  cbn [mapSet] in Hh. rewrite bool_decide_eq_false_2 in Hh by lia.
  cbn [mapValues fmap list_fmap snd] in Hh.
  rewrite Hh in Hwalks |- *.
  split; [right; left |].
  pose proof (walk_elements_are_list_blocks _ _ _ (S q) Hwalks) as Hli.
  apply Forall2_cons_inv_l in Hwalks as (walk1 & walks' & _ & Hwalks & ->).
  apply Forall2_cons_inv_l in Hwalks
    as (walk2 & walks'' & [pushed Hwalk2] & Hnil & ->).
  apply Forall2_nil_inv_l in Hnil as ->.
  split.
  - rewrite Htrace. simpl. rewrite app_nil_r. apply elem_of_app. right.
    apply collectListItemsToRefresh_spec in Hwalk2 as (_ & _ & Hhead & _).
    by apply Hhead.
  - rewrite Hrec, elem_of_setOfArray, Hits, elem_of_app.
    split.
    + intros [Hscanned | Hwalked].
      * destruct (blockCheck (S q) None); [done |].
        by apply not_elem_of_nil in Hscanned.
      * apply Hadded, Hli in Hwalked. congruence.
    + intros ->. left. apply list_elem_of_here.
Qed.

End SchedulerFacts.
Lemma threeItemView_complete_split :
  viewComplete splitDocument threeItemView.
Proof.
  intros item Hitem.
  destruct item as [|[|[|item]]]; try discriminate Hitem.
  - exists (topLevelItemView "a"). split; [done |]. exists rootEditable.
    split; [do 2 right; left | done].
  - exists (topLevelItemView "c"). split; [done |]. exists rootEditable.
    split; [do 2 right; left | done].
Defined.

Lemma scan_attribute_change_witness :
  ∃ run,
    reconvertItemsOnDataChange splitDocument listAttributeNames threeItemView
      noCheckElement noCheckAttributes [removedItemId] = Some run ∧
    2%nat ∈ srListHeads run ∧ 2%nat ∈ srTrace run ∧
    (1%nat ∈ srReconverted run ↔
     doesItemBlockRequiresRefresh splitDocument listAttributeNames
       threeItemView noCheckElement 1 None = true).
Proof.
  destruct (scan_attribute_change splitDocument listAttributeNames
              threeItemView noCheckElement noCheckAttributes)
    as (_ & _ & Hscenario).
  destruct (Hscenario 0%nat (Some (VStr "b"))) as [Hreturns Hrun];
    [apply list_elem_of_here | done | done | done |].
  destruct Hreturns as [run Hsome];
    [apply threeItemView_complete_split | by repeat constructor |].
  exists run. split; [exact Hsome |]. by apply Hrun.
Defined.
(** ** The round trip *)

Lemma ItemChild_nested_ind (P : ItemChild → Prop) :
  P ChildBlock →
  (∀ ordered items, Forall (Forall P) items → P (ChildList ordered items)) →
  ∀ child, P child.
Proof.
  intros Hblock Hlist.
  fix IH 1. intros [|ordered items]; [exact Hblock |].
  apply Hlist.
  induction items as [|item rest IHitems]; constructor; [| exact IHitems].
  induction item as [|child more IHchildren]; constructor;
    [apply IH | exact IHchildren].
Qed.

Lemma childStacks_list (context : list Level) (ordered : bool)
    (items : list (list ItemChild)) (counter : nat) :
  childStacks context (ChildList ordered items) counter =
    itemsStacksWith childStacks ordered context items counter.
Proof. done. Qed.

Lemma upcastChild_list (ancestors : list ViewElement) (ordered : bool)
    (items : list (list ItemChild)) (st : UpcastState) :
  upcastChild ancestors (ChildList ordered items) st =
    foldl (λ st item, upcastItemWith upcastChild ordered ancestors item st)
      st items.
Proof. done. Qed.

Lemma tagItems_suffix (a : ListAttributes) (pre seg : list Node) :
  tagItems a (seq (length pre) (length seg)) (pre ++ seg) =
    pre ++ (tagNode a <$> seg).
Proof.
  apply list_eq. intros i.
  rewrite tagItems_lookup by apply NoDup_seq.
  destruct (decide (i < length pre)%nat) as [Hlt | Hge].
  - rewrite bool_decide_eq_false_2 by (rewrite elem_of_seq; lia).
    by rewrite !lookup_app_l by done.
  - destruct (decide (i < length pre + length seg)%nat) as [Hin | Hout].
    + rewrite bool_decide_eq_true_2 by (rewrite elem_of_seq; lia).
      rewrite !lookup_app_r by lia. by rewrite list_lookup_fmap.
    + rewrite bool_decide_eq_false_2 by (rewrite elem_of_seq; lia).
      rewrite !lookup_ge_None_2; [done | |].
      * rewrite length_app, length_fmap. lia.
      * rewrite length_app. lia.
Qed.

Lemma filter_all {A} (P : A → Prop) `{∀ x, Decision (P x)} (l : list A) :
  Forall P l → filter P l = l.
Proof.
  induction 1 as [|x l Hx _ IH]; [done |].
  by rewrite filter_cons_True, IH.
Qed.

Lemma upcastItems_all (pre seg : list Node) :
  upcastItems schemaAllowsAll (pre ++ seg)
    (length pre, length (pre ++ seg)) = seq (length pre) (length seg).
Proof.
  unfold upcastItems, rangeItems. cbn [fst snd]. rewrite length_app.
  replace (length pre + length seg - length pre)%nat with (length seg)
    by lia.
  apply filter_all, Forall_forall. intros i Hi%elem_of_seq.
  destruct ((pre ++ seg) !! i) as [n|] eqn:Hn; [done |].
  apply lookup_ge_None in Hn. rewrite length_app in Hn. lia.
Qed.

Lemma getIndent_list (ordered : bool) (ancestors : list ViewElement) :
  getIndent (listViewFor ordered :: ancestors) = getIndent ancestors.
Proof.
  unfold getIndent. rewrite filter_cons_False; [done |]. by destruct ordered.
Qed.

Lemma getIndent_item (ancestors : list ViewElement) :
  getIndent (itemView :: ancestors) = getIndent ancestors + 1.
Proof.
  unfold getIndent. rewrite filter_cons_True by done. simpl length. lia.
Qed.

Lemma parentIsOl_list (ordered : bool) (ancestors : list ViewElement) :
  parentIsOl (listViewFor ordered :: ancestors) = ordered.
Proof. by destruct ordered. Qed.


(** *** The nesting of the blocks of a markup *)

Lemma allPlaced_app (preceding blocks more : list (list Level)) :
  allPlaced preceding (blocks ++ more) ↔
  allPlaced preceding blocks ∧ allPlaced (reverse blocks ++ preceding) more.
Proof.
  revert preceding. induction blocks as [|s blocks IH]; intros preceding.
  { simpl. tauto. }
  simpl. rewrite IH, reverse_cons, <- app_assoc. simpl. tauto.
Qed.

Lemma allPlaced_lookup (preceding blocks : list (list Level)) (j : nat)
    (s : list Level) :
  allPlaced preceding blocks → blocks !! j = Some s →
  ancestorsPlaced (reverse (take j blocks) ++ preceding) s.
Proof.
  revert preceding j. induction blocks as [|b blocks IH];
    intros preceding j Hall Hs; [done |].
  destruct Hall as [Hb Hrest]. destruct j as [|j].
  - injection Hs as ->. done.
  - simpl in Hs. simpl take. rewrite reverse_cons, <- app_assoc. simpl.
    by apply IH.
Qed.

Lemma insideItem_placed (stack : list Level) (preceding : list (list Level)) :
  insideItem stack preceding → ancestorsPlaced preceding stack.
Proof.
  intros (deeper & before & -> & Hdeeper & Hplaced).
  destruct stack as [|level [|outerLevel outer]]; [done.. |].
  simpl in Hplaced. destruct Hplaced as (nearer & further & -> & Hnearer & Hrec).
  simpl. exists (deeper ++ (level :: outerLevel :: outer) :: nearer), further.
  split; [by rewrite <- app_assoc |]. split; [| done].
  apply Forall_app. split.
  - eapply Forall_impl; [done |]. simpl. intros s Hs. lia.
  - constructor; [done | done].
Qed.

Lemma insideItem_self (stack : list Level) (preceding : list (list Level)) :
  ancestorsPlaced preceding stack → insideItem stack (stack :: preceding).
Proof. intros Hplaced. exists [], preceding. by split; [| split]. Qed.

Lemma insideItem_deeper (stack : list Level)
    (blocks preceding : list (list Level)) :
  insideItem stack preceding →
  Forall (λ s, (length stack < length s)%nat) blocks →
  insideItem stack (reverse blocks ++ preceding).
Proof.
  intros (deeper & before & -> & Hdeeper & Hplaced) Hblocks.
  exists (reverse blocks ++ deeper), before.
  split; [by rewrite <- app_assoc |]. split; [| done].
  apply Forall_app. split; [| done]. by apply Forall_reverse.
Qed.

(** The block of a nested item, after blocks nested at least as deep, has
    its ancestors placed right. *)
Lemma nested_item_placed (level : Level) (context : list Level)
    (earlier preceding : list (list Level)) :
  context = [] ∨ insideItem context preceding →
  Forall (λ s, (S (length context) ≤ length s)%nat) earlier →
  ancestorsPlaced (reverse earlier ++ preceding) (level :: context).
Proof.
  intros Hcontext Hearlier.
  destruct context as [|outerLevel outer]; [done |].
  destruct Hcontext as [? | (deeper & before & -> & Hdeeper & Hplaced)];
    [done |].
  simpl. exists (reverse earlier ++ deeper), before.
  split; [by rewrite <- app_assoc |]. split; [| done].
  apply Forall_app. split.
  - apply Forall_reverse. eapply Forall_impl; [done |]. simpl. lia.
  - eapply Forall_impl; [done |]. simpl. lia.
Qed.

Lemma childrenStacks_placed (children : list ItemChild) :
  Forall stacksPlaced children →
  ∀ stack preceding counter,
    insideItem stack preceding →
    Forall (λ s, ∃ inner, s = inner ++ stack)
      (childrenStacksWith childStacks stack children counter) ∧
    allPlaced preceding
      (childrenStacksWith childStacks stack children counter).
Proof.
  induction 1 as [|child more Hchild _ IH]; intros stack preceding counter Hin.
  { done. }
  simpl. destruct (Hchild stack preceding counter (or_intror Hin))
    as [Hextend Hplaced].
  assert (insideItem stack
            (reverse (childStacks stack child counter) ++ preceding))
    as Hin'.
  { destruct child as [|ordered items].
    - simpl. apply insideItem_self. by apply insideItem_placed.
    - apply insideItem_deeper; [done |].
      eapply Forall_impl; [exact Hextend |]. simpl.
      intros s (inner & -> & Hinner). rewrite length_app.
      destruct inner; [done | simpl; lia]. }
  destruct (IH stack _ (counter + itemCount child)%nat Hin')
    as [Hextend' Hplaced'].
  split.
  - apply Forall_app. split; [| done].
    eapply Forall_impl; [exact Hextend |]. simpl.
    intros s (inner & -> & _). by exists inner.
  - apply allPlaced_app. by split.
Qed.

Lemma itemsStacks_placed (ordered : bool) (items : list (list ItemChild)) :
  Forall (Forall stacksPlaced) items →
  ∀ context preceding counter,
    context = [] ∨ insideItem context preceding →
    Forall (λ s, ∃ inner, s = inner ++ context ∧ inner ≠ [])
      (itemsStacksWith childStacks ordered context items counter) ∧
    allPlaced preceding
      (itemsStacksWith childStacks ordered context items counter).
Proof.
  intros Hitems context preceding counter Hcontext.
  enough (∀ earlier,
            Forall (λ s, (S (length context) ≤ length s)%nat) earlier →
            Forall (λ s, ∃ inner, s = inner ++ context ∧ inner ≠ [])
              (itemsStacksWith childStacks ordered context items counter) ∧
            allPlaced (reverse earlier ++ preceding)
              (itemsStacksWith childStacks ordered context items counter))
    as Hgen by (apply (Hgen []); constructor).
  revert counter.
  induction Hitems as [|item rest Hitem _ IH]; intros counter earlier Hearlier.
  { done. }
  cbn [itemsStacksWith].
  set (number := (counter + sum_list_with itemCount item)%nat).
  set (stack := (ordered, number) :: context).
  assert (ancestorsPlaced (reverse earlier ++ preceding) stack) as Hown
    by (by apply nested_item_placed).
  destruct (childrenStacks_placed item Hitem stack
              (stack :: reverse earlier ++ preceding) counter
              (insideItem_self _ _ Hown)) as [Hextend Hplaced].
  set (blocks := stack :: childrenStacksWith childStacks stack item counter).
  assert (Forall (λ s, ∃ inner, s = inner ++ context ∧ inner ≠ []) blocks)
    as Hblocks.
  { constructor; [by exists [(ordered, number)] |].
    eapply Forall_impl; [exact Hextend |]. simpl. intros s [inner ->].
    exists (inner ++ [(ordered, number)]).
    split; [by rewrite <- app_assoc |]. by destruct inner. }
  destruct (IH (S number) (earlier ++ blocks)) as [Hextend' Hplaced'].
  { apply Forall_app. split; [done |].
    eapply Forall_impl; [exact Hblocks |]. simpl.
    intros s (inner & -> & Hinner). rewrite length_app.
    destruct inner; [done | simpl; lia]. }
  split.
  - apply Forall_app. by split.
  - change (allPlaced (reverse earlier ++ preceding)
              (blocks ++ itemsStacksWith childStacks ordered context rest
                           (S number))).
    apply allPlaced_app. split.
    + subst blocks. simpl. by split.
    + by rewrite reverse_app, <- app_assoc in Hplaced'.
Qed.

Lemma childStacks_placed (child : ItemChild) : stacksPlaced child.
Proof.
  induction child as [|ordered items IH] using ItemChild_nested_ind;
    intros context preceding counter Hcontext.
  - simpl. split; [constructor; [by exists [] | done] |].
    split; [| done].
    destruct Hcontext as [-> | Hin]; [done | by apply insideItem_placed].
  - rewrite childStacks_list. by apply itemsStacks_placed.
Qed.

(** *** The model a markup upcasts to *)

Lemma childrenStacks_nonempty (children : list ItemChild) :
  Forall stacksNonEmpty children →
  ∀ stack counter, stack ≠ [] →
    Forall (λ s, s ≠ []) (childrenStacksWith childStacks stack children counter).
Proof.
  induction 1 as [|child more Hchild _ IH]; intros stack counter Hstack;
    [done |].
  simpl. apply Forall_app. split; [| by apply IH].
  apply Hchild. by destruct child.
Qed.

Lemma childStacks_nonempty (child : ItemChild) : stacksNonEmpty child.
Proof.
  induction child as [|ordered items IH] using ItemChild_nested_ind;
    intros context counter Hcontext.
  { by constructor. }
  rewrite childStacks_list. clear Hcontext. revert counter.
  induction IH as [|item rest Hitem _ IHrest]; intros counter; [done |].
  cbn [itemsStacksWith]. apply Forall_app. split; [| apply IHrest].
  constructor; [done |]. by apply childrenStacks_nonempty.
Qed.

Lemma tagNode_untagged (a : ListAttributes) :
  tagNode a (mkNode true "paragraph" ∅)
  = setListAttributes a (mkNode true "paragraph" ∅).
Proof. done. Qed.

Lemma nodeOfStack_hasItemId (s : list Level) :
  s ≠ [] → hasAttribute (nodeOfStack s) "listItemId" = true.
Proof.
  destruct s as [|[ordered number] outer]; [done |]. intros _.
  unfold hasAttribute, nodeOfStack, setListAttributes. cbn [nodeAttrs].
  apply bool_decide_eq_true.
  rewrite !lookup_insert_ne by done. rewrite lookup_insert_eq. by eexists.
Qed.

Lemma tagNode_tagged (a : ListAttributes) (s : list Level) :
  s ≠ [] → tagNode a (nodeOfStack s) = nodeOfStack s.
Proof. intros Hs. unfold tagNode. by rewrite nodeOfStack_hasItemId. Qed.

Lemma sum_itemCount_cons (child : ItemChild) (more : list ItemChild) :
  sum_list_with itemCount (child :: more)
  = (itemCount child + sum_list_with itemCount more)%nat.
Proof. done. Qed.

Lemma upcastChildren_raw (children : list ItemChild) :
  Forall upcastsTo children →
  ∀ ancestors stack st,
    getIndent ancestors = Z.of_nat (length stack) →
    let st' := foldl (λ st child, upcastChild ancestors child st) st children in
    usModel st' = usModel st ++ rawChildren stack children (usUid st) ∧
    usUid st' = (usUid st + sum_list_with itemCount children)%nat.
Proof.
  induction 1 as [|child more Hchild _ IH]; intros ancestors stack st Hdepth.
  { simpl. rewrite app_nil_r. split; [done | lia]. }
  cbn [foldl rawChildren]. cbn zeta.
  destruct (Hchild ancestors stack st Hdepth) as [Hmodel Huid].
  destruct (IH ancestors stack (upcastChild ancestors child st) Hdepth)
    as [Hmodel' Huid'].
  cbn zeta in Hmodel', Huid'.
  rewrite Hmodel', Huid', Hmodel, Huid, sum_itemCount_cons.
  split; [by rewrite <- app_assoc | lia].
Qed.

(** The attributes the converter of an item assigns, by the nesting of the
    item. *)
Lemma rawChildren_tagged (ordered : bool) (number : nat)
    (context : list Level) (children : list ItemChild) (counter : nat) :
  Forall stacksNonEmpty children →
  let stack := (ordered, number) :: context in
  let a :=
    mkListAttributes (ListItemUid_id number) (Z.of_nat (length context))
      (VStr (listTypeOf ordered)) in
  tagNode a <$> rawChildren stack children counter
  = nodeOfStack <$> childrenStacksWith childStacks stack children counter.
Proof.
  intros Hchildren stack a. revert counter.
  induction Hchildren as [|child more Hchild _ IH]; intros counter; [done |].
  cbn [rawChildren childrenStacksWith]. rewrite !fmap_app, IH. f_equal.
  destruct child as [|ordered' items]; [done |].
  cbn [rawChild]. rewrite <- list_fmap_compose.
  apply Forall_fmap_ext_1.
  eapply Forall_impl; [by apply (Hchild stack counter) |].
  simpl. intros s Hs. by apply tagNode_tagged.
Qed.

Lemma upcastItem_model (ordered : bool) (ancestors : list ViewElement)
    (context : list Level) (item : list ItemChild) (st : UpcastState) :
  Forall upcastsTo item →
  getIndent ancestors = Z.of_nat (length context) →
  let number := (usUid st + sum_list_with itemCount item)%nat in
  let stack := (ordered, number) :: context in
  let st' := upcastItemWith upcastChild ordered ancestors item st in
  usModel st' =
    usModel st
      ++ (nodeOfStack <$>
            stack :: childrenStacksWith childStacks stack item (usUid st)) ∧
  usUid st' = S number.
Proof.
  intros Hitem Hdepth number stack st'. subst st'.
  unfold upcastItemWith.
  set (st1 := appendBlock st).
  destruct (upcastChildren_raw item Hitem
              (itemView :: listViewFor ordered :: ancestors) stack st1)
    as [Hmodel Huid].
  { rewrite getIndent_item, getIndent_list, Hdepth. simpl length. lia. }
  cbn zeta in Hmodel, Huid.
  set (st2 := foldl _ st1 item) in *.
  assert (usModel st2 =
            usModel st ++ (mkNode true "paragraph" ∅
                           :: rawChildren stack item (usUid st))) as Hmodel2.
  { rewrite Hmodel. subst st1. simpl. by rewrite <- app_assoc. }
  assert (usUid st2 = number) as Huid2 by (by rewrite Huid).
  set (seg := mkNode true "paragraph" ∅ :: rawChildren stack item (usUid st))
    in *.
  assert (upcastItems schemaAllowsAll (usModel st2)
            (length (usModel st), length (usModel st2))
          = length (usModel st) :: seq (S (length (usModel st)))
                                     (length (rawChildren stack item (usUid st))))
    as Hitems.
  { rewrite Hmodel2. by rewrite upcastItems_all. }
  rewrite (listItemUpcastConverter_items schemaAllowsAll
             (mkUpcastData (listViewFor ordered :: ancestors)
                (Some (length (usModel st), length (usModel st2))))
             st2 (length (usModel st), length (usModel st2)) _ _
             eq_refl Hitems).
  cbn [usModel usUid udViewAncestors].
  split; [| by rewrite Huid2].
  change (length (usModel st) :: seq (S (length (usModel st)))
            (length (rawChildren stack item (usUid st))))
    with (seq (length (usModel st)) (length seg)).
  rewrite Hmodel2, tagItems_suffix. f_equal.
  assert (attrAt (usModel st ++ seg) (length (usModel st)) "listType" = None)
    as Hfirst.
  { unfold attrAt. rewrite lookup_app_r by lia.
    by rewrite Nat.sub_diag. }
  rewrite Hfirst. unfold upcastListType.
  rewrite parentIsOl_list, getIndent_list, Hdepth, Huid2.
  assert ((if ordered then VStr "numbered" else VStr "bulleted")
          = VStr (listTypeOf ordered)) as -> by (by destruct ordered).
  subst seg. rewrite !fmap_cons. f_equal.
  apply rawChildren_tagged.
  eapply Forall_impl; [exact Hitem |]. intros child _.
  apply childStacks_nonempty.
Qed.

Lemma upcastChild_upcastsTo (child : ItemChild) : upcastsTo child.
Proof.
  induction child as [|ordered items IH] using ItemChild_nested_ind;
    intros ancestors context st Hdepth.
  { simpl. split; [done | lia]. }
  rewrite upcastChild_list. cbn [rawChild]. rewrite childStacks_list.
  revert st.
  induction IH as [|item rest Hitem _ IHrest]; intros st.
  { simpl. rewrite app_nil_r. split; [done | lia]. }
  cbn [foldl itemsStacksWith itemCount sum_list_with].
  destruct (upcastItem_model ordered ancestors context item st Hitem Hdepth)
    as [Hmodel Huid].
  cbn zeta in Hmodel, Huid.
  destruct (IHrest (upcastItemWith upcastChild ordered ancestors item st))
    as [Hmodel' Huid'].
  rewrite Hmodel', Huid', Hmodel, Huid.
  split.
  - rewrite <- app_assoc. f_equal. by rewrite fmap_app.
  - simpl. lia.
Qed.

(** *** The walk to the block of the enclosing item *)

Lemma runBackFrom_cons (d : Document) (i : nat) :
  isListItemBlock d i = true →
  runBackFrom d i =
    i :: match i with
         | O => []
         | S j => runBackFrom d j
         end.
Proof. intros Hi. destruct i; simpl; by rewrite Hi. Qed.

Lemma walkerLoop_first_lower (d : Document) (start : nat) (ref : Z)
    (p k : nat) :
  (∀ u, (p ≤ u ≤ p + k)%nat → isListItemBlock d u = true) →
  (∀ u, (p < u ≤ p + k)%nat → ref ≤ indentAt d u) →
  indentAt d p < ref →
  head (walkerLoop d lowerIndentOptions start ref (runBackFrom d (p + k)))
  = Some p.
Proof.
  intros Hblocks Hdeeper Hlower.
  induction k as [|k IH].
  - rewrite Nat.add_0_r, runBackFrom_cons by (apply Hblocks; lia).
    cbn [walkerLoop lowerIndentOptions woLowerIndent].
    destruct (Z.ltb_spec (indentAt d p) ref); [done | lia].
  - replace (p + S k)%nat with (S (p + k)) by lia.
    rewrite runBackFrom_cons by (apply Hblocks; lia).
    cbn [walkerLoop lowerIndentOptions woLowerIndent woSameIndent negb].
    assert (ref ≤ indentAt d (S (p + k))) as Hge by (apply Hdeeper; lia).
    destruct (Z.ltb_spec (indentAt d (S (p + k))) ref); [lia |].
    assert (head (walkerLoop d lowerIndentOptions start ref
                    (runBackFrom d (p + k))) = Some p) as Hrest.
    { apply IH; intros u Hu; [apply Hblocks | apply Hdeeper]; lia. }
    by destruct (ref <? indentAt d (S (p + k))).
Qed.

(** The walker finds the nearest preceding block of a lower indent. *)
Lemma ListWalker_first_lower (d : Document) (j p : nat) :
  (p < j)%nat →
  (∀ t, (p ≤ t < j)%nat → isListItemBlock d t = true) →
  indentAt d p < indentAt d j →
  (∀ t, (p < t < j)%nat → indentAt d j ≤ indentAt d t) →
  ListWalker_first d j lowerIndentOptions = Some p.
Proof.
  intros Hlt Hblocks Hlower Hdeeper.
  unfold ListWalker_first, ListWalker.
  destruct j as [|j]; [lia |].
  change (walkerStartNode d lowerIndentOptions (S j)) with (Some j).
  change (woDirection lowerIndentOptions) with Backward.
  cbn [iterateSiblingListBlocks].
  pose proof (walkerLoop_first_lower d (S j) (indentAt d (S j)) p (j - p))
    as Hloop.
  replace (p + (j - p))%nat with j in Hloop by lia.
  apply Hloop; [| | done].
  - intros u Hu. apply Hblocks. lia.
  - intros u Hu. apply Hdeeper. lia.
Qed.

(** *** The wrappers of a block of the upcast model *)

Lemma lookup_nodeOfStack (stacks : list (list Level)) (j : nat)
    (s : list Level) :
  stacks !! j = Some s → (nodeOfStack <$> stacks) !! j = Some (nodeOfStack s).
Proof. intros Hs. by rewrite list_lookup_fmap, Hs. Qed.

Lemma nodeOfStack_attributes (ordered : bool) (number : nat)
    (outer : list Level) :
  getAttribute (nodeOfStack ((ordered, number) :: outer)) "listItemId"
  = Some (VStr (ListItemUid_id number)) ∧
  getAttribute (nodeOfStack ((ordered, number) :: outer)) "listIndent"
  = Some (VNum (Z.of_nat (length outer))) ∧
  getAttribute (nodeOfStack ((ordered, number) :: outer)) "listType"
  = Some (VStr (listTypeOf ordered)).
Proof.
  unfold getAttribute, nodeOfStack, setListAttributes. cbn [nodeAttrs].
  split; [| split].
  - rewrite !lookup_insert_ne by done. by rewrite lookup_insert_eq.
  - rewrite lookup_insert_ne by done. by rewrite lookup_insert_eq.
  - by rewrite lookup_insert_eq.
Qed.

Lemma indentAt_nodeOfStack (stacks : list (list Level)) (j : nat)
    (s : list Level) :
  stacks !! j = Some s → s ≠ [] →
  indentAt (nodeOfStack <$> stacks) j = Z.of_nat (pred (length s)).
Proof.
  intros Hs Hne. unfold indentAt.
  rewrite (lookup_nodeOfStack _ _ _ Hs). cbn [from_option].
  destruct s as [|[ordered number] outer]; [done |].
  unfold listIndentOf.
  by destruct (nodeOfStack_attributes ordered number outer) as (_ & -> & _).
Qed.

Lemma isListItemBlock_nodeOfStack (stacks : list (list Level)) (j : nat)
    (s : list Level) :
  stacks !! j = Some s → s ≠ [] →
  isListItemBlock (nodeOfStack <$> stacks) j = true.
Proof.
  intros Hs Hne. unfold isListItemBlock.
  rewrite (lookup_nodeOfStack _ _ _ Hs). cbn [from_option].
  unfold isListItemNode. rewrite nodeOfStack_hasItemId by done.
  by destruct s as [|[ordered number] outer].
Qed.

(** Where the block of the enclosing item is, given the placement of the
    ancestors. *)
Lemma placed_parent_index (stacks : list (list Level)) (j : nat)
    (outer : list Level) (nearer further : list (list Level)) :
  (j ≤ length stacks)%nat →
  reverse (take j stacks) = nearer ++ outer :: further →
  let p := length further in
  (p < j)%nat ∧ stacks !! p = Some outer ∧
  reverse (take p stacks) = further ∧
  ∀ t s, (p < t < j)%nat → stacks !! t = Some s → s ∈ nearer.
Proof.
  intros Hj Hrev p.
  assert (take j stacks = reverse further ++ outer :: reverse nearer) as Htake.
  { rewrite <- (reverse_involutive (take j stacks)), Hrev.
    by rewrite reverse_app, reverse_cons, <- app_assoc. }
  assert (length (take j stacks) = j) as Hlen by (rewrite length_take; lia).
  rewrite Htake, length_app, length_reverse in Hlen. simpl in Hlen.
  rewrite length_reverse in Hlen.
  assert (stacks = (reverse further ++ outer :: reverse nearer)
                   ++ drop j stacks) as Hstacks
    by (by rewrite <- Htake, take_drop).
  split; [subst p; lia |]. split; [| split].
  - rewrite Hstacks, <- app_assoc.
    rewrite lookup_app_r by (rewrite length_reverse; subst p; lia).
    rewrite length_reverse. subst p. by rewrite Nat.sub_diag.
  - rewrite Hstacks at 1. rewrite <- app_assoc.
    rewrite take_app_length' by (by rewrite length_reverse).
    apply reverse_involutive.
  - intros t s Ht Hs.
    assert (take j stacks !! t = Some s) as Hs'
      by (rewrite lookup_take_lt by lia; done).
    rewrite Htake in Hs'.
    rewrite lookup_app_r in Hs' by (rewrite length_reverse; subst p; lia).
    rewrite length_reverse in Hs'.
    destruct (t - length further)%nat as [|i] eqn:Hi; [subst p; lia |].
    simpl in Hs'. apply list_elem_of_lookup_2 in Hs'.
    by rewrite elem_of_reverse in Hs'.
Qed.

Lemma wrappers_of_placed_block (stacks : list (list Level)) :
  Forall (λ s, s ≠ []) stacks →
  ∀ s j v,
    stacks !! j = Some s →
    ancestorsPlaced (reverse (take j stacks)) s →
    rangeChain
      (wrappedInPairs (nodeOfStack <$> stacks) [] (pred (length s))
         (governingBlocks (nodeOfStack <$> stacks) (pred (length s)) j) [v])
    = expectedWrappersFrom (pred (length s)) s (wrapperChain v).
Proof.
  intros Hne. set (d := nodeOfStack <$> stacks).
  induction s as [|[ordered number] outer IH]; intros j v Hs Hplaced.
  { apply list_elem_of_lookup_2 in Hs.
    by destruct (proj1 (Forall_forall _ _) Hne [] Hs). }
  assert (listWrapperAt d [] (length outer) j
          = createListElement (Z.of_nat (length outer))
              (Some (VStr (listTypeOf ordered))) ∧
          itemWrapperAt d [] (length outer) j
          = createListItemElement (Z.of_nat (length outer))
              (Some (VStr (ListItemUid_id number)))) as [Hlist Hitem].
  { unfold listWrapperAt, itemWrapperAt, withStrategyAttributes, attrAt.
    subst d. rewrite (lookup_nodeOfStack _ _ _ Hs).
    cbn [foldl mbind option_bind].
    by destruct (nodeOfStack_attributes ordered number outer)
      as (-> & _ & ->). }
  cbn [length pred].
  destruct outer as [|outerLevel outer'].
  { cbn [length governingBlocks wrappedInPairs expectedWrappersFrom pred]
      in *.
    rewrite Hlist, Hitem. done. }
  cbn [ancestorsPlaced] in Hplaced.
  destruct Hplaced as (nearer & further & Hrev & Hnearer & Hrec).
  destruct (placed_parent_index stacks j (outerLevel :: outer') nearer
              further) as (Hlt & Hparent & Htake & Hbetween);
    [apply lookup_lt_Some in Hs; lia | done |].
  set (p := length further) in *.
  assert (ListWalker_first d j lowerIndentOptions = Some p) as Hwalk.
  { apply ListWalker_first_lower; [done | | |].
    - intros t Ht. subst d.
      destruct (decide (t = p)) as [-> | Hne'].
      + by apply (isListItemBlock_nodeOfStack _ _ _ Hparent).
      + destruct (lookup_lt_is_Some_2 stacks t) as [s' Hs'];
          [apply lookup_lt_Some in Hs; lia |].
        apply (isListItemBlock_nodeOfStack _ _ _ Hs').
        apply list_elem_of_lookup_2 in Hs'.
        by apply (proj1 (Forall_forall _ _) Hne).
    - subst d. rewrite (indentAt_nodeOfStack _ _ _ Hparent) by done.
      rewrite (indentAt_nodeOfStack _ _ _ Hs) by done. simpl. lia.
    - intros t Ht. subst d.
      destruct (lookup_lt_is_Some_2 stacks t) as [s' Hs'];
        [apply lookup_lt_Some in Hs; lia |].
      assert (s' ≠ []) as Hs'ne.
      { apply list_elem_of_lookup_2 in Hs'.
        by apply (proj1 (Forall_forall _ _) Hne). }
      rewrite (indentAt_nodeOfStack _ _ _ Hs') by done.
      rewrite (indentAt_nodeOfStack _ _ _ Hs) by done.
      pose proof (proj1 (Forall_forall _ _) Hnearer s'
                    (Hbetween t s' Ht Hs')) as Hlen.
      simpl in Hlen |- *. lia. }
  change (length (outerLevel :: outer')) with (S (length outer')) in *.
  cbn [governingBlocks wrappedInPairs expectedWrappersFrom pred].
  rewrite Hwalk, Hlist, Hitem.
  specialize (IH p
    (ViewElem (createListElement (Z.of_nat (S (length outer')))
                 (Some (VStr (listTypeOf ordered))))
       [ViewElem (createListItemElement (Z.of_nat (S (length outer')))
                    (Some (VStr (ListItemUid_id number)))) [v]])
    Hparent).
  cbn [length pred] in IH. rewrite IH by (by rewrite Htake).
  done.
Qed.

(** *** The round trip *)

Lemma expectedWrappersFrom_app (indent : nat) (stack : list Level)
    (inner : list ViewElement) :
  expectedWrappersFrom indent stack inner
  = expectedWrappersFrom indent stack [] ++ inner.
Proof.
  revert indent inner.
  induction stack as [|[ordered number] outer IH]; intros indent inner;
    [done |].
  cbn [expectedWrappersFrom].
  rewrite IH, (IH _ [_; _]), <- app_assoc. done.
Qed.

Lemma expectedWrappersFrom_length (indent : nat) (stack : list Level) :
  length (expectedWrappersFrom indent stack []) = (2 * length stack)%nat.
Proof.
  revert indent.
  induction stack as [|[ordered number] outer IH]; intros indent; [done |].
  cbn [expectedWrappersFrom]. rewrite expectedWrappersFrom_app, length_app, IH.
  simpl. lia.
Qed.

Lemma expectedWrappersFrom_inj (indent : nat) (s t : list Level) :
  expectedWrappersFrom indent s [] = expectedWrappersFrom indent t [] →
  s = t.
Proof.
  revert indent t.
  induction s as [|[ordered number] outer IH]; intros indent t Heq.
  { destruct t as [|[ordered' number'] outer']; [done |].
    apply (f_equal length) in Heq.
    rewrite !expectedWrappersFrom_length in Heq. simpl in Heq. lia. }
  destruct t as [|[ordered' number'] outer'].
  { apply (f_equal length) in Heq.
    rewrite !expectedWrappersFrom_length in Heq. simpl in Heq. lia. }
  cbn [expectedWrappersFrom] in Heq.
  rewrite (expectedWrappersFrom_app _ outer),
    (expectedWrappersFrom_app _ outer') in Heq.
  apply app_inj_2 in Heq as [Hprefix Hlast]; [| done].
  apply IH in Hprefix as ->.
  pose proof (f_equal (λ l, l !! 0%nat ≫= viewId) Hlast) as Htype.
  pose proof (f_equal (λ l, l !! 1%nat ≫= viewId) Hlast) as Hid.
  cbn in Htype, Hid. injection Htype as Htype. injection Hid as Hid.
  apply (inj pretty) in Hid as ->.
  assert (ordered = ordered') as ->; [| done].
  destruct ordered, ordered'; done.
Qed.

Lemma expectedWrappers_inj (s t : list Level) :
  expectedWrappers s = expectedWrappers t → s = t.
Proof.
  unfold expectedWrappers. intros Heq.
  assert (length s = length t) as Hlen.
  { apply (f_equal length) in Heq.
    rewrite !expectedWrappersFrom_length in Heq. lia. }
  rewrite Hlen in Heq. by apply expectedWrappersFrom_inj in Heq.
Qed.

Lemma upcastList_stacks (ordered : bool) (items : list (list ItemChild))
    (counter : nat) :
  upcastList ordered items counter
  = nodeOfStack <$> childStacks [] (ChildList ordered items) counter.
Proof.
  unfold upcastList.
  by destruct (upcastChild_upcastsTo (ChildList ordered items) [] []
                 (mkUpcastState [] counter []) eq_refl) as [-> _].
Qed.

Lemma wrapListItemBlock_stacks (stacks : list (list Level)) (j : nat)
    (s : list Level) :
  Forall (λ s, s ≠ []) stacks → allPlaced [] stacks →
  stacks !! j = Some s →
  rangeChain (wrapListItemBlock (nodeOfStack <$> stacks) j [paragraphView] [])
  = expectedWrappers s.
Proof.
  intros Hne Hplaced Hs.
  assert (s ≠ []) as Hsne.
  { apply list_elem_of_lookup_2 in Hs.
    by apply (proj1 (Forall_forall _ _) Hne). }
  unfold wrapListItemBlock.
  rewrite (lookup_nodeOfStack _ _ _ Hs).
  destruct s as [|[ordered number] outer]; [done |].
  destruct (nodeOfStack_attributes ordered number outer)
    as (_ & Hindent & _).
  unfold hasAttribute, listIndentOf. unfold getAttribute in Hindent |- *.
  rewrite Hindent. rewrite bool_decide_eq_true_2 by (by eexists).
  cbn [negb].
  destruct (Z.ltb_spec (Z.of_nat (length outer)) 0) as [Hneg | _]; [lia |].
  rewrite Nat2Z.id, wrapLoop_pairs.
  pose proof (wrappers_of_placed_block stacks Hne _ j paragraphView Hs)
    as Hwrappers.
  cbn [length pred] in Hwrappers. rewrite Hwrappers; [done |].
  pose proof (allPlaced_lookup [] stacks j _ Hplaced Hs) as Hanc.
  by rewrite app_nil_r in Hanc.
Qed.

(** * Further properties of the converters *)

(** ** The upcast converters, further *)

Lemma tagItems_tagged (a : ListAttributes) (items : list nat) (m : Document) :
  (∀ i, i ∈ items →
     from_option (λ n, hasAttribute n "listItemId") false (m !! i) = true) →
  tagItems a items m = m.
Proof.
  induction items as [|item rest IH]; intros Htagged; [done |].
  cbn [tagItems]. rewrite Htagged by apply list_elem_of_here.
  cbn [negb]. apply IH. intros i Hi. apply Htagged. by right.
Qed.

Lemma tagNode_hasItemId (a : ListAttributes) (n : Node) :
  hasAttribute (tagNode a n) "listItemId" = true.
Proof.
  unfold tagNode. destruct (hasAttribute n "listItemId") eqn:Hhas; [done |].
  unfold hasAttribute, setListAttributes. cbn [nodeAttrs].
  apply bool_decide_eq_true.
  rewrite !lookup_insert_ne by done. rewrite lookup_insert_eq. by eexists.
Qed.

Lemma tagNode_keeps (a : ListAttributes) (n : Node) :
  nodeName (tagNode a n) = nodeName n ∧
  nodeIsElement (tagNode a n) = nodeIsElement n ∧
  (∀ key, is_Some (getAttribute n key) →
     is_Some (getAttribute (tagNode a n) key)) ∧
  ∀ key, key ∉ ["listItemId"; "listIndent"; "listType"]%string →
    getAttribute (tagNode a n) key = getAttribute n key.
Proof.
  unfold tagNode. destruct (hasAttribute n "listItemId"); [done |].
  unfold setListAttributes, getAttribute. cbn [nodeName nodeIsElement nodeAttrs].
  split; [done |]. split; [done |]. split.
  - intros key Hkey.
    destruct (decide (key = "listType"%string)) as [-> | H1];
      [rewrite lookup_insert_eq; by eexists |].
    rewrite lookup_insert_ne by done.
    destruct (decide (key = "listIndent"%string)) as [-> | H2];
      [rewrite lookup_insert_eq; by eexists |].
    rewrite lookup_insert_ne by done.
    destruct (decide (key = "listItemId"%string)) as [-> | H3];
      [rewrite lookup_insert_eq; by eexists |].
    by rewrite lookup_insert_ne.
  - intros key Hkey.
    rewrite !lookup_insert_ne; [done | ..]; intros <-; apply Hkey;
      repeat constructor.
Qed.

(** The converter in terms of the items it works on. *)
Lemma listItemUpcastConverter_cases schemaCheck (data : UpcastData)
    (st : UpcastState) :
  listItemUpcastConverter schemaCheck data st = st ∧
  (udModelRange data = None ∨
   ∃ range, udModelRange data = Some range ∧
     upcastItems schemaCheck (usModel st) range = []) ∨
  ∃ range first others,
    udModelRange data = Some range ∧
    upcastItems schemaCheck (usModel st) range = first :: others.
Proof.
  destruct (udModelRange data) as [range|] eqn:Hrange.
  2: { left. split; [| by left]. unfold listItemUpcastConverter.
       by rewrite Hrange. }
  destruct (upcastItems schemaCheck (usModel st) range) as [|first others]
    eqn:Hitems.
  - left. split; [| right; by exists range].
    unfold listItemUpcastConverter. rewrite Hrange.
    fold (upcastItems schemaCheck (usModel st) range). by rewrite Hitems.
  - right. by exists range, first, others.
Qed.

(** X1.  The converter does nothing at all when the conversion data holds
    no model range, and when the range holds no item on which the schema
    allows [listItemId] (an empty range included): the model, the
    generator of identities and the registered elements stay as they
    were.  The generator advances, by exactly one identity, exactly when
    the range holds such an item. *)
Theorem listItemUpcastConverter_no_items schemaCheck (data : UpcastData)
    (st : UpcastState) :
  let st' := listItemUpcastConverter schemaCheck data st in
  (udModelRange data = None → st' = st) ∧
  (∀ range, udModelRange data = Some range →
     upcastItems schemaCheck (usModel st) range = [] → st' = st) ∧
  (∀ range, udModelRange data = Some range →
     (range.2 ≤ range.1)%nat → st' = st) ∧
  (usUid st' = usUid st ∨ usUid st' = S (usUid st)) ∧
  (usUid st' = S (usUid st) ↔
   ∃ range first others,
     udModelRange data = Some range ∧
     upcastItems schemaCheck (usModel st) range = first :: others).
Proof.
  intros st'. subst st'.
  destruct (listItemUpcastConverter_cases schemaCheck data st)
    as [[Hsame Hwhy] | (range & first & others & Hrange & Hitems)].
  - rewrite Hsame. split; [done |]. split; [done |]. split; [done |].
    split; [by left |]. split; [lia |].
    intros (range & first & others & Hrange & Hitems).
    destruct Hwhy as [Hnone | (range' & Hrange' & Hnil)]; [congruence |].
    rewrite Hrange in Hrange'. injection Hrange' as <-. congruence.
  - rewrite (listItemUpcastConverter_items _ _ _ _ _ _ Hrange Hitems).
    cbn [usUid]. split; [congruence |]. split.
    { intros range' Hrange' Hnil. rewrite Hrange in Hrange'.
      injection Hrange' as <-. congruence. }
    split.
    { intros range' Hrange' Hempty. rewrite Hrange in Hrange'.
      injection Hrange' as <-. exfalso.
      unfold upcastItems, rangeItems in Hitems.
      replace (range.2 - range.1)%nat with 0%nat in Hitems by lia.
      done. }
    split; [by right |]. split; [| done].
    intros _. by exists range, first, others.
Qed.

(** X2.  Running the converter a second time on the same view item and
    range changes no block: after the first run every item the converter
    works on carries a [listItemId], and the converter sets attributes
    only on items that carry none. *)
Theorem listItemUpcastConverter_rerun schemaCheck (data : UpcastData)
    (st : UpcastState) :
  let st' := listItemUpcastConverter schemaCheck data st in
  (∀ range i, udModelRange data = Some range →
     i ∈ upcastItems schemaCheck (usModel st') range →
     from_option (λ n, hasAttribute n "listItemId") false (usModel st' !! i)
     = true) ∧
  usModel (listItemUpcastConverter schemaCheck data st') = usModel st'.
Proof.
  intros st'.
  assert (∀ range i, udModelRange data = Some range →
            i ∈ upcastItems schemaCheck (usModel st') range →
            from_option (λ n, hasAttribute n "listItemId") false
              (usModel st' !! i) = true) as Htagged.
  { intros range i Hrange Hi. subst st'.
    destruct (listItemUpcastConverter_cases schemaCheck data st)
      as [[Hsame Hwhy] | (range' & first & others & Hrange' & Hitems)].
    - rewrite Hsame in Hi.
      destruct Hwhy as [Hnone | (range' & Hrange' & Hnil)]; [congruence |].
      rewrite Hrange in Hrange'. injection Hrange' as <-.
      rewrite Hnil in Hi. by apply not_elem_of_nil in Hi.
    - rewrite Hrange in Hrange'. injection Hrange' as <-.
      rewrite (listItemUpcastConverter_items _ _ _ _ _ _ Hrange Hitems) in *.
      cbn [usModel] in *.
      assert (NoDup (first :: others)) as Hnd
        by (rewrite <- Hitems; apply upcastItems_NoDup).
      unfold upcastItems in Hi. apply list_elem_of_filter in Hi as [Hcheck Hin].
      rewrite tagItems_lookup in Hcheck |- * by done.
      destruct (bool_decide (i ∈ first :: others)) eqn:Hmember.
      + destruct (usModel st !! i) as [n|]; [| done]. simpl.
        apply tagNode_hasItemId.
      + apply bool_decide_eq_false in Hmember. exfalso. apply Hmember.
        rewrite <- Hitems. unfold upcastItems. by apply list_elem_of_filter. }
  split; [done |].
  destruct (listItemUpcastConverter_cases schemaCheck data st')
    as [[Hsame _] | (range & first & others & Hrange & Hitems)].
  - by rewrite Hsame.
  - rewrite (listItemUpcastConverter_items _ _ _ _ _ _ Hrange Hitems).
    cbn [usModel]. apply tagItems_tagged. intros i Hi.
    apply (Htagged range); [done |]. by rewrite Hitems.
Qed.

(** X3.  The converter writes the three list attributes and nothing else:
    every block keeps its name, and every attribute other than
    [listItemId], [listIndent] and [listType] keeps its value; no
    attribute a block carries is ever removed. *)
Theorem listItemUpcastConverter_other_attributes schemaCheck
    (data : UpcastData) (st : UpcastState) (i : nat) (n : Node) :
  usModel st !! i = Some n →
  ∃ n',
    usModel (listItemUpcastConverter schemaCheck data st) !! i = Some n' ∧
    nodeName n' = nodeName n ∧
    nodeIsElement n' = nodeIsElement n ∧
    (∀ key, is_Some (getAttribute n key) → is_Some (getAttribute n' key)) ∧
    ∀ key, key ∉ ["listItemId"; "listIndent"; "listType"]%string →
      getAttribute n' key = getAttribute n key.
Proof.
  intros Hn.
  destruct (listItemUpcastConverter_cases schemaCheck data st)
    as [[Hsame _] | (range & first & others & Hrange & Hitems)].
  - rewrite Hsame. by exists n.
  - rewrite (listItemUpcastConverter_items _ _ _ _ _ _ Hrange Hitems).
    cbn [usModel]. rewrite tagItems_lookup, Hn
      by (rewrite <- Hitems; apply upcastItems_NoDup).
    destruct (bool_decide (i ∈ first :: others)); [| by exists n].
    eexists. split; [done |]. apply tagNode_keeps.
Qed.

Lemma listItemUpcastConverter_other_attributes_witness :
  ∃ n',
    usModel
      (listItemUpcastConverter allowAll
         (mkUpcastData [viewOl] (Some (0, 1)%nat))
         (mkUpcastState [alignedParagraph] 0 [])) !! 0%nat = Some n' ∧
    nodeName n' = "paragraph"%string ∧
    getAttribute n' "alignment" = Some (VStr "right").
Proof.
  destruct (listItemUpcastConverter_other_attributes allowAll
              (mkUpcastData [viewOl] (Some (0, 1)%nat))
              (mkUpcastState [alignedParagraph] 0 []) 0 alignedParagraph
              eq_refl) as (n' & Hn' & Hname & _ & _ & Hother).
  exists n'. split; [done |]. split; [done |].
  rewrite Hother; [done |]. intros Hin.
  repeat (apply elem_of_cons in Hin as [Hin | Hin]; [discriminate |]).
  by apply not_elem_of_nil in Hin.
Defined.

(** ** Cleaning a list view, further *)

Lemma cleanListChildren_kept (children : list ViewNode) :
  Forall (λ child, keepsChild child = true) children →
  cleanListChildren children = children.
Proof.
  induction 1 as [|child rest Hchild _ IH]; [done |].
  cbn [cleanListChildren]. unfold keepsChild in Hchild.
  destruct (viewNodeIsListItem child), (viewNodeIsList child);
    try discriminate; simpl; by rewrite IH.
Qed.

Lemma cleanListChildren_Forall (children : list ViewNode) :
  Forall (λ child, keepsChild child = true) (cleanListChildren children).
Proof.
  rewrite cleanListChildren_filter.
  apply Forall_forall. intros child Hchild.
  apply list_elem_of_In, filter_In in Hchild. tauto.
Qed.

Lemma cleanListChildren_sublist (children : list ViewNode) :
  cleanListChildren children `sublist_of` children.
Proof.
  induction children as [|child rest IH]; [done |].
  cbn [cleanListChildren].
  destruct (negb _ && negb _); [by apply sublist_cons | by apply sublist_skip].
Qed.

(** X4.  What the converter leaves in a list view are list items and
    lists only, each with its own content untouched and in the order in
    which they stood; a list view that holds nothing else is left exactly
    as it is, and so cleaning a second time changes nothing.  (The test
    of the consumable looks at the element, not at its children.) *)
Theorem listUpcastCleanList_idempotent (consumableTest : ViewNode → bool)
    (e : ViewElement) (children : list ViewNode) :
  (∀ children',
     consumableTest (ViewElem e children')
     = consumableTest (ViewElem e children)) →
  let cleaned := listUpcastCleanList consumableTest (ViewElem e children) in
  listUpcastCleanList consumableTest cleaned = cleaned ∧
  (Forall (λ child, keepsChild child = true) children →
   cleaned = ViewElem e children) ∧
  (consumableTest (ViewElem e children) = true →
   ∃ kept,
     cleaned = ViewElem e kept ∧ kept `sublist_of` children ∧
     Forall (λ child, keepsChild child = true) kept).
Proof.
  intros Htest cleaned. subst cleaned. unfold listUpcastCleanList.
  destruct (consumableTest (ViewElem e children)) eqn:Hok; cbn [negb].
  - rewrite Htest. cbn [negb]. split; [| split].
    + f_equal. apply cleanListChildren_kept, cleanListChildren_Forall.
    + intros Hkept. by rewrite cleanListChildren_kept.
    + intros _. exists (cleanListChildren children).
      split; [done |]. split;
        [apply cleanListChildren_sublist | apply cleanListChildren_Forall].
  - rewrite ?Hok. cbn [negb]. split; [done |]. split; [done |]. done.
Qed.

Lemma listUpcastCleanList_idempotent_witness :
  listUpcastCleanList (λ _, true)
    (listUpcastCleanList (λ _, true) ulWithWhitespace)
  = listUpcastCleanList (λ _, true) ulWithWhitespace.
Proof.
  exact (proj1 (listUpcastCleanList_idempotent (λ _, true) viewUl
                  [ViewText " "; ViewElem viewLi [ViewText "A"]]
                  (λ _, eq_refl))).
Defined.

(** ** The reconversion scheduler, further *)

Lemma runFrom_boundary (i : nat) (l : list Node) :
  from_option isListItemNode false (l !! length (runFrom i l)) = false.
Proof.
  revert i. induction l as [|n rest IH]; intros i; [done |].
  cbn [runFrom]. destruct (isListItemNode n) eqn:Hn; [| by simpl].
  cbn [length]. apply IH.
Qed.

(** The forward iteration stops at the first node that is no list block. *)
Lemma iterateForward_boundary (d : Document) (start : nat) :
  isListItemBlock d
    (start + length (iterateSiblingListBlocks d (Some start) Forward))
  = false.
Proof.
  unfold isListItemBlock. cbn [iterateSiblingListBlocks].
  rewrite <- lookup_drop. apply runFrom_boundary.
Qed.

(** Within a run of list blocks the iteration from a later block ends
    where the one from an earlier block ends. *)
Lemma iterateForward_same_end (d : Document) (start node : nat) :
  node ∈ iterateSiblingListBlocks d (Some start) Forward →
  (node + length (iterateSiblingListBlocks d (Some node) Forward)
   = start + length (iterateSiblingListBlocks d (Some start) Forward))%nat.
Proof.
  intros Hnode.
  assert (∀ s j, j ∈ iterateSiblingListBlocks d (Some s) Forward ↔
            (s ≤ j < s + length (iterateSiblingListBlocks d (Some s) Forward))%nat)
    as Hrange.
  { intros s j. rewrite iterateForward_seq at 1. rewrite elem_of_seq. lia. }
  pose proof (iterateForward_boundary d start) as Hend.
  pose proof (iterateForward_boundary d node) as Hend'.
  apply Hrange in Hnode.
  set (k := length (iterateSiblingListBlocks d (Some start) Forward)) in *.
  set (k' := length (iterateSiblingListBlocks d (Some node) Forward)) in *.
  destruct (Nat.lt_trichotomy (node + k') (start + k)) as [Hlt | [Heq | Hgt]];
    [| done |].
  - assert (isListItemBlock d (node + k') = true) as Hin; [| congruence].
    apply (iterateForward_isListItemBlock d start), Hrange. fold k. lia.
  - assert (isListItemBlock d (start + k) = true) as Hin; [| congruence].
    apply (iterateForward_isListItemBlock d node), Hrange. fold k'. lia.
Qed.

Section SchedulerFurther.

Variable d : Document.
Variable attributeNames : list string.
Variable toViewElement : nat → option MappedView.
Variable fireCheckElement : nat → ViewElement → bool.
Variable fireCheckAttributes :
  AttributesEvent → ViewElement → option (gmap string value) → bool.

Local Abbreviation blockCheck :=
  (doesItemBlockRequiresRefresh d attributeNames toViewElement
     fireCheckElement).
Local Abbreviation wrappingCheck :=
  (doesItemWrappingRequiresRefresh toViewElement fireCheckAttributes).
Local Abbreviation blocksLoop' :=
  (blocksLoop d attributeNames toViewElement fireCheckElement
     fireCheckAttributes).
Local Abbreviation siblingsLoop' :=
  (siblingsLoop d attributeNames toViewElement fireCheckElement
     fireCheckAttributes).
Local Abbreviation collect :=
  (collectListItemsToRefresh d attributeNames toViewElement
     fireCheckElement fireCheckAttributes).
Local Abbreviation scanEntry' :=
  (scanEntry d attributeNames toViewElement fireCheckElement).
Local Abbreviation scanChanges' :=
  (scanChanges d attributeNames toViewElement fireCheckElement).
Local Abbreviation reconvert :=
  (reconvertItemsOnDataChange d attributeNames toViewElement
     fireCheckElement fireCheckAttributes).

(** *** What the scan of the changes collects *)

Lemma scanEntry_changedItems (st : ScanState) (entry : DiffItem) (b : nat) :
  b ∈ ssChangedItems (scanEntry' st entry) ↔
  b ∈ ssChangedItems st ∨
  (∃ name attributes len,
     entry = DiffInsert name attributes b len ∧ name ≠ "$text"%string ∧
     is_Some (attributes !! "listItemId"%string)) ∨
  (∃ key old v,
     entry = DiffAttribute b key old (Some v) ∧ key ∈ attributeNames).
Proof.
  destruct entry as [name attrs position len | name attrs position len
                    | rangeStart key old new]; cbn [scanEntry].
  - destruct (decide (name = "$text"%string)) as [Htext | Htext].
    { rewrite bool_decide_eq_true_2 by done. cbn [negb].
      split; [by left |]. intros [? | [(? & ? & ? & Heq & ? & ?) | H]];
        [done | | ].
      - injection Heq as -> _ _ _. done.
      - by destruct H as (? & ? & ? & ? & _). }
    rewrite bool_decide_eq_false_2 by done. cbn [negb].
    destruct (decide (is_Some (attrs !! "listItemId"%string))) as [Hid | Hid].
    + rewrite bool_decide_eq_true_2 by done. cbn [negb ssChangedItems].
      rewrite elem_of_union, elem_of_singleton. split.
      * intros [-> | Hb]; [| by left]. right. left. by exists name, attrs, len.
      * intros [? | [(? & ? & ? & Heq & ? & ?) | H]]; [by right | |].
        -- injection Heq as _ _ -> _. by left.
        -- by destruct H as (? & ? & ? & ? & _).
    + rewrite bool_decide_eq_false_2 by done. cbn [negb ssChangedItems].
      split; [by left |].
      intros [? | [(? & ? & ? & Heq & ? & ?) | H]]; [done | |].
      * injection Heq as _ -> _ _. done.
      * by destruct H as (? & ? & ? & ? & _).
  - assert (∀ st',
              ssChangedItems st' = ssChangedItems st →
              b ∈ ssChangedItems st' ↔
              b ∈ ssChangedItems st ∨
              (∃ name0 attributes len0,
                 DiffRemove name attrs position len
                 = DiffInsert name0 attributes b len0 ∧
                 name0 ≠ "$text"%string ∧
                 is_Some (attributes !! "listItemId"%string)) ∨
              (∃ key old v,
                 DiffRemove name attrs position len
                 = DiffAttribute b key old (Some v) ∧ key ∈ attributeNames))
      as Hsame.
    { intros st' ->. split; [by left |].
      intros [? | [(? & ? & ? & ? & _) | (? & ? & ? & ? & _)]]; done. }
    destruct (bool_decide _); by apply Hsame.
  - destruct (includes attributeNames key) eqn:Hkey.
    + apply includes_true in Hkey. destruct new as [v|].
      * cbn [ssChangedItems]. rewrite elem_of_union, elem_of_singleton. split.
        -- intros [-> | Hb]; [| by left]. right. right. by exists key, old, v.
        -- intros [? | [(? & ? & ? & ? & _) | (? & ? & ? & Heq & _)]];
             [by right | done |].
           injection Heq as -> _ _ _. by left.
      * assert (∀ st',
                  ssChangedItems st' = ssChangedItems st →
                  b ∈ ssChangedItems st' ↔
                  b ∈ ssChangedItems st ∨
                  (∃ name attributes len,
                     DiffAttribute rangeStart key old None
                     = DiffInsert name attributes b len ∧
                     name ≠ "$text"%string ∧
                     is_Some (attributes !! "listItemId"%string)) ∨
                  (∃ key0 old0 v,
                     DiffAttribute rangeStart key old None
                     = DiffAttribute b key0 old0 (Some v) ∧
                     key0 ∈ attributeNames)) as Hsame.
        { intros st' ->. split; [by left |].
          intros [? | [(? & ? & ? & ? & _) | (? & ? & ? & ? & _)]]; done. }
        destruct (blockCheck rangeStart None); by apply Hsame.
    + assert (key ∉ attributeNames) as Hnot
        by (intros Hin%includes_true; congruence).
      assert (∀ st',
                ssChangedItems st' = ssChangedItems st →
                b ∈ ssChangedItems st' ↔
                b ∈ ssChangedItems st ∨
                (∃ name attributes len,
                   DiffAttribute rangeStart key old new
                   = DiffInsert name attributes b len ∧
                   name ≠ "$text"%string ∧
                   is_Some (attributes !! "listItemId"%string)) ∨
                (∃ key0 old0 v,
                   DiffAttribute rangeStart key old new
                   = DiffAttribute b key0 old0 (Some v) ∧
                   key0 ∈ attributeNames)) as Hsame.
      { intros st' ->. split; [by left |].
        intros [? | [(? & ? & ? & ? & _) | (? & ? & ? & Heq & Hin)]];
          [done | done |].
        injection Heq as _ -> _ _. done. }
      destruct (isListItemBlock d rangeStart); [| by apply Hsame].
      destruct (blockCheck rangeStart None); by apply Hsame.
Qed.

Lemma scanChanges_changedItems (changes : list DiffItem) (st : ScanState)
    (b : nat) :
  b ∈ ssChangedItems (foldl scanEntry' st changes) ↔
  b ∈ ssChangedItems st ∨
  (∃ name attributes len,
     DiffInsert name attributes b len ∈ changes ∧ name ≠ "$text"%string ∧
     is_Some (attributes !! "listItemId"%string)) ∨
  (∃ key old v,
     DiffAttribute b key old (Some v) ∈ changes ∧ key ∈ attributeNames).
Proof.
  revert st. induction changes as [|entry rest IH]; intros st.
  { cbn [foldl]. split; [by left |].
    intros [? | [(? & ? & ? & Hin & _) | (? & ? & ? & Hin & _)]];
      [done | |]; by apply not_elem_of_nil in Hin. }
  cbn [foldl]. rewrite IH, scanEntry_changedItems. split.
  - intros [[Hb | [(name & attrs & len & -> & Hname & Hid)
                  | (key & old & v & -> & Hkey)]]
           | [(name & attrs & len & Hin & Hname & Hid)
             | (key & old & v & Hin & Hkey)]].
    + by left.
    + right. left. exists name, attrs, len. split; [by left | done].
    + right. right. exists key, old, v. split; [by left | done].
    + right. left. exists name, attrs, len. split; [by right | done].
    + right. right. exists key, old, v. split; [by right | done].
  - intros [Hb | [(name & attrs & len & Hin & Hname & Hid)
                 | (key & old & v & Hin & Hkey)]].
    + left. by left.
    + apply elem_of_cons in Hin as [<- | Hin].
      * left. right. left. by exists name, attrs, len.
      * right. left. by exists name, attrs, len.
    + apply elem_of_cons in Hin as [<- | Hin].
      * left. right. right. by exists key, old, v.
      * right. right. by exists key, old, v.
Qed.

(** X5.  The set of items changed in the batch holds exactly the nodes
    inserted with a [listItemId] (text insertions apart) and the blocks on
    which the batch sets a list attribute to a value; a removal, the
    removal of a list attribute, and a change of any other attribute put
    nothing in it, and the order of the entries does not matter. *)
Theorem scanChanges_changed_set (changes : list DiffItem) (b : nat) :
  b ∈ ssChangedItems (scanChanges' changes) ↔
  (∃ name attributes len,
     DiffInsert name attributes b len ∈ changes ∧ name ≠ "$text"%string ∧
     is_Some (attributes !! "listItemId"%string)) ∨
  (∃ key old v,
     DiffAttribute b key old (Some v) ∈ changes ∧ key ∈ attributeNames).
Proof.
  unfold scanChanges. rewrite scanChanges_changedItems.
  cbn [ssChangedItems]. split; [| by right].
  intros [Hb | H]; [| done]. by apply elem_of_empty in Hb.
Qed.

Lemma scanEntry_itemsToRefresh (st : ScanState) (entry : DiffItem) (b : nat) :
  b ∈ ssItemsToRefresh (scanEntry' st entry) ↔
  b ∈ ssItemsToRefresh st ∨
  ∃ key old new,
    entry = DiffAttribute b key old new ∧ blockCheck b None = true ∧
    (key ∈ attributeNames ∧ new = None
     ∨ (key ∉ attributeNames) ∧ isListItemBlock d b = true).
Proof.
  assert (∀ st',
            ssItemsToRefresh st' = ssItemsToRefresh st →
            (∀ key old new,
               entry = DiffAttribute b key old new →
               blockCheck b None = true →
               key ∈ attributeNames ∧ new = None
               ∨ (key ∉ attributeNames) ∧ isListItemBlock d b = true →
               False) →
            b ∈ ssItemsToRefresh st' ↔
            b ∈ ssItemsToRefresh st ∨
            ∃ key old new,
              entry = DiffAttribute b key old new ∧ blockCheck b None = true ∧
              (key ∈ attributeNames ∧ new = None
               ∨ (key ∉ attributeNames) ∧ isListItemBlock d b = true))
    as Hsame.
  { intros st' -> Hno. split; [by left |].
    intros [? | (key & old & new & Heq & Hcheck & Hwhy)]; [done |].
    by destruct (Hno key old new). }
  assert (∀ st' key old new,
            entry = DiffAttribute b key old new →
            blockCheck b None = true →
            key ∈ attributeNames ∧ new = None
            ∨ (key ∉ attributeNames) ∧ isListItemBlock d b = true →
            ssItemsToRefresh st' = ssItemsToRefresh st ++ [b] →
            b ∈ ssItemsToRefresh st' ↔
            b ∈ ssItemsToRefresh st ∨
            ∃ key old new,
              entry = DiffAttribute b key old new ∧ blockCheck b None = true ∧
              (key ∈ attributeNames ∧ new = None
               ∨ (key ∉ attributeNames) ∧ isListItemBlock d b = true))
    as Hpushed.
  { intros st' key old new Heq Hcheck Hwhy ->. split.
    - intros _. right. by exists key, old, new.
    - intros _. apply elem_of_app. right. apply list_elem_of_here. }
  destruct entry as [name attrs position len | name attrs position len
                    | rangeStart key old new]; cbn [scanEntry].
  - destruct (negb (bool_decide (name = "$text"%string)));
      [destruct (negb _) |]; by apply Hsame.
  - destruct (bool_decide _); by apply Hsame.
  - destruct (decide (rangeStart = b)) as [-> | Hother].
    2: { assert (∀ st',
                   ssItemsToRefresh st' = ssItemsToRefresh st
                   ∨ ssItemsToRefresh st' = ssItemsToRefresh st ++ [rangeStart] →
                   b ∈ ssItemsToRefresh st' ↔
                   b ∈ ssItemsToRefresh st ∨
                   ∃ key0 old0 new0,
                     DiffAttribute rangeStart key old new
                     = DiffAttribute b key0 old0 new0 ∧
                     blockCheck b None = true ∧
                     (key0 ∈ attributeNames ∧ new0 = None
                      ∨ (key0 ∉ attributeNames)
                        ∧ isListItemBlock d b = true)) as Helse.
         { intros st' [-> | ->].
           - split; [by left |]. intros [? | (? & ? & ? & Heq & _)]; [done |].
             injection Heq as -> _ _ _. done.
           - rewrite elem_of_app, list_elem_of_singleton. split.
             + intros [? | ->]; [by left | done].
             + intros [? | (? & ? & ? & Heq & _)]; [by left |].
               injection Heq as -> _ _ _. done. }
         destruct (includes attributeNames key).
         - destruct new as [v|]; [apply Helse; by left |].
           destruct (blockCheck rangeStart None); apply Helse;
             [by right | by left].
         - destruct (isListItemBlock d rangeStart); [| apply Helse; by left].
           destruct (blockCheck rangeStart None); apply Helse;
             [by right | by left]. }
    destruct (includes attributeNames key) eqn:Hkey.
    + apply includes_true in Hkey. destruct new as [v|].
      * apply Hsame; [done |]. intros key0 old0 new0 Heq _ [[_ ->] | [Hnot _]].
        -- done.
        -- injection Heq as -> _ _. done.
      * destruct (blockCheck b None) eqn:Hcheck.
        -- apply (Hpushed _ key old None); [done | done | by left | done].
        -- apply Hsame; [done |]. intros ? ? ? _ ?. congruence.
    + assert (key ∉ attributeNames) as Hnot
        by (intros Hin%includes_true; congruence).
      destruct (isListItemBlock d b) eqn:Hblock.
      * destruct (blockCheck b None) eqn:Hcheck.
        -- apply (Hpushed _ key old new); [done | done | by right | done].
        -- apply Hsame; [done |]. intros ? ? ? _ ?. congruence.
      * apply Hsame; [done |].
        intros key0 old0 new0 Heq _ [[Hin _] | [_ ?]]; [| done].
        injection Heq as -> _ _. done.
Qed.

Lemma scanChanges_itemsToRefresh (changes : list DiffItem) (st : ScanState)
    (b : nat) :
  b ∈ ssItemsToRefresh (foldl scanEntry' st changes) ↔
  b ∈ ssItemsToRefresh st ∨
  ∃ key old new,
    DiffAttribute b key old new ∈ changes ∧ blockCheck b None = true ∧
    (key ∈ attributeNames ∧ new = None
     ∨ (key ∉ attributeNames) ∧ isListItemBlock d b = true).
Proof.
  revert st. induction changes as [|entry rest IH]; intros st.
  { cbn [foldl]. split; [by left |].
    intros [? | (? & ? & ? & Hin & _)]; [done |].
    by apply not_elem_of_nil in Hin. }
  cbn [foldl]. rewrite IH, scanEntry_itemsToRefresh. split.
  - intros [[Hb | (key & old & new & -> & Hcheck & Hwhy)]
           | (key & old & new & Hin & Hcheck & Hwhy)].
    + by left.
    + right. exists key, old, new. split; [by left | done].
    + right. exists key, old, new. split; [by right | done].
  - intros [Hb | (key & old & new & Hin & Hcheck & Hwhy)]; [left; by left |].
    apply elem_of_cons in Hin as [<- | Hin].
    + left. right. by exists key, old, new.
    + right. by exists key, old, new.
Qed.

(** *** Batches that do not concern lists *)

Lemma scanEntry_leavesListsAlone (st : ScanState) (entry : DiffItem) :
  leavesListsAlone d attributeNames entry → scanEntry' st entry = st.
Proof.
  destruct entry as [name attrs position len | name attrs position len
                    | rangeStart key old new]; cbn [leavesListsAlone scanEntry].
  - intros ->. by rewrite bool_decide_eq_true_2.
  - intros Hnone. rewrite bool_decide_eq_false_2; [done |].
    rewrite Hnone. by intros [? ?].
  - intros [Hkey Hblock]. unfold includes.
    rewrite bool_decide_eq_false_2 by done. by rewrite Hblock.
Qed.

(** X6.  A batch that holds only insertions of text, removals of nodes
    that carried no [listItemId] and changes of other attributes on
    blocks outside lists makes the scheduler do nothing: no list head is
    recorded, no block is looked at, no item is reconverted, and no view
    element is needed for that. *)
Theorem reconvertItemsOnDataChange_unrelated (changes : list DiffItem) :
  Forall (leavesListsAlone d attributeNames) changes →
  reconvert changes = Some (mkSchedulerRun [] [] [] []).
Proof.
  intros Hchanges.
  assert (scanChanges' changes = mkScanState [] [] ∅) as Hscan.
  { unfold scanChanges. generalize (mkScanState [] [] ∅).
    induction Hchanges as [|entry rest Hentry _ IH]; intros st; [done |].
    cbn [foldl]. rewrite scanEntry_leavesListsAlone by done. apply IH. }
  unfold reconvertItemsOnDataChange. by rewrite Hscan.
Qed.

(** *** Documents without lists *)

Lemma findAndAddListHeadToMap_no_list (position : nat) (m : list (nat * nat)) :
  (∀ i, isListItemBlock d i = false) →
  findAndAddListHeadToMap d position m = m.
Proof.
  intros Hnone. unfold findAndAddListHeadToMap.
  destruct (previousSibling position) as [previousNode|];
    by rewrite !Hnone.
Qed.

Lemma scanChanges_no_list (changes : list DiffItem) (st : ScanState) :
  (∀ i, isListItemBlock d i = false) →
  ssItemToListHead (foldl scanEntry' st changes) = ssItemToListHead st.
Proof.
  intros Hnone. revert st.
  induction changes as [|entry rest IH]; intros st; [done |].
  cbn [foldl]. rewrite IH.
  destruct entry as [name attrs position len | name attrs position len
                    | rangeStart key old new]; cbn [scanEntry].
  - destruct (negb (bool_decide (name = "$text"%string))); [| done].
    destruct (negb _); cbn [ssItemToListHead];
      by rewrite !findAndAddListHeadToMap_no_list.
  - destruct (bool_decide _); [| done]. cbn [ssItemToListHead].
    by rewrite findAndAddListHeadToMap_no_list.
  - destruct (includes attributeNames key).
    + destruct new as [v|]; [| destruct (blockCheck rangeStart None)];
        cbn [ssItemToListHead];
        by rewrite !findAndAddListHeadToMap_no_list.
    + rewrite Hnone. done.
Qed.

(** X7.  In a document that holds no list block the scheduler records no
    list head and walks nothing, whatever the batch, and it raises no
    error; the blocks it reconverts are exactly those from which the
    batch removes a list attribute and for which the check of the
    paragraph asks for a refresh (the block that left its list while its
    view is still the bogus paragraph). *)
Theorem reconvertItemsOnDataChange_no_list (changes : list DiffItem) :
  (∀ i, isListItemBlock d i = false) →
  ∃ run,
    reconvert changes = Some run ∧
    srListHeads run = [] ∧ srTrace run = [] ∧
    NoDup (srReconverted run) ∧
    ∀ b, b ∈ srReconverted run ↔
      ∃ key old,
        DiffAttribute b key old None ∈ changes ∧ key ∈ attributeNames ∧
        blockCheck b None = true.
Proof.
  intros Hnone. unfold reconvertItemsOnDataChange.
  assert (ssItemToListHead (scanChanges' changes) = []) as Hheads
    by (unfold scanChanges; by rewrite scanChanges_no_list).
  rewrite Hheads. cbn [mapValues fmap list_fmap headsLoop mbind option_bind].
  eexists. split; [done |]. cbn [srListHeads srTrace srReconverted fst snd].
  split; [done |]. split; [done |]. split; [apply setOfArray_NoDup |].
  intros b. rewrite elem_of_setOfArray. unfold scanChanges.
  rewrite scanChanges_itemsToRefresh. cbn [ssItemsToRefresh]. split.
  - intros [Hb | (key & old & new & Hin & Hcheck & [[Hkey ->] | [_ Hblock]])].
    + by apply not_elem_of_nil in Hb.
    + by exists key, old.
    + rewrite Hnone in Hblock. done.
  - intros (key & old & Hin & Hkey & Hcheck). right.
    exists key, old, None. split; [done |]. split; [done |]. by left.
Qed.

(** X8.  A block that is in no list is reconverted only when the batch
    removes a list attribute from it and the check of the paragraph asks
    for it: the walks add list blocks only, and the scan, for a change of
    another attribute, looks at list blocks only. *)
Theorem reconvert_outside_lists (changes : list DiffItem)
    (run : SchedulerRun) (b : nat) :
  reconvert changes = Some run →
  b ∈ srReconverted run →
  isListItemBlock d b = false →
  ∃ key old,
    DiffAttribute b key old None ∈ changes ∧ key ∈ attributeNames ∧
    blockCheck b None = true.
Proof.
  intros Hrun Hb Hblock.
  destruct (reconvertItemsOnDataChange_spec d attributeNames toViewElement
              fireCheckElement fireCheckAttributes changes run Hrun)
    as (_ & Hset & added & walks & Hitems & _ & Hwalks & Hadded).
  rewrite Hset, elem_of_setOfArray, Hitems in Hb.
  apply elem_of_app in Hb as [Hb | Hb].
  - unfold scanChanges in Hb. apply scanChanges_itemsToRefresh in Hb
      as [Hb | (key & old & new & Hin & Hcheck & [[Hkey ->] | [_ Hlist]])].
    + by apply not_elem_of_nil in Hb.
    + by exists key, old.
    + congruence.
  - apply Hadded in Hb.
    pose proof (walk_elements_are_list_blocks d attributeNames toViewElement
                  fireCheckElement fireCheckAttributes _ _ _ b Hwalks Hb).
    congruence.
Qed.

(** *** One walk *)

Lemma blocksLoop_trace (changedItems : gset nat) (blocks rest : list nat)
    (st st' : CollectState) :
  blocksLoop' changedItems blocks rest st = Some st' →
  csTrace st' = csTrace st ++ rest.
Proof.
  intros Hloop.
  by destruct (blocksLoop_spec d attributeNames toViewElement
                 fireCheckElement fireCheckAttributes _ _ _ _ _ Hloop)
    as (Htrace & _).
Qed.

Lemma siblingsLoop_trace (changedItems : gset nat) (previous : option nat)
    (nodes : list nat) (st st' : CollectState) (b : nat) :
  siblingsLoop' changedItems previous nodes st = Some st' →
  b ∈ csTrace st' →
  b ∈ csTrace st ∨
  ∃ node, node ∈ nodes ∧ b ∈ getListItemBlocks d node Forward.
Proof.
  revert previous st. induction nodes as [|node rest IH];
    intros previous st Hloop Hb.
  { cbn [siblingsLoop] in Hloop. injection Hloop as <-. by left. }
  cbn [siblingsLoop] in Hloop.
  destruct (bool_decide (node ∈ csVisited st)).
  { destruct (IH _ _ Hloop Hb) as [? | (node' & Hnode' & Hin)]; [by left |].
    right. exists node'. split; [by right | done]. }
  match type of Hloop with
  | (?trimmed ≫= _) = _ => destruct trimmed as [stack|]; [| done]
  end.
  cbn [mbind option_bind] in Hloop. cbn zeta in Hloop.
  destruct (blocksLoop' _ _ _ _) as [st1|] eqn:Hblocks; [| done].
  cbn [mbind option_bind] in Hloop.
  apply blocksLoop_trace in Hblocks. cbn [csTrace] in Hblocks.
  destruct (IH _ _ Hloop Hb) as [Hb1 | (node' & Hnode' & Hin)].
  - rewrite Hblocks in Hb1. apply elem_of_app in Hb1 as [? | ?]; [by left |].
    right. exists node. split; [by left | done].
  - right. exists node'. split; [by right | done].
Qed.

Lemma collectListItemsToRefresh_trace (listHead : nat)
    (changedItems : gset nat) (items trace : list nat) (b : nat) :
  collect listHead changedItems = Some (items, trace) →
  b ∈ trace ↔ b ∈ iterateSiblingListBlocks d (Some listHead) Forward.
Proof.
  intros Hrun. unfold collectListItemsToRefresh in Hrun.
  destruct (siblingsLoop' _ _ _ _) as [st|] eqn:Hloop; [| done].
  cbn [mbind option_bind] in Hrun. injection Hrun as <- <-.
  split.
  - intros Hb.
    destruct (siblingsLoop_trace _ _ _ _ _ b Hloop Hb)
      as [Hb0 | (node & Hnode & Hin)].
    { by apply not_elem_of_nil in Hb0. }
    apply elem_of_getListItemBlocks_forward in Hin as (Hrange & _).
    rewrite (iterateForward_same_end d listHead node Hnode) in Hrange.
    rewrite iterateForward_seq in Hnode |- *.
    apply elem_of_seq in Hnode. apply elem_of_seq. lia.
  - intros Hb. rewrite iterateForward_seq in Hloop, Hb.
    set (k := length (iterateSiblingListBlocks d (Some listHead) Forward))
      in *.
    apply (siblingsLoop_spec d attributeNames toViewElement
             fireCheckElement fireCheckAttributes) in Hloop
      as (Hinv & _ & Hall & _).
    + destruct Hinv as (_ & Htrace & _). apply Htrace, Hall.
      apply elem_of_seq in Hb. lia.
    + intros j Hj. apply (iterateForward_isListItemBlock d listHead).
      rewrite iterateForward_seq. fold k. apply elem_of_seq. lia.
    + split; [apply NoDup_nil_2 |]. cbn [csTrace csVisited].
      split; [intros v; rewrite elem_of_nil; set_solver |].
      split; intros v Hv; set_solver.
Qed.

(** X9.  One walk from a list head handles every block of the list, from
    the head to the last block before the first node that is no list
    block, exactly once, and no other block; the items it returns are
    among them. *)
Theorem collectListItemsToRefresh_covers (listHead : nat)
    (changedItems : gset nat) (items trace : list nat) :
  collect listHead changedItems = Some (items, trace) →
  trace ≡ₚ iterateSiblingListBlocks d (Some listHead) Forward ∧
  (∀ b, b ∈ items → b ∈ iterateSiblingListBlocks d (Some listHead) Forward).
Proof.
  intros Hrun.
  destruct (collectListItemsToRefresh_spec d attributeNames toViewElement
              fireCheckElement fireCheckAttributes _ _ _ _ Hrun)
    as (Hnd & _ & _ & Hitems).
  split.
  - apply NoDup_Permutation; [done | |].
    + rewrite iterateForward_seq. apply NoDup_seq.
    + intros b.
      by apply (collectListItemsToRefresh_trace listHead changedItems items).
  - intros b Hb.
    apply (collectListItemsToRefresh_trace listHead changedItems items trace);
      [done |].
    by destruct (Hitems b Hb).
Qed.

(** *** The checks *)

Lemma wrappingLoop_silent (stack : Stack)
    (indent : Z) (pre : list ViewElement) (root : ViewElement)
    (post : list ViewElement) :
  (∀ event e attributes, fireCheckAttributes event e attributes = false) →
  Forall (λ e, viewIsKind e EditableElement = false) pre →
  viewIsKind root EditableElement = true →
  let lists := length (filter (λ e, isListView e = true) pre) in
  wrappingLoop fireCheckAttributes stack indent (pre ++ root :: post) =
    Some (bool_decide (lists = 0%nat ∨ Z.of_nat lists ≤ indent)).
Proof.
  intros Hsilent Hpre Hroot. revert indent.
  induction Hpre as [|e pre He _ IH]; intros indent; cbn zeta.
  { cbn [app wrappingLoop]. rewrite Hroot.
    by rewrite bool_decide_eq_true_2 by (by left). }
  cbn [app wrappingLoop]. rewrite He, Hsilent.
  rewrite filter_cons. cbn zeta in IH.
  destruct (isListView e) eqn:Hlist.
  - cbn [negb andb]. rewrite decide_True by done. cbn [length].
    destruct (Z.ltb_spec (indent - 1) 0) as [Hneg | Hpos].
    + rewrite bool_decide_eq_false_2; [done |]. lia.
    + rewrite IH. f_equal. apply bool_decide_ext. lia.
  - rewrite decide_False by (by intros ?; congruence).
    destruct (isListItemView e); cbn [negb andb]; by rewrite IH.
Qed.

(** X10.  With listeners that object to no wrapper, a block that was not
    changed in the batch needs its wrappers refreshed exactly when its
    view element sits, below the editable root, in no list element at all
    or in fewer of them than the stack of the walk has levels.  With as
    many list elements as levels, or more, the block is left alone. *)
Theorem doesItemWrappingRequiresRefresh_silent (item : nat)
    (stack : Stack) (changedItems : gset nat)
    (mapped : MappedView) (pre : list ViewElement) (root : ViewElement)
    (post : list ViewElement) :
  (∀ event e attributes, fireCheckAttributes event e attributes = false) →
  item ∉ changedItems →
  toViewElement item = Some mapped →
  mvAncestors mapped = pre ++ root :: post →
  Forall (λ e, viewIsKind e EditableElement = false) pre →
  viewIsKind root EditableElement = true →
  let lists := length (filter (λ e, isListView e = true) pre) in
  wrappingCheck item stack changedItems =
    Some (bool_decide (lists = 0 ∨ lists < length (stackElements stack))%nat).
Proof.
  intros Hsilent Hchanged Hmapped Hancestors Hpre Hroot lists.
  unfold doesItemWrappingRequiresRefresh.
  rewrite bool_decide_eq_false_2 by done. rewrite Hmapped, Hancestors.
  rewrite wrappingLoop_silent by done. f_equal.
  apply bool_decide_ext. fold lists. lia.
Qed.

(** X11.  The check of the paragraph is quiet on a view that is up to
    date and speaks on one that is not.  For a paragraph with a view
    element on which no listener asks for a refresh: when the view
    element is the one [bogusParagraphCreator] makes for the block in the
    editing pipeline, or when the creator declines the block and the view
    element is no [span], no refresh is asked for; when the creator would
    make a bogus paragraph and the view element is a [p], or the creator
    declines and the view element is a [span], a refresh is asked
    for. *)
Theorem doesItemBlockRequiresRefresh_settled (item : nat)
    (mapped : MappedView) :
  toViewElement item = Some mapped →
  fireCheckElement item (mvElement mapped) = false →
  let created := bogusParagraphCreator attributeNames false d item in
  (created = Some (mvElement mapped) → blockCheck item None = false) ∧
  (created = None → viewIsElementNamed (mvElement mapped) "span" = false →
   blockCheck item None = false) ∧
  (nodeIsNamed d item "paragraph" = true → is_Some created →
   viewIsElementNamed (mvElement mapped) "p" = true →
   blockCheck item None = true) ∧
  (nodeIsNamed d item "paragraph" = true → created = None →
   viewIsElementNamed (mvElement mapped) "span" = true →
   blockCheck item None = true).
Proof.
  intros Hmapped Hquiet created. subst created.
  unfold doesItemBlockRequiresRefresh, bogusParagraphCreator.
  rewrite Hmapped, Hquiet.
  destruct (shouldUseBogusParagraph d item attributeNames None) eqn:Hbogus;
    cbn [negb andb].
  - split; [| split; [done |]; split; [| done]].
    + intros Hcreated. injection Hcreated as Hcreated.
      rewrite <- Hcreated.
      destruct (negb (nodeIsNamed d item "paragraph")
                && negb (nodeIsNamed d item "listItem")); done.
    + intros -> _ ->. done.
  - split; [done |]. split; [| split; [by intros _ [? ?] |]].
    + intros _ ->. by destruct (_ && _).
    + intros -> _ ->. done.
Qed.

End SchedulerFurther.

(** *** The scheduler on sample batches *)

Lemma reconvertItemsOnDataChange_unrelated_witness :
  reconvertItemsOnDataChange unlistedDocument listAttributeNames unmappedView
    noCheckElement noCheckAttributes unrelatedChanges
  = Some (mkSchedulerRun [] [] [] []).
Proof.
  apply reconvertItemsOnDataChange_unrelated.
  repeat constructor; cbn [leavesListsAlone]; try done.
  unfold listAttributeNames. intros Hin.
  repeat (apply elem_of_cons in Hin as [Hin | Hin]; [discriminate |]).
  by apply not_elem_of_nil in Hin.
Defined.

Lemma reconvertItemsOnDataChange_no_list_witness :
  ∃ run,
    reconvertItemsOnDataChange unlistedDocument listAttributeNames
      retypedItemView noCheckElement noCheckAttributes unlistChanges
    = Some run ∧
    srListHeads run = [] ∧ srTrace run = [] ∧ NoDup (srReconverted run) ∧
    ∀ b, b ∈ srReconverted run ↔
      ∃ key old,
        DiffAttribute b key old None ∈ unlistChanges ∧
        key ∈ listAttributeNames ∧
        doesItemBlockRequiresRefresh unlistedDocument listAttributeNames
          retypedItemView noCheckElement b None = true.
Proof.
  apply reconvertItemsOnDataChange_no_list.
  intros [|i]; reflexivity.
Defined.

Lemma reconvert_outside_lists_witness :
  ∃ key old,
    DiffAttribute 0 key old None ∈ unlistChanges ∧
    key ∈ listAttributeNames ∧
    doesItemBlockRequiresRefresh unlistedDocument listAttributeNames
      retypedItemView noCheckElement 0 None = true.
Proof.
  apply (reconvert_outside_lists unlistedDocument listAttributeNames
           retypedItemView noCheckElement noCheckAttributes unlistChanges
           (mkSchedulerRun [0%nat] [0%nat; 0%nat; 0%nat] [] [])).
  - vm_compute. reflexivity.
  - cbn [srReconverted]. apply list_elem_of_here.
  - reflexivity.
Defined.

Lemma collectListItemsToRefresh_covers_witness :
  [0%nat; 1%nat; 2%nat]
    ≡ₚ iterateSiblingListBlocks threeItemDocument (Some 0%nat) Forward ∧
  (∀ b, b ∈ [1%nat] →
     b ∈ iterateSiblingListBlocks threeItemDocument (Some 0%nat) Forward).
Proof.
  apply (collectListItemsToRefresh_covers threeItemDocument
           listAttributeNames threeItemView noCheckElement
           staleCheckAttributes 0 {[ 0%nat; 2%nat ]}).
  vm_compute. reflexivity.
Defined.

Lemma doesItemWrappingRequiresRefresh_silent_witness :
  doesItemWrappingRequiresRefresh threeItemView noCheckAttributes 0
    (mkStack [Some ∅] ∅) ∅ = Some false ∧
  doesItemWrappingRequiresRefresh threeItemView noCheckAttributes 0
    (mkStack [Some ∅; Some ∅] ∅) ∅ = Some true.
Proof.
  split.
  - apply (doesItemWrappingRequiresRefresh_silent threeItemView
             noCheckAttributes 0 (mkStack [Some ∅] ∅) ∅ (topLevelItemView "a")
             [createListItemElement 0 (Some (VStr "a"));
              createListElement 0 (Some (VStr "bulleted"))]
             rootEditable []); try done.
    by repeat constructor.
  - apply (doesItemWrappingRequiresRefresh_silent threeItemView
             noCheckAttributes 0 (mkStack [Some ∅; Some ∅] ∅) ∅ (topLevelItemView "a")
             [createListItemElement 0 (Some (VStr "a"));
              createListElement 0 (Some (VStr "bulleted"))]
             rootEditable []); try done.
    by repeat constructor.
Defined.

Lemma doesItemBlockRequiresRefresh_settled_witness :
  doesItemBlockRequiresRefresh singleItemDocument listAttributeNames
    retypedItemView noCheckElement 0 None = false ∧
  doesItemBlockRequiresRefresh unlistedDocument listAttributeNames
    retypedItemView noCheckElement 0 None = true.
Proof.
  split.
  - apply (proj1
      (doesItemBlockRequiresRefresh_settled singleItemDocument
         listAttributeNames retypedItemView noCheckElement 0
         (topLevelItemView "a") eq_refl eq_refl)).
    vm_compute. reflexivity.
  - by apply (proj2 (proj2 (proj2
      (doesItemBlockRequiresRefresh_settled unlistedDocument
         listAttributeNames retypedItemView noCheckElement 0
         (topLevelItemView "a") eq_refl eq_refl)))).
Defined.

(** ** The downcast converter, further *)

(** *** The consumer of the list attributes *)

Lemma consumableConsume_lookup (c : gmap (nat * string) bool) (node : nat)
    (event : string) (key : nat * string) :
  consumableConsume c node event !! key =
    if bool_decide (key = (node, event)) then consumed (c !! key)
    else c !! key.
Proof.
  unfold consumableConsume.
  destruct (decide (key = (node, event))) as [-> | Hne].
  - rewrite bool_decide_eq_true_2 by done.
    destruct (c !! (node, event)) as [[|]|] eqn:Hc; cbn [consumed].
    + by rewrite lookup_insert_eq.
    + done.
    + done.
  - rewrite bool_decide_eq_false_2 by done.
    destruct (c !! (node, event)) as [[|]|]; [| done..].
    by rewrite lookup_insert_ne.
Qed.

Lemma consumed_consumed (entry : option bool) :
  consumed (consumed entry) = consumed entry.
Proof. by destruct entry as [[|]|]. Qed.

Lemma consumeAll_lookup (events : list string) (c : gmap (nat * string) bool)
    (node other : nat) (event : string) :
  foldl (λ c event, consumableConsume c node event) c events
    !! (other, event) =
    if bool_decide (other = node ∧ event ∈ events)
    then consumed (c !! (other, event))
    else c !! (other, event).
Proof.
  revert c. induction events as [|e rest IH]; intros c.
  { cbn [foldl]. rewrite bool_decide_eq_false_2; [done |].
    intros [_ Hin]. by apply not_elem_of_nil in Hin. }
  cbn [foldl]. rewrite IH, consumableConsume_lookup.
  destruct (decide (other = node)) as [-> | Hother].
  2: { rewrite !bool_decide_eq_false_2; [done | | |]; naive_solver. }
  destruct (decide (event = e)) as [-> | Hevent].
  - rewrite (bool_decide_eq_true_2 ((node, e) = (node, e))) by done.
    rewrite (bool_decide_eq_true_2 (node = node ∧ e ∈ e :: rest))
      by (split; [done | left]).
    destruct (bool_decide (node = node ∧ e ∈ rest));
      [apply consumed_consumed | done].
  - rewrite (bool_decide_eq_false_2 ((node, event) = (node, e)))
      by congruence.
    apply (f_equal (λ b : bool,
                      if b then consumed (c !! (node, event))
                      else c !! (node, event))).
    apply bool_decide_ext. rewrite elem_of_cons. naive_solver.
Qed.

Lemma createAttributesConsumer_events (attributeNames : list string)
    (d : Document) (node : nat) (consumable : gmap (nat * string) bool)
    (event : string) :
  (createAttributesConsumer attributeNames d node consumable).1 = true →
  event ∈ consumerEvents attributeNames d node →
  consumableTest consumable node event ≠ Some false ∧
  consumableTest (createAttributesConsumer attributeNames d node consumable).2
    node event
  = consumed (consumableTest consumable node event).
Proof.
  unfold createAttributesConsumer, consumableTest.
  destruct (forallb _ _) eqn:Hall; cbn [negb fst snd]; [| done].
  intros _ Hevent. rewrite consumeAll_lookup.
  rewrite bool_decide_eq_true_2 by done.
  rewrite forallb_forall in Hall.
  specialize (Hall event (proj1 (list_elem_of_In _ _) Hevent)).
  apply negb_true_iff, bool_decide_eq_false in Hall. done.
Qed.

Lemma createAttributesConsumer_others (attributeNames : list string)
    (d : Document) (node : nat) (consumable : gmap (nat * string) bool)
    (other : nat) (event : string) :
  other ≠ node ∨ event ∉ consumerEvents attributeNames d node →
  consumableTest (createAttributesConsumer attributeNames d node consumable).2
    other event
  = consumableTest consumable other event.
Proof.
  intros Hwhy. unfold createAttributesConsumer, consumableTest.
  destruct (forallb _ _); cbn [negb snd]; [| done].
  rewrite consumeAll_lookup.
  rewrite bool_decide_eq_false_2; [done |]. naive_solver.
Qed.

(** X12.  The consumer of the list attributes consumes all or nothing.
    When the test of one of the events answers [false] the consumable is
    left as it is; otherwise the event of every list attribute set on the
    node is consumed, so that none of them is still consumable
    afterwards.  In both cases the events of other nodes, and the other
    events of the node, are what they were; and for a node that carries
    no list attribute the consumer answers [true] and changes nothing. *)
Theorem createAttributesConsumer_all_or_nothing (attributeNames : list string)
    (d : Document) (node : nat) (consumable : gmap (nat * string) bool) :
  let result := createAttributesConsumer attributeNames d node consumable in
  let events := consumerEvents attributeNames d node in
  (result.1 = false → result.2 = consumable) ∧
  (result.1 = true →
   ∀ event, event ∈ events →
     consumableTest consumable node event ≠ Some false ∧
     consumableTest result.2 node event
     = consumed (consumableTest consumable node event) ∧
     consumableTest result.2 node event ≠ Some true) ∧
  (∀ other event, other ≠ node ∨ event ∉ events →
     consumableTest result.2 other event
     = consumableTest consumable other event) ∧
  (events = [] → result = (true, consumable)).
Proof.
  cbn zeta. split; [apply createAttributesConsumer_false |].
  split; [| split; [apply createAttributesConsumer_others |]].
  - intros Hok event Hevent.
    destruct (createAttributesConsumer_events attributeNames d node
                consumable event Hok Hevent) as [Hbefore Hafter].
    split; [done |]. split; [done |]. rewrite Hafter.
    by destruct (consumableTest consumable node event) as [[|]|].
  - unfold createAttributesConsumer. by intros ->.
Qed.

Lemma consumerEvents_none (attributeNames : list string) (d : Document)
    (node : nat) (n : Node) :
  d !! node = Some n →
  (∀ name, name ∈ attributeNames → hasAttribute n name = false) →
  consumerEvents attributeNames d node = [].
Proof.
  intros Hn Hnone. unfold consumerEvents. rewrite Hn. cbn [from_option].
  induction attributeNames as [|name rest IH]; [done |].
  rewrite filter_cons.
  rewrite decide_False
    by (rewrite Hnone by apply list_elem_of_here; done).
  apply IH. intros name' Hin. apply Hnone. by right.
Qed.

(** X13.  The converter converts a block once however many of its list
    attributes trigger it.  When the event of a list attribute that is
    set on the block was still consumable before a run for a list
    attribute, that run either stopped at the test and changed nothing or
    consumed the event; either way every later run for the block,
    whatever the attribute that triggers it, leaves the view and the
    consumable as they are. *)
Theorem listItemDowncastConverter_once (attributeNames : list string)
    (strategies : list DowncastStrategy) (d : Document) (dataPipeline : bool)
    (listItem : nat) (attributeKey : string) (st st' : DowncastState)
    (attributeName : string) (n : Node) :
  listItemDowncastConverter attributeNames strategies d dataPipeline
    listItem attributeKey st = Some st' →
  attributeKey ∈ attributeNames →
  attributeName ∈ attributeNames →
  d !! listItem = Some n →
  hasAttribute n attributeName = true →
  consumableTest (dsConsumable st) listItem ("attribute:" ++ attributeName)
  = Some true →
  (st' = st
   ∨ consumableTest (dsConsumable st') listItem
       ("attribute:" ++ attributeName) = Some false) ∧
  ∀ attributeKey',
    listItemDowncastConverter attributeNames strategies d dataPipeline
      listItem attributeKey' st' = Some st'.
Proof.
  intros Hrun Hkey Hname Hn Hset Hconsumable.
  assert (("attribute:" ++ attributeName)%string
          ∈ consumerEvents attributeNames d listItem) as Hevent.
  { apply elem_of_consumerEvents. by exists attributeName, n. }
  pose proof (createAttributesConsumer_events attributeNames d listItem
                (dsConsumable st) ("attribute:" ++ attributeName)) as Hall.
  unfold listItemDowncastConverter in Hrun.
  apply includes_true in Hkey. rewrite Hkey in Hrun. cbn [negb] in Hrun.
  destruct (createAttributesConsumer attributeNames d listItem
              (dsConsumable st)) as [ok consumable] eqn:Hconsumer.
  cbn [fst snd] in Hall. destruct ok; cbn [negb] in Hrun.
  - destruct (dsView st !! listItem) as [v|]; [| done].
    cbn [mbind option_bind] in Hrun. injection Hrun as <-.
    cbn [dsConsumable].
    destruct (Hall eq_refl Hevent) as (_ & Hafter).
    rewrite Hconsumable in Hafter. cbn [consumed] in Hafter.
    split; [by right |]. intros attributeKey'.
    unfold listItemDowncastConverter.
    destruct (includes attributeNames attributeKey'); [| done].
    cbn [negb dsConsumable].
    assert ((createAttributesConsumer attributeNames d listItem
               consumable).1 = false) as Hfails.
    { apply failsConsumableTest_not_all. by exists attributeName, n. }
    destruct (createAttributesConsumer attributeNames d listItem consumable)
      as [ok' consumable'].
    cbn [fst] in Hfails. by rewrite Hfails.
  - injection Hrun as <-. split; [by left |]. intros attributeKey'.
    unfold listItemDowncastConverter.
    destruct (includes attributeNames attributeKey'); [| done].
    by rewrite Hconsumer.
Qed.

Lemma listItemDowncastConverter_once_witness :
  ∃ st',
    listItemDowncastConverter listAttributeNames [] singleItemDocument false
      0 "listType" (mkDowncastState singleItemView freshConsumable)
    = Some st' ∧
    consumableTest (dsConsumable st') 0 "attribute:listItemId" = Some false ∧
    listItemDowncastConverter listAttributeNames [] singleItemDocument false
      0 "listIndent" st' = Some st'.
Proof.
  destruct (listItemDowncastConverter listAttributeNames []
              singleItemDocument false 0 "listType"
              (mkDowncastState singleItemView freshConsumable))
    as [st'|] eqn:Hrun; [| by vm_compute in Hrun].
  exists st'. split; [done |].
  destruct (listItemDowncastConverter_once listAttributeNames []
              singleItemDocument false 0 "listType"
              (mkDowncastState singleItemView freshConsumable) st'
              "listItemId" (listParagraph "a" 0 "bulleted") Hrun)
    as [Hconsumed Hlater]; try done.
  - unfold listAttributeNames. do 2 right. left.
  - left.
  - split; [| apply Hlater].
    destruct Hconsumed as [-> | Hconsumed]; [| done].
    by vm_compute in Hrun.
Defined.

(** *** Markers *)

Lemma insertMarkers_none (d : Document) (listItem : nat) (dataPipeline : bool)
    (strategies : list DowncastStrategy) (viewRange : list ViewNode) :
  Forall (makesNoMarker d listItem dataPipeline) strategies →
  insertMarkers d listItem dataPipeline strategies viewRange = viewRange.
Proof.
  induction 1 as [|strategy rest Hstrategy _ IH]; [done |].
  destruct strategy as [scope name set | name create createWrapper canWrap];
    cbn [insertMarkers]; [done |].
  cbn [makesNoMarker] in Hstrategy. by rewrite Hstrategy.
Qed.

(** X15.  No marker is inserted for a block that is not the first block
    of its list item, whatever the strategies, and none when no item
    marker strategy makes a marker element for the block: the range is
    the range on the view element of the block.  A marker a strategy
    does make is put in front of what the range holds, flagged as a list
    item marker. *)
Theorem insertCustomMarkerElements_unchanged (d : Document) (listItem : nat)
    (viewRange : list ViewNode) (strategies : list DowncastStrategy)
    (dataPipeline : bool) :
  (isFirstBlockOfListItem d listItem = false →
   insertCustomMarkerElements d listItem viewRange strategies dataPipeline
   = viewRange) ∧
  (Forall (makesNoMarker d listItem dataPipeline) strategies →
   insertCustomMarkerElements d listItem viewRange strategies dataPipeline
   = viewRange) ∧
  (∀ name createElement markerElement,
     isFirstBlockOfListItem d listItem = true →
     strategies = [ItemMarkerStrategy name createElement None None] →
     createElement d listItem dataPipeline = Some markerElement →
     insertCustomMarkerElements d listItem viewRange strategies dataPipeline
     = ViewElem (setCustomProperty "listItemMarker" (VBool true)
                   markerElement) [] :: viewRange).
Proof.
  unfold insertCustomMarkerElements. split; [| split].
  - by intros ->.
  - intros Hnone. destruct (negb _); [done |]. by apply insertMarkers_none.
  - intros name createElement markerElement -> -> Hmarker.
    cbn [negb insertMarkers]. by rewrite Hmarker.
Qed.

Lemma removeMarkers_split (items : list WalkedItem) :
  ∃ before after,
    items = before ++ after ∧
    Forall (λ w, isMappedElement w = false) before ∧
    match after with
    | [] => True
    | w :: _ => isMappedElement w = true
    end ∧
    removeMarkers items
    = filter (λ w, isMarkerItem w = false) before ++ after.
Proof.
  induction items as [|w rest (before & after & Hitems & Hbefore & Hafter & IH)].
  { by exists [], []. }
  cbn [removeMarkers].
  destruct (isMappedElement w) eqn:Hmapped.
  { exists [], (w :: rest). by repeat split. }
  exists (w :: before), after.
  split; [by rewrite Hitems |]. split; [by constructor |].
  split; [done |].
  rewrite filter_cons. cbn [app].
  destruct (isMarkerItem w) eqn:Hmarker.
  - by rewrite decide_False by done.
  - rewrite decide_True by done. cbn [app]. by rewrite IH.
Qed.

Lemma dropWhile_split {A} (f : A → bool) (l : list A) :
  ∃ removed,
    l = removed ++ dropWhile f l ∧
    Forall (λ x, f x = true) removed ∧
    match dropWhile f l with
    | [] => True
    | x :: _ => f x = false
    end.
Proof.
  induction l as [|x rest (removed & Hrest & Hremoved & Hhead)].
  { by exists []. }
  cbn [dropWhile]. destruct (f x) eqn:Hx.
  - exists (x :: removed). split; [cbn [app]; by rewrite <- Hrest |].
    split; [by constructor | done].
  - exists []. by repeat split.
Qed.

Lemma dropWhile_head_false {A} (f : A → bool) (l : list A) :
  match l with
  | [] => True
  | x :: _ => f x = false
  end →
  dropWhile f l = l.
Proof. destruct l as [|x rest]; [done |]. cbn [dropWhile]. by intros ->. Qed.

(** X16.  [removeCustomMarkerElements] removes the markers of the block
    and nothing else.  Of the items a backward walk from the block
    yields, those up to the first element that is mapped to a model
    element lose the ones flagged as list item markers and keep the
    others in their order; that element and everything before it in the
    document (the markers of earlier blocks included) stay.  Above the
    block the innermost chain of item wrappers is removed, up to the
    first parent that is none; the range on the block is not touched. *)
Theorem removeCustomMarkerElements_spec (v : BlockView) :
  let v' := removeCustomMarkerElements v in
  bvRange v' = bvRange v ∧
  (∃ before after,
     bvPreceding v = before ++ after ∧
     Forall (λ w, isMappedElement w = false) before ∧
     match after with
     | [] => True
     | w :: _ => isMappedElement w = true
     end ∧
     bvPreceding v'
     = filter (λ w, isMarkerItem w = false) before ++ after) ∧
  (∃ wrappers,
     bvParents v = wrappers ++ bvParents v' ∧
     Forall (λ e, isItemWrapper e = true) wrappers ∧
     match bvParents v' with
     | [] => True
     | parent :: _ => isItemWrapper parent = false
     end).
Proof.
  cbn zeta. unfold removeCustomMarkerElements.
  cbn [bvRange bvParents bvPreceding].
  split; [done |]. split; [apply removeMarkers_split | apply dropWhile_split].
Qed.

(** X17.  [unwrapListItemBlock] removes exactly the innermost chain of
    [ul], [ol] and [li] attribute elements above the block: the parents
    it removes are all of this kind, the first parent that is left is
    not (so a list wrapper above it, or a list element that is no
    attribute element, stays), the range on the block and what precedes
    it are not touched, and unwrapping again changes nothing. *)
Theorem unwrapListItemBlock_spec (v : BlockView) :
  let v' := unwrapListItemBlock v in
  bvRange v' = bvRange v ∧
  bvPreceding v' = bvPreceding v ∧
  (∃ wrappers,
     bvParents v = wrappers ++ bvParents v' ∧
     Forall (λ e, isListWrapper e = true) wrappers ∧
     match bvParents v' with
     | [] => True
     | parent :: _ => isListWrapper parent = false
     end) ∧
  unwrapListItemBlock v' = v'.
Proof.
  cbn zeta. unfold unwrapListItemBlock.
  cbn [bvRange bvParents bvPreceding].
  split; [done |]. split; [done |].
  destruct (dropWhile_split isListWrapper (bvParents v))
    as (wrappers & Hparents & Hwrappers & Hhead).
  split; [by exists wrappers |].
  by rewrite dropWhile_head_false.
Qed.

(** *** Wrapping and unwrapping *)

Lemma withStrategyAttributes_keeps (d : Document)
    (strategies : list DowncastStrategy) (scope : AttributeScope)
    (block : nat) (wrapper : ViewElement) :
  Forall keepsElement strategies →
  viewKind (withStrategyAttributes d strategies scope block wrapper)
  = viewKind wrapper ∧
  viewName (withStrategyAttributes d strategies scope block wrapper)
  = viewName wrapper.
Proof.
  unfold withStrategyAttributes. intros Hkeeps. revert wrapper.
  induction Hkeeps as [|strategy rest Hstrategy _ IH]; intros wrapper;
    [done |].
  cbn [foldl].
  destruct strategy as [scope' name set | name create createWrapper canWrap];
    [| apply IH].
  cbn [keepsElement] in Hstrategy.
  destruct (bool_decide (scope' = scope)); [| apply IH].
  destruct (attrAt d block name) as [value|]; [| apply IH].
  destruct (IH (set value wrapper)) as [-> ->]. apply Hstrategy.
Qed.

Lemma wrappers_are_list_wrappers (d : Document)
    (strategies : list DowncastStrategy) (indent block : nat) :
  Forall keepsElement strategies →
  isListWrapper (itemWrapperAt d strategies indent block) = true ∧
  isListWrapper (listWrapperAt d strategies indent block) = true.
Proof.
  intros Hkeeps. unfold isListWrapper, viewIsKind, itemWrapperAt, listWrapperAt.
  destruct (withStrategyAttributes_keeps d strategies ScopeItem block
              (createListItemElement (Z.of_nat indent)
                 (attrAt d block "listItemId")) Hkeeps) as [-> ->].
  destruct (withStrategyAttributes_keeps d strategies ScopeList block
              (createListElement (Z.of_nat indent)
                 (attrAt d block "listType")) Hkeeps) as [-> ->].
  split; [done |]. cbn [createListElement viewKind viewName].
  by destruct (bool_decide (attrAt d block "listType"
                            = Some (VStr "numbered"))).
Qed.

Lemma nestIn_app (inner outer : list ViewElement) (viewRange : list ViewNode) :
  nestIn (inner ++ outer) viewRange = nestIn outer (nestIn inner viewRange).
Proof. unfold nestIn. apply foldl_app. Qed.

Lemma wrappedInPairs_nestIn (d : Document)
    (strategies : list DowncastStrategy) (governors : list nat) :
  Forall keepsElement strategies →
  ∀ (indent : nat) (viewRange : list ViewNode),
  ∃ wrappers,
    wrappedInPairs d strategies indent governors viewRange
    = nestIn wrappers viewRange ∧
    length wrappers = (2 * length governors)%nat ∧
    Forall (λ e, isListWrapper e = true) wrappers.
Proof.
  intros Hkeeps.
  induction governors as [|block rest IH]; intros indent viewRange.
  { by exists []. }
  cbn [wrappedInPairs].
  destruct (IH (pred indent)
              [ViewElem (listWrapperAt d strategies indent block)
                 [ViewElem (itemWrapperAt d strategies indent block)
                    viewRange]]) as (outer & Hwrapped & Hlength & Houter).
  destruct (wrappers_are_list_wrappers d strategies indent block Hkeeps)
    as [Hitem Hlist].
  exists ([itemWrapperAt d strategies indent block;
           listWrapperAt d strategies indent block] ++ outer).
  split; [by rewrite nestIn_app |].
  split; [cbn [length app]; lia |].
  by repeat constructor.
Qed.

Lemma dropWhile_app_true {A} (f : A → bool) (removed rest : list A) :
  Forall (λ x, f x = true) removed →
  dropWhile f (removed ++ rest) = dropWhile f rest.
Proof.
  induction 1 as [|x removed Hx _ IH]; [done |].
  cbn [app dropWhile]. by rewrite Hx.
Qed.

(** X18.  What [wrapListItemBlock] puts around a range,
    [unwrapListItemBlock] takes away.  With strategies that set
    attributes on the wrappers without changing their kind or name, the
    wrapped range is the given range inside a chain of elements, two per
    governing block, each of them an [ul], [ol] or [li] attribute
    element; and unwrapping a block that has this chain as its innermost
    parents gives what unwrapping gives without the chain. *)
Theorem wrapListItemBlock_unwrapped (d : Document)
    (strategies : list DowncastStrategy) (listItem : nat)
    (viewRange : list ViewNode) :
  Forall keepsElement strategies →
  ∃ wrappers,
    wrapListItemBlock d listItem viewRange strategies
    = nestIn wrappers viewRange ∧
    Forall (λ e, isListWrapper e = true) wrappers ∧
    (from_option (λ n, hasAttribute n "listIndent") false (d !! listItem)
     = false → wrappers = []) ∧
    ∀ content parents preceding,
      unwrapListItemBlock
        (mkBlockView content (wrappers ++ parents) preceding)
      = unwrapListItemBlock (mkBlockView content parents preceding).
Proof.
  intros Hkeeps.
  assert (∀ wrappers : list ViewElement,
            Forall (λ e, isListWrapper e = true) wrappers →
            ∀ content parents preceding,
              unwrapListItemBlock
                (mkBlockView content (wrappers ++ parents) preceding)
              = unwrapListItemBlock (mkBlockView content parents preceding))
    as Hunwrap.
  { intros wrappers Hwrappers content parents preceding.
    unfold unwrapListItemBlock. cbn [bvRange bvParents bvPreceding].
    by rewrite dropWhile_app_true. }
  unfold wrapListItemBlock.
  destruct (d !! listItem) as [n|] eqn:Hn;
    [| exists []; by repeat split].
  cbn [from_option].
  destruct (hasAttribute n "listIndent") eqn:Hindent; cbn [negb];
    [| exists []; by repeat split].
  destruct (listIndentOf n <? 0); [exists []; by repeat split |].
  rewrite wrapLoop_pairs.
  destruct (wrappedInPairs_nestIn d strategies
              (governingBlocks d (Z.to_nat (listIndentOf n)) listItem)
              Hkeeps (Z.to_nat (listIndentOf n)) viewRange)
    as (wrappers & Hwrapped & _ & Hwrappers).
  exists wrappers. split; [done |]. split; [done |]. split; [done |].
  by apply Hunwrap.
Qed.

Lemma wrapListItemBlock_unwrapped_witness :
  ∃ wrappers,
    wrapListItemBlock nestedDocument 2 [blockElement "C"] [listStyleStrategy]
    = nestIn wrappers [blockElement "C"] ∧
    Forall (λ e, isListWrapper e = true) wrappers ∧
    unwrapListItemBlock (mkBlockView [blockElement "C"] (wrappers ++ []) [])
    = mkBlockView [blockElement "C"] [] [].
Proof.
  destruct (wrapListItemBlock_unwrapped nestedDocument [listStyleStrategy] 2
              [blockElement "C"])
    as (wrappers & Hwrapped & Hwrappers & _ & Hunwrap).
  { by repeat constructor. }
  exists wrappers. split; [done |]. split; [done |]. by rewrite Hunwrap.
Defined.

(** X19.  A block that carries no list attribute any more is taken out
    of its list: when the converter runs for it, for a list attribute
    that was removed, the list wrappers above its view element and the
    markers before it are removed and none is put back: the range on the
    view element stays bare.  Nothing is consumed. *)
Theorem listItemDowncastConverter_unlisted (attributeNames : list string)
    (strategies : list DowncastStrategy) (d : Document) (dataPipeline : bool)
    (listItem : nat) (attributeKey : string) (st : DowncastState)
    (n : Node) (v : BlockView) :
  attributeKey ∈ attributeNames →
  d !! listItem = Some n →
  (∀ name, name ∈ attributeNames → hasAttribute n name = false) →
  hasAttribute n "listIndent" = false →
  Forall (makesNoMarker d listItem dataPipeline) strategies →
  dsView st !! listItem = Some v →
  listItemDowncastConverter attributeNames strategies d dataPipeline
    listItem attributeKey st
  = Some (mkDowncastState
            (<[listItem :=
                 mkBlockView (bvRange v)
                   (dropWhile isListWrapper
                      (dropWhile isItemWrapper (bvParents v)))
                   (removeMarkers (bvPreceding v))]> (dsView st))
            (dsConsumable st)).
Proof.
  intros Hkey Hn Hnone Hindent Hmarkers Hview.
  unfold listItemDowncastConverter.
  apply includes_true in Hkey. rewrite Hkey. cbn [negb].
  unfold createAttributesConsumer.
  rewrite (consumerEvents_none attributeNames d listItem n Hn Hnone).
  cbn [forallb negb foldl]. rewrite Hview. cbn [mbind option_bind].
  unfold insertCustomMarkerElements.
  rewrite insertMarkers_none by done.
  unfold wrapListItemBlock. rewrite Hn, Hindent. cbn [negb].
  unfold unwrapListItemBlock, removeCustomMarkerElements.
  cbn [bvRange bvParents bvPreceding].
  by destruct (negb (isFirstBlockOfListItem d listItem)).
Qed.

Lemma listItemDowncastConverter_unlisted_witness :
  listItemDowncastConverter listAttributeNames [listStyleStrategy]
    unlistedDocument false 0 "listItemId"
    (mkDowncastState singleItemView ∅)
  = Some (mkDowncastState
            {[ 0%nat :=
                 mkBlockView [ViewElem bogusSpan [ViewText "A"]] [] [] ]}
            ∅).
Proof.
  rewrite (listItemDowncastConverter_unlisted listAttributeNames
             [listStyleStrategy] unlistedDocument false 0 "listItemId"
             (mkDowncastState singleItemView ∅) plainParagraph
             (mkBlockView [ViewElem bogusSpan [ViewText "A"]]
                [createListItemElement 0 (Some (VStr "a"));
                 createListElement 0 (Some (VStr "bulleted"))]
                [])).
  - f_equal.
  - by left.
  - done.
  - done.
  - done.
  - by repeat constructor.
  - done.
Defined.

(** ** What the walks depend on *)

Lemma runFrom_ext (l l' : list Node) (i : nat) :
  (∀ k, from_option isListItemNode false (l !! k)
        = from_option isListItemNode false (l' !! k)) →
  runFrom i l = runFrom i l'.
Proof.
  revert l' i. induction l as [|n rest IH]; intros l' i Hsame.
  - destruct l' as [|n' rest']; [done |].
    specialize (Hsame 0%nat). cbn in Hsame. cbn [runFrom].
    by rewrite <- Hsame.
  - destruct l' as [|n' rest'].
    + specialize (Hsame 0%nat). cbn in Hsame. cbn [runFrom].
      by rewrite Hsame.
    + pose proof (Hsame 0%nat) as Hhead. cbn in Hhead. cbn [runFrom].
      rewrite <- Hhead. destruct (isListItemNode n); [| done].
      f_equal. apply IH. intros k. apply (Hsame (S k)).
Qed.

Lemma runBackFrom_ext (d d' : Document) (i : nat) :
  (∀ k, (k ≤ i)%nat → isListItemBlock d k = isListItemBlock d' k) →
  runBackFrom d i = runBackFrom d' i.
Proof.
  induction i as [|i IH]; intros Hsame.
  - cbn [runBackFrom]. by rewrite Hsame.
  - cbn [runBackFrom]. rewrite Hsame by done.
    destruct (isListItemBlock d' (S i)); [| done].
    f_equal. apply IH. intros k Hk. apply Hsame. lia.
Qed.

Lemma elem_of_runBackFrom (d : Document) (i j : nat) :
  j ∈ runBackFrom d i → (j ≤ i)%nat.
Proof.
  induction i as [|i IH]; cbn [runBackFrom];
    destruct (isListItemBlock d _).
  - intros ->%list_elem_of_singleton. done.
  - by intros ?%not_elem_of_nil.
  - intros [-> | Hj]%elem_of_cons; [done |]. apply IH in Hj. lia.
  - by intros ?%not_elem_of_nil.
Qed.

Lemma walkerLoop_ext (d d' : Document) (o : WalkerOptions) (start : nat)
    (ref : Z) (nodes : list nat) :
  (∀ j, j ∈ nodes → indentAt d j = indentAt d' j) →
  (∀ j key, j ∈ nodes → key ∈ woSameAttributes o →
     differsOn d start j key = differsOn d' start j key) →
  walkerLoop d o start ref nodes = walkerLoop d' o start ref nodes.
Proof.
  revert ref. induction nodes as [|j rest IH]; intros ref Hindent Hattrs;
    [done |].
  assert (walkerLoop d o start ref rest = walkerLoop d' o start ref rest)
    as Hrest.
  { apply IH; intros; [apply Hindent | apply Hattrs]; by try right. }
  assert (walkerLoop d o start (indentAt d' j) rest
          = walkerLoop d' o start (indentAt d' j) rest) as Hrest'.
  { apply IH; intros; [apply Hindent | apply Hattrs]; by try right. }
  cbn [walkerLoop]. rewrite (Hindent j) by left. cbn zeta.
  assert (existsb (differsOn d start j) (woSameAttributes o)
          = existsb (differsOn d' start j) (woSameAttributes o)) as ->.
  { assert (∀ keys, (∀ key, key ∈ keys → key ∈ woSameAttributes o) →
              existsb (differsOn d start j) keys
              = existsb (differsOn d' start j) keys) as Hkeys.
    { induction keys as [|key keys IHkeys]; intros Hin; [done |].
      cbn [existsb]. rewrite (Hattrs j key); [| left | apply Hin; left].
      f_equal. apply IHkeys. intros key' Hkey'. apply Hin. by right. }
    by apply Hkeys. }
  by rewrite Hrest, Hrest'.
Qed.

(** Two documents that have the same list blocks, with the same indents
    and item identities. *)
Lemma ListWalker_ext (d d' : Document) (start : nat) (dir : Direction) :
  length d = length d' →
  (∀ i, isListItemBlock d i = isListItemBlock d' i) →
  (∀ i, indentAt d i = indentAt d' i) →
  (∀ i, attrAt d i "listItemId" = attrAt d' i "listItemId") →
  ListWalker d start (itemBlocksOptions dir)
  = ListWalker d' start (itemBlocksOptions dir).
Proof.
  intros Hlength Hblocks Hindent Hid. unfold ListWalker.
  assert (walkerStartNode d (itemBlocksOptions dir) start
          = walkerStartNode d' (itemBlocksOptions dir) start) as ->.
  { unfold walkerStartNode, nextSibling. by rewrite Hlength. }
  assert (∀ from,
            iterateSiblingListBlocks d from dir
            = iterateSiblingListBlocks d' from dir) as ->.
  { intros [i|]; [| done]. destruct dir; cbn [iterateSiblingListBlocks].
    - apply runFrom_ext. intros k. rewrite !lookup_drop. apply Hblocks.
    - apply runBackFrom_ext. intros k _. apply Hblocks. }
  rewrite Hindent. apply walkerLoop_ext; [done |].
  intros j key _ Hkey. cbn [itemBlocksOptions woSameAttributes] in Hkey.
  apply list_elem_of_singleton in Hkey as ->.
  unfold differsOn. by rewrite !Hid.
Qed.

Lemma getAllListItemBlocks_ext (d d' : Document) (item : nat) :
  length d = length d' →
  (∀ i, isListItemBlock d i = isListItemBlock d' i) →
  (∀ i, indentAt d i = indentAt d' i) →
  (∀ i, attrAt d i "listItemId" = attrAt d' i "listItemId") →
  getAllListItemBlocks d item = getAllListItemBlocks d' item.
Proof.
  intros Hlength Hblocks Hindent Hid.
  unfold getAllListItemBlocks, getListItemBlocks.
  by rewrite !(ListWalker_ext d d' item _ Hlength Hblocks Hindent Hid).
Qed.

Lemma hasForeignAttribute_ext (attributeNames keys keys' : list string) :
  (∀ key, String.prefix "selection:" key = false →
     key ∈ keys ↔ key ∈ keys') →
  hasForeignAttribute attributeNames keys
  = hasForeignAttribute attributeNames keys'.
Proof.
  intros Hsame.
  destruct (hasForeignAttribute attributeNames keys) eqn:Hkeys,
    (hasForeignAttribute attributeNames keys') eqn:Hkeys'; try done.
  - rewrite hasForeignAttribute_false in Hkeys'.
    assert (hasForeignAttribute attributeNames keys = false) as Hno;
      [| congruence].
    apply hasForeignAttribute_false. intros key Hkey Hprefix.
    apply Hkeys'; [by apply Hsame | done].
  - rewrite hasForeignAttribute_false in Hkeys.
    assert (hasForeignAttribute attributeNames keys' = false) as Hno;
      [| congruence].
    apply hasForeignAttribute_false. intros key Hkey Hprefix.
    apply Hkeys; [by apply Hsame | done].
Qed.

(** X20.  The policy of the bogus paragraph does not see the selection
    attributes of a block: a block that differs from another one only in
    attributes whose key starts with [selection:] (added, removed or
    changed) gets the same answer, for the blocks of its item as the
    caller gives them and for the blocks the function looks up itself. *)
Theorem shouldUseBogusParagraph_selection (d : Document) (item : nat)
    (n n' : Node) (attributeNames : list string)
    (blocks : option (list nat)) :
  d !! item = Some n →
  nodeIsElement n' = nodeIsElement n →
  (∀ key, String.prefix "selection:" key = false →
     getAttribute n' key = getAttribute n key) →
  shouldUseBogusParagraph (<[item := n']> d) item attributeNames blocks
  = shouldUseBogusParagraph d item attributeNames blocks.
Proof.
  intros Hn Helement Hattrs. set (d' := <[item := n']> d).
  assert (item < length d)%nat as Hitem by (by apply lookup_lt_Some in Hn).
  assert (d' !! item = Some n') as Hn'
    by (by apply list_lookup_insert_eq).
  assert (∀ i, i ≠ item → d' !! i = d !! i) as Hother
    by (intros i Hi; by apply list_lookup_insert_ne).
  assert (isListItemNode n' = isListItemNode n) as Hnode.
  { unfold isListItemNode, hasAttribute. rewrite Helement.
    unfold getAttribute in Hattrs. by rewrite Hattrs. }
  assert (∀ i, isListItemBlock d' i = isListItemBlock d i) as Hblocks.
  { intros i. unfold isListItemBlock.
    destruct (decide (i = item)) as [-> | Hi];
      [by rewrite Hn, Hn' | by rewrite Hother]. }
  assert (∀ i, indentAt d' i = indentAt d i) as Hindent.
  { intros i. unfold indentAt.
    destruct (decide (i = item)) as [-> | Hi]; [| by rewrite Hother].
    rewrite Hn, Hn'. cbn [from_option]. unfold listIndentOf.
    by rewrite Hattrs. }
  assert (∀ i, attrAt d' i "listItemId" = attrAt d i "listItemId") as Hid.
  { intros i. unfold attrAt.
    destruct (decide (i = item)) as [-> | Hi]; [| by rewrite Hother].
    rewrite Hn, Hn'. cbn [mbind option_bind]. by apply Hattrs. }
  unfold shouldUseBogusParagraph.
  rewrite (getAllListItemBlocks_ext d' d item) by
    (try done; subst d'; apply length_insert).
  rewrite Hblocks, Hn, Hn'. cbn [from_option].
  rewrite (hasForeignAttribute_ext attributeNames (getAttributeKeys n')
             (getAttributeKeys n)); [done |].
  intros key Hprefix. rewrite !elem_of_getAttributeKeys.
  unfold getAttribute in Hattrs. by rewrite Hattrs.
Qed.

Lemma shouldUseBogusParagraph_selection_witness :
  shouldUseBogusParagraph
    (<[0%nat := mkNode true "paragraph"
                  (<["selection:bold" := VBool true]>
                     (nodeAttrs (listParagraph "a" 0 "bulleted")))]>
       singleItemDocument)
    0 listAttributeNames None = true.
Proof.
  rewrite (shouldUseBogusParagraph_selection singleItemDocument 0
             (listParagraph "a" 0 "bulleted")); try done.
  intros key Hprefix. unfold getAttribute. cbn [nodeAttrs].
  apply lookup_insert_ne. by intros <-.
Defined.

(** ** What the wrappers depend on *)

Lemma ListWalker_first_lower_ext (d d' : Document) (block : nat) :
  (∀ j, (j ≤ block)%nat → d !! j = d' !! j) →
  ListWalker_first d block lowerIndentOptions
  = ListWalker_first d' block lowerIndentOptions.
Proof.
  intros Hsame. unfold ListWalker_first, ListWalker.
  assert (∀ j, (j ≤ block)%nat → indentAt d j = indentAt d' j) as Hindent
    by (intros j Hj; unfold indentAt; by rewrite Hsame).
  rewrite Hindent by done. f_equal.
  destruct block as [|previous]; [done |].
  change (walkerStartNode d lowerIndentOptions (S previous))
    with (Some previous).
  change (walkerStartNode d' lowerIndentOptions (S previous))
    with (Some previous).
  change (woDirection lowerIndentOptions) with Backward.
  cbn [iterateSiblingListBlocks].
  rewrite <- (runBackFrom_ext d d' previous).
  2: { intros k Hk. unfold isListItemBlock. rewrite Hsame; [done | lia]. }
  apply walkerLoop_ext.
  - intros j Hj%elem_of_runBackFrom. apply Hindent. lia.
  - intros j key _ Hkey. by apply not_elem_of_nil in Hkey.
Qed.

Lemma applyStrategies_ext (d d' : Document)
    (strategies : list DowncastStrategy) (block : nat)
    (wrappers : ViewElement * ViewElement) :
  d !! block = d' !! block →
  applyStrategies d strategies block wrappers
  = applyStrategies d' strategies block wrappers.
Proof.
  intros Hsame. revert wrappers.
  induction strategies as [|strategy rest IH]; intros wrappers; [done |].
  destruct strategy as [scope name set | name create createWrapper canWrap];
    cbn [applyStrategies]; [| apply IH].
  unfold attrAt. rewrite Hsame.
  destruct (d' !! block ≫= λ n, getAttribute n name); apply IH.
Qed.

Lemma wrapLoop_ext (d d' : Document) (strategies : list DowncastStrategy)
    (indent : nat) (block : nat) (viewRange : list ViewNode) :
  (∀ j, (j ≤ block)%nat → d !! j = d' !! j) →
  wrapLoop d strategies indent block viewRange
  = wrapLoop d' strategies indent block viewRange.
Proof.
  revert block viewRange.
  induction indent as [|lower IH]; intros block viewRange Hsame.
  - cbn [wrapLoop]. unfold attrAt. rewrite (Hsame block) by done.
    by rewrite (applyStrategies_ext d d') by (by apply Hsame).
  - cbn [wrapLoop]. unfold attrAt. rewrite (Hsame block) by done.
    rewrite (applyStrategies_ext d d') by (by apply Hsame).
    rewrite <- (ListWalker_first_lower_ext d d' block Hsame).
    pose proof (ListWalker_first_lowerIndent d block) as Hparent.
    destruct (ListWalker_first d block lowerIndentOptions) as [parent|];
      [| done].
    destruct Hparent as (Hbefore & _).
    apply IH. intros j Hj. apply Hsame. lia.
Qed.

(** X21.  The wrappers of a block depend on the document up to the block
    only: two documents that hold the same nodes up to and including the
    block give the block the same wrappers, whatever follows it.  A
    change behind a block never asks for other wrappers around it. *)
Theorem wrapListItemBlock_local (d d' : Document) (listItem : nat)
    (viewRange : list ViewNode) (strategies : list DowncastStrategy) :
  (∀ j, (j ≤ listItem)%nat → d !! j = d' !! j) →
  wrapListItemBlock d listItem viewRange strategies
  = wrapListItemBlock d' listItem viewRange strategies.
Proof.
  intros Hsame. unfold wrapListItemBlock. rewrite <- (Hsame listItem) by done.
  destruct (d !! listItem) as [n|]; [| done].
  destruct (negb (hasAttribute n "listIndent")); [done |].
  destruct (listIndentOf n <? 0); [done |].
  by apply wrapLoop_ext.
Qed.

Lemma wrapListItemBlock_local_witness :
  wrapListItemBlock (nestedDocument ++ [plainParagraph]) 2
    [blockElement "C"] []
  = wrapListItemBlock nestedDocument 2 [blockElement "C"] [].
Proof.
  apply wrapListItemBlock_local.
  intros [|[|[|j]]] Hj; try done. lia.
Defined.

(** ** Errors of the scheduler *)



(** ** The wrappers of the converter and the check of the scheduler *)

Lemma wrappedInPairs_pairWrappers (d : Document)
    (strategies : list DowncastStrategy) (governors : list nat)
    (indent : nat) (viewRange : list ViewNode) :
  wrappedInPairs d strategies indent governors viewRange
  = nestIn (pairWrappers d strategies indent governors) viewRange.
Proof.
  revert indent viewRange.
  induction governors as [|block rest IH]; intros indent viewRange; [done |].
  cbn [wrappedInPairs pairWrappers]. by rewrite IH.
Qed.

Lemma pairWrappers_lists (d : Document) (strategies : list DowncastStrategy)
    (governors : list nat) (indent : nat) :
  Forall keepsElement strategies →
  Forall (λ e, viewIsKind e EditableElement = false)
    (pairWrappers d strategies indent governors) ∧
  length (filter (λ e, isListView e = true)
            (pairWrappers d strategies indent governors))
  = length governors.
Proof.
  intros Hkeeps. revert indent.
  induction governors as [|block rest IH]; intros indent; [done |].
  destruct (IH (pred indent)) as [Hkinds Hcount].
  cbn [pairWrappers].
  destruct (withStrategyAttributes_keeps d strategies ScopeItem block
              (createListItemElement (Z.of_nat indent)
                 (attrAt d block "listItemId")) Hkeeps) as [Hitemkind Hitemname].
  destruct (withStrategyAttributes_keeps d strategies ScopeList block
              (createListElement (Z.of_nat indent)
                 (attrAt d block "listType")) Hkeeps) as [Hlistkind Hlistname].
  fold (itemWrapperAt d strategies indent block) in Hitemkind, Hitemname.
  fold (listWrapperAt d strategies indent block) in Hlistkind, Hlistname.
  split.
  - constructor; [| constructor; [| done]]; unfold viewIsKind.
    + by rewrite Hitemkind.
    + by rewrite Hlistkind.
  - rewrite !filter_cons.
    assert (isListView (itemWrapperAt d strategies indent block) = false)
      as Hitem.
    { unfold isListView, viewIsElementNamed. by rewrite Hitemname. }
    assert (isListView (listWrapperAt d strategies indent block) = true)
      as Hlist.
    { unfold isListView, viewIsElementNamed. rewrite Hlistname.
      cbn [createListElement viewName].
      by destruct (bool_decide (attrAt d block "listType"
                                = Some (VStr "numbered"))). }
    rewrite decide_False by (by rewrite Hitem).
    rewrite decide_True by done. cbn [length]. by rewrite Hcount.
Qed.

(** X23.  A block in the wrappers the converter gives it passes the check
    of the scheduler.  [wrapListItemBlock] puts the range of a block of
    indent [n] in the wrappers of its governing blocks; when the view
    element of the block has exactly these wrappers between it and the
    editable root, and no listener objects, the check of the wrappers
    asks for a refresh only if the stack of the walk has more levels than
    the block has governing blocks: with a stack of at most that many
    levels (for a block with an ancestor at every level, [n + 1]) the
    block is left alone. *)
Theorem wrapped_block_passes_check (d : Document)
    (strategies : list DowncastStrategy) (listItem : nat) (node : Node)
    (n : nat) (viewRange : list ViewNode)
    (toViewElement : nat → option MappedView)
    (fireCheckAttributes :
       AttributesEvent → ViewElement → option (gmap string value) → bool)
    (element root : ViewElement) (post : list ViewElement)
    (stack : Stack) (changedItems : gset nat) :
  Forall keepsElement strategies →
  d !! listItem = Some node →
  getAttribute node "listIndent" = Some (VNum (Z.of_nat n)) →
  let governors := governingBlocks d n listItem in
  let wrappers := pairWrappers d strategies n governors in
  (∀ event e attributes, fireCheckAttributes event e attributes = false) →
  listItem ∉ changedItems →
  toViewElement listItem
  = Some (mkMappedView element (wrappers ++ root :: post)) →
  viewIsKind root EditableElement = true →
  wrapListItemBlock d listItem viewRange strategies
  = nestIn wrappers viewRange ∧
  (1 ≤ length governors ≤ S n)%nat ∧
  doesItemWrappingRequiresRefresh toViewElement fireCheckAttributes listItem
    stack changedItems
  = Some (bool_decide (length governors < length (stackElements stack))%nat).
Proof.
  intros Hkeeps Hnode Hindent governors wrappers Hsilent Hchanged Hview Hroot.
  destruct (pairWrappers_lists d strategies governors n Hkeeps)
    as [Hkinds Hcount].
  pose proof (governingBlocks_length d n listItem) as Hlength.
  fold governors in Hlength. fold wrappers in Hkinds, Hcount.
  split; [| split; [done |]].
  - unfold wrapListItemBlock, hasAttribute, listIndentOf.
    unfold getAttribute in Hindent. rewrite Hnode.
    rewrite bool_decide_eq_true_2 by (by eexists). cbn [negb].
    unfold getAttribute. rewrite Hindent.
    destruct (Z.ltb_spec (Z.of_nat n) 0) as [Hneg | _]; [lia |].
    rewrite Nat2Z.id, wrapLoop_pairs. apply wrappedInPairs_pairWrappers.
  - unfold doesItemWrappingRequiresRefresh.
    rewrite bool_decide_eq_false_2 by done. rewrite Hview.
    cbn [mvAncestors].
    rewrite (wrappingLoop_silent fireCheckAttributes) by done.
    cbn zeta. rewrite Hcount. f_equal. apply bool_decide_ext. lia.
Qed.

Lemma wrapped_block_passes_check_witness :
  wrapListItemBlock nestedDocument 2 [blockElement "C"] []
  = nestIn (pairWrappers nestedDocument [] 2 [2%nat; 1%nat; 0%nat])
      [blockElement "C"] ∧
  doesItemWrappingRequiresRefresh wrappedItemView noCheckAttributes 2
    (mkStack [Some ∅; Some ∅; Some ∅] ∅) ∅ = Some false.
Proof.
  destruct (wrapped_block_passes_check nestedDocument [] 2
              (listParagraph "c" 2 "bulleted") 2 [blockElement "C"]
              wrappedItemView noCheckAttributes
              (mkViewElement ContainerElement "p" None None ∅ ∅)
              rootEditable [] (mkStack [Some ∅; Some ∅; Some ∅] ∅) ∅)
    as (Hwrapped & _ & Hcheck); [done.. |].
  by split.
Defined.

(** ** The list heads the scan records *)

Lemma last_default {A} (l : list A) (a b : A) :
  l ≠ [] → List.last l a = List.last l b.
Proof.
  induction l as [|x [|y rest] IH]; intros Hne; [done | done |].
  change (List.last (y :: rest) a = List.last (y :: rest) b). by apply IH.
Qed.

Lemma runBackFrom_block (d : Document) (k : nat) :
  isListItemBlock d k = true →
  ∃ rest, runBackFrom d k = k :: rest.
Proof. intros Hk. destruct k; cbn [runBackFrom]; rewrite Hk; by eexists. Qed.

Lemma runBackFrom_blocks (d : Document) (k j : nat) :
  j ∈ runBackFrom d k → isListItemBlock d j = true.
Proof.
  induction k as [|k IH]; cbn [runBackFrom].
  - destruct (isListItemBlock d 0) eqn:Hk.
    + by intros ->%list_elem_of_singleton.
    + by intros ?%not_elem_of_nil.
  - destruct (isListItemBlock d (S k)) eqn:Hk.
    + intros [-> | Hj]%elem_of_cons; [done | by apply IH].
    + by intros ?%not_elem_of_nil.
Qed.

Lemma listHeadOf_same_run (d : Document) (k j : nat) :
  j ∈ runBackFrom d k → listHeadOf d j = listHeadOf d k.
Proof.
  induction k as [|k IH]; intros Hj.
  - cbn [runBackFrom] in Hj. destruct (isListItemBlock d 0); [| by
      apply not_elem_of_nil in Hj].
    by apply list_elem_of_singleton in Hj as ->.
  - pose proof (runBackFrom_blocks d (S k) j Hj) as Hblock.
    cbn [runBackFrom] in Hj.
    destruct (isListItemBlock d (S k)) eqn:Hk;
      [| by apply not_elem_of_nil in Hj].
    apply elem_of_cons in Hj as [-> | Hj]; [done |].
    rewrite (IH Hj). unfold listHeadOf. cbn [runBackFrom]. rewrite Hk.
    destruct (runBackFrom d k) as [|x rest] eqn:Hrun;
      [by apply not_elem_of_nil in Hj |].
    change (List.last (x :: rest) k = List.last (x :: rest) (S k)).
    by apply last_default.
Qed.

Lemma listHeadOf_run (d : Document) (k : nat) :
  isListItemBlock d k = true →
  (listHeadOf d k ≤ k)%nat ∧
  ∀ j, (listHeadOf d k ≤ j ≤ k)%nat → isListItemBlock d j = true.
Proof.
  induction k as [|k IH]; intros Hk.
  - unfold listHeadOf. cbn [runBackFrom]. rewrite Hk. cbn [List.last].
    split; [done |]. intros j Hj. by replace j with 0%nat by lia.
  - unfold listHeadOf. cbn [runBackFrom]. rewrite Hk.
    destruct (isListItemBlock d k) eqn:Hprevious.
    + destruct (IH eq_refl) as [Hle Hrun].
      destruct (runBackFrom_block d k Hprevious) as [rest Hrest].
      assert (List.last (S k :: runBackFrom d k) (S k) = listHeadOf d k)
        as ->.
      { unfold listHeadOf. rewrite Hrest.
        change (List.last (k :: rest) (S k) = List.last (k :: rest) k).
        by apply last_default. }
      split; [lia |]. intros j Hj.
      destruct (decide (j = S k)) as [-> | Hne]; [done |].
      apply Hrun. lia.
    + assert (runBackFrom d k = []) as ->
        by (destruct k; cbn [runBackFrom]; by rewrite Hprevious).
      cbn [List.last]. split; [done |]. intros j Hj.
      by replace j with (S k) by lia.
Qed.

(** A list block lies in the forward iteration from the head of its run. *)
Lemma listHeadOf_iterate (d : Document) (k : nat) :
  isListItemBlock d k = true →
  k ∈ iterateSiblingListBlocks d (Some (listHeadOf d k)) Forward.
Proof.
  intros Hk. destruct (listHeadOf_run d k Hk) as [Hle Hrun].
  rewrite iterateForward_seq. apply elem_of_seq. split; [done |].
  pose proof (iterateForward_boundary d (listHeadOf d k)) as Hend.
  set (len := length (iterateSiblingListBlocks d (Some (listHeadOf d k))
                        Forward)) in *.
  destruct (decide (k < listHeadOf d k + len)%nat) as [|Hge]; [done |].
  rewrite Hrun in Hend by lia. done.
Qed.

Lemma elem_of_mapSet (key v : nat) (m : list (nat * nat)) (k' v' : nat) :
  (k', v') ∈ mapSet key v m →
  (k' = key ∧ v' = v) ∨ (k', v') ∈ m.
Proof.
  induction m as [|[k w] rest IH]; cbn [mapSet].
  - intros Hin%list_elem_of_singleton. injection Hin as -> ->. by left.
  - destruct (bool_decide (k = key)) eqn:Hk.
    + apply bool_decide_eq_true in Hk as ->.
      intros [Hin | Hin]%elem_of_cons.
      * injection Hin as -> ->. by left.
      * right. by right.
    + intros [Hin | Hin]%elem_of_cons.
      * right. rewrite Hin. left.
      * destruct (IH Hin) as [? | ?]; [by left |]. right. by right.
Qed.

Lemma mapSet_keys (key v : nat) (m : list (nat * nat)) (k : nat) :
  k ∈ (mapSet key v m).*1 ↔ k = key ∨ k ∈ m.*1.
Proof.
  induction m as [|[k' w] rest IH]; cbn [mapSet].
  - cbn. rewrite list_elem_of_singleton, elem_of_nil. tauto.
  - destruct (bool_decide (k' = key)) eqn:Hk.
    + apply bool_decide_eq_true in Hk as ->. cbn.
      rewrite !elem_of_cons. tauto.
    + rewrite fmap_cons, !elem_of_cons, IH, fmap_cons, elem_of_cons. cbn.
      tauto.
Qed.

Section ListHeads.

Variable d : Document.

Lemma listHeadOf_first (position : nat) :
  isListItemBlock d position = true →
  (∀ q, position = S q → isListItemBlock d q = false) →
  listHeadOf d position = position.
Proof.
  intros Hblock Hfirst. unfold listHeadOf.
  destruct position as [|q]; cbn [runBackFrom]; rewrite Hblock; [done |].
  assert (runBackFrom d q = []) as ->; [| done].
  destruct q; cbn [runBackFrom]; by rewrite (Hfirst _ eq_refl).
Qed.

Lemma findAndAddListHeadToMap_recorded (position : nat)
    (m : list (nat * nat)) :
  headsRecorded d m → headsRecorded d (findAndAddListHeadToMap d position m).
Proof.
  intros Hm. unfold findAndAddListHeadToMap.
  assert (isListItemBlock d position = true →
          (∀ q, position = S q → isListItemBlock d q = false) →
          headsRecorded d (mapSet position position m)) as Hfirst.
  { intros Hblock Hprevious k v [[-> ->] | Hin]%elem_of_mapSet;
      [| by apply Hm].
    split; [done |]. by rewrite listHeadOf_first. }
  destruct position as [|previousNode]; cbn [previousSibling].
  { destruct (isListItemBlock d 0) eqn:Hblock; [| done].
    by apply Hfirst. }
  destruct (isListItemBlock d previousNode) eqn:Hprevious.
  - cbn [iterateSiblingListBlocks].
    destruct (existsb _ _); [done |].
    intros k v [[-> ->] | Hin]%elem_of_mapSet; [| by apply Hm].
    done.
  - destruct (isListItemBlock d (S previousNode)) eqn:Hblock; [| done].
    apply Hfirst; [done |]. by intros q [= <-].
Qed.

Lemma findAndAddListHeadToMap_keys (position : nat) (m : list (nat * nat))
    (k : nat) :
  k ∈ m.*1 → k ∈ (findAndAddListHeadToMap d position m).*1.
Proof.
  intros Hk. unfold findAndAddListHeadToMap.
  destruct (previousSibling position) as [previousNode|].
  - destruct (isListItemBlock d previousNode).
    + destruct (existsb _ _); [done |]. apply mapSet_keys. by right.
    + destruct (isListItemBlock d position); [| done].
      apply mapSet_keys. by right.
  - destruct (isListItemBlock d position); [| done].
    apply mapSet_keys. by right.
Qed.

Lemma findAndAddListHeadToMap_records (position block : nat)
    (m : list (nat * nat)) :
  recordedAt d position block →
  ∃ k, k ∈ runBackFrom d block ∧
       k ∈ (findAndAddListHeadToMap d position m).*1.
Proof.
  intros [Hblock [-> | [-> Hfirst]]]; unfold findAndAddListHeadToMap.
  - cbn [previousSibling iterateSiblingListBlocks]. rewrite Hblock.
    destruct (existsb (mapHas m) (runBackFrom d block)) eqn:Hknown.
    + apply existsb_exists in Hknown as (k & Hk & Hhas).
      exists k. split; [by apply list_elem_of_In |].
      unfold mapHas in Hhas. by apply bool_decide_eq_true in Hhas.
    + exists block. split.
      * destruct (runBackFrom_block d block Hblock) as [rest ->]. left.
      * apply mapSet_keys. by left.
  - exists block.
    split; [destruct (runBackFrom_block d block Hblock) as [rest ->]; left |].
    destruct block as [|q]; cbn [previousSibling].
    + rewrite Hblock. apply mapSet_keys. by left.
    + rewrite (Hfirst q eq_refl), Hblock. apply mapSet_keys. by left.
Qed.

Variable attributeNames : list string.
Variable toViewElement : nat → option MappedView.
Variable fireCheckElement : nat → ViewElement → bool.
Variable fireCheckAttributes :
  AttributesEvent → ViewElement → option (gmap string value) → bool.

Lemma scanEntry_heads (st : ScanState) (entry : DiffItem) :
  ssItemToListHead
    (scanEntry d attributeNames toViewElement fireCheckElement st entry)
  = foldl (λ m position, findAndAddListHeadToMap d position m)
      (ssItemToListHead st) (scannedPositions attributeNames entry).
Proof.
  destruct entry as [name attrs position len | name attrs position len
                    | rangeStart key old new];
    cbn [scanEntry scannedPositions].
  - destruct (bool_decide (name = "$text"%string)); cbn [negb]; [done |].
    by destruct (bool_decide (is_Some (attrs !! "listItemId"%string))).
  - by destruct (bool_decide (is_Some (attrs !! "listItemId"%string))).
  - destruct (includes attributeNames key).
    + destruct new as [v|]; [done |].
      by destruct (doesItemBlockRequiresRefresh _ _ _ _ _ _).
    + destruct (isListItemBlock d rangeStart); [| done].
      by destruct (doesItemBlockRequiresRefresh _ _ _ _ _ _).
Qed.

Lemma scanChanges_heads (changes : list DiffItem) (st : ScanState) :
  ssItemToListHead
    (foldl (scanEntry d attributeNames toViewElement fireCheckElement)
       st changes)
  = foldl (λ m position, findAndAddListHeadToMap d position m)
      (ssItemToListHead st)
      (changes ≫= scannedPositions attributeNames).
Proof.
  revert st. induction changes as [|entry rest IH]; intros st; [done |].
  cbn [foldl]. rewrite IH, scanEntry_heads.
  change ((entry :: rest) ≫= scannedPositions attributeNames)
    with (scannedPositions attributeNames entry
          ++ (rest ≫= scannedPositions attributeNames)).
  by rewrite foldl_app.
Qed.

Lemma positions_recorded (positions : list nat) (m : list (nat * nat)) :
  headsRecorded d m →
  headsRecorded d
    (foldl (λ m position, findAndAddListHeadToMap d position m) m positions).
Proof.
  revert m. induction positions as [|position rest IH]; intros m Hm; [done |].
  cbn [foldl]. by apply IH, findAndAddListHeadToMap_recorded.
Qed.

Lemma positions_keys (positions : list nat) (m : list (nat * nat)) (k : nat) :
  k ∈ m.*1 →
  k ∈ (foldl (λ m position, findAndAddListHeadToMap d position m) m
         positions).*1.
Proof.
  revert m. induction positions as [|position rest IH]; intros m Hk; [done |].
  cbn [foldl]. by apply IH, findAndAddListHeadToMap_keys.
Qed.

Lemma positions_record (positions : list nat) (m : list (nat * nat))
    (position block : nat) :
  headsRecorded d m →
  position ∈ positions → recordedAt d position block →
  listHeadOf d block
  ∈ mapValues
      (foldl (λ m position, findAndAddListHeadToMap d position m) m
         positions).
Proof.
  revert m. induction positions as [|p rest IH]; intros m Hm Hin Hrecorded.
  { by apply not_elem_of_nil in Hin. }
  cbn [foldl].
  apply elem_of_cons in Hin as [<- | Hin].
  2: { apply IH; [by apply findAndAddListHeadToMap_recorded | done..]. }
  destruct (findAndAddListHeadToMap_records position block m Hrecorded)
    as (k & Hrun & Hkey).
  pose proof (positions_keys rest _ k Hkey) as Hfinal.
  apply list_elem_of_fmap in Hfinal as ([k' v] & -> & Hentry).
  cbn [fst] in Hrun.
  assert (headsRecorded d
            (foldl (λ m position, findAndAddListHeadToMap d position m)
               (findAndAddListHeadToMap d position m) rest)) as Hall
    by (by apply positions_recorded, findAndAddListHeadToMap_recorded).
  destruct (Hall k' v Hentry) as [_ ->].
  rewrite (listHeadOf_same_run d block k' Hrun) in Hentry.
  unfold mapValues. apply list_elem_of_fmap.
  by exists (k', listHeadOf d block).
Qed.

(** X24.  The scheduler walks the whole list next to every place it looks
    at.  For an entry of the batch it looks for a list head at the
    position of an insertion, of a removal of a list item and of a change
    of a list attribute, and also behind an inserted node that is no list
    item and behind a block that lost a list attribute.  When the block
    before such a position is a list block, or else the block at it is
    one, the first block of the run of list blocks around that block is
    among the list heads walked, and every block of the list it heads
    (the block itself included) is handled in the run. *)
Theorem reconvert_walks_changed_list (changes : list DiffItem)
    (run : SchedulerRun) (entry : DiffItem) (position block : nat) :
  reconvertItemsOnDataChange d attributeNames toViewElement fireCheckElement
    fireCheckAttributes changes = Some run →
  entry ∈ changes →
  position ∈ scannedPositions attributeNames entry →
  recordedAt d position block →
  let listHead := listHeadOf d block in
  listHead ∈ srListHeads run ∧
  block ∈ iterateSiblingListBlocks d (Some listHead) Forward ∧
  ∀ b, b ∈ iterateSiblingListBlocks d (Some listHead) Forward →
    b ∈ srTrace run.
Proof.
  intros Hrun Hentry Hposition Hrecorded listHead.
  destruct (reconvertItemsOnDataChange_spec d attributeNames toViewElement
              fireCheckElement fireCheckAttributes changes run Hrun)
    as (Hheads & _ & added & walks & _ & Htrace & Hwalks & _).
  assert (listHead ∈ srListHeads run) as Hhead.
  { rewrite Hheads. unfold scanChanges. rewrite scanChanges_heads.
    cbn [ssItemToListHead].
    apply (positions_record _ _ position block); [| | done].
    - intros k v Hin. by apply not_elem_of_nil in Hin.
    - apply list_elem_of_bind. by exists entry. }
  split; [done |]. split; [apply listHeadOf_iterate, Hrecorded |].
  intros b Hb. rewrite Htrace.
  apply list_elem_of_lookup in Hhead as [i Hi].
  destruct (Forall2_lookup_l _ _ _ _ _ Hwalks Hi)
    as (walk & Hwalk & pushed & Hcollect).
  apply list_elem_of_In, in_concat. exists walk.
  split; [apply list_elem_of_In; by apply list_elem_of_lookup_2 in Hwalk |].
  apply list_elem_of_In.
  by apply (collectListItemsToRefresh_trace d attributeNames toViewElement
              fireCheckElement fireCheckAttributes _ _ _ _ b Hcollect).
Qed.

End ListHeads.

Lemma reconvert_walks_changed_list_witness :
  ∃ run,
    reconvertItemsOnDataChange threeItemDocument listAttributeNames
      threeItemView noCheckElement noCheckAttributes lastItemRemoved
    = Some run ∧
    0%nat ∈ srListHeads run ∧
    ∀ b, b ∈ iterateSiblingListBlocks threeItemDocument (Some 0%nat) Forward →
      b ∈ srTrace run.
Proof.
  destruct (reconvertItemsOnDataChange threeItemDocument listAttributeNames
              threeItemView noCheckElement noCheckAttributes lastItemRemoved)
    as [run|] eqn:Hrun; [| by vm_compute in Hrun].
  exists run. split; [done |].
  destruct (reconvert_walks_changed_list threeItemDocument
              listAttributeNames threeItemView noCheckElement
              noCheckAttributes lastItemRemoved run
              (DiffRemove "paragraph" {[ "listItemId"%string := VStr "d" ]}
                 3 1)
              3 2 Hrun) as (Hhead & _ & Htrace).
  - left.
  - left.
  - split; [done |]. by left.
  - by split.
Defined.

(** ** The stack of a walk *)

Lemma resize_hole_lookup (n : nat) (stack : list (option (gmap string value)))
    (j : nat) :
  (j < n)%nat → mjoin (resize n None stack !! j) = mjoin (stack !! j).
Proof.
  intros Hj. destruct (decide (j < length stack)%nat) as [Hin | Hout].
  - by rewrite lookup_resize.
  - rewrite lookup_resize_new, (lookup_ge_None_2 stack j) by lia. done.
Qed.

Lemma stackGet_stackSet (i : Z) (attributes : gmap string value)
    (stack : Stack) (level : Z) :
  stackGet (stackSet i attributes stack) level =
    if bool_decide (level = i) then Some attributes
    else stackGet stack level.
Proof.
  unfold stackGet, stackSet.
  destruct (isArrayIndex i) eqn:Hi; cbn [stackElements stackProperties].
  - destruct (isArrayIndex level) eqn:Hlevel.
    + apply andb_prop in Hi as [Hi _]. apply andb_prop in Hlevel as [Hl _].
      apply Z.leb_le in Hi, Hl.
      destruct (decide (level = i)) as [-> | Hne].
      * rewrite bool_decide_eq_true_2 by done.
        rewrite list_lookup_insert_eq; [done |]. rewrite length_resize. lia.
      * rewrite bool_decide_eq_false_2 by done.
        rewrite list_lookup_insert_ne by lia.
        destruct (decide (Z.to_nat level
                          < S (Z.to_nat i) `max` length (stackElements stack))%nat)
          as [Hin | Hout].
        -- by apply resize_hole_lookup.
        -- rewrite lookup_resize_old, (lookup_ge_None_2 (stackElements stack))
             by lia. done.
    + rewrite bool_decide_eq_false_2; [done |]. intros ->. congruence.
  - destruct (decide (level = i)) as [-> | Hne].
    + rewrite bool_decide_eq_true_2 by done. rewrite Hi.
      by rewrite lookup_insert_eq.
    + rewrite bool_decide_eq_false_2 by done.
      destruct (isArrayIndex level); [done |]. by rewrite lookup_insert_ne.
Qed.

Lemma stackGet_stackSetLength (n : Z) (stack stack' : Stack) (level : Z) :
  stackSetLength n stack = Some stack' →
  stackGet stack' level =
    if isArrayIndex level && negb (level <? n) then None
    else stackGet stack level.
Proof.
  unfold stackSetLength. intros Hset.
  destruct ((n <? 0) || (4294967295 <? n)) eqn:Hn; [done |].
  injection Hset as <-. apply orb_false_elim in Hn as [Hn _].
  apply Z.ltb_ge in Hn.
  unfold stackGet. cbn [stackElements stackProperties].
  destruct (isArrayIndex level) eqn:Hlevel; [| done].
  apply andb_prop in Hlevel as [Hl _]. apply Z.leb_le in Hl.
  destruct (Z.ltb_spec level n) as [Hin | Hout]; cbn [andb negb].
  - apply resize_hole_lookup. lia.
  - rewrite lookup_ge_None_2; [done |]. rewrite length_resize. lia.
Qed.

Lemma stackSetLength_length (n : Z) (stack stack' : Stack) :
  stackSetLength n stack = Some stack' →
  0 ≤ n ≤ 4294967295 ∧ length (stackElements stack') = Z.to_nat n.
Proof.
  unfold stackSetLength.
  destruct (Z.ltb_spec n 0); [done |].
  destruct (Z.ltb_spec 4294967295 n); [done |].
  cbn [orb]. intros [= <-]. cbn [stackElements].
  rewrite length_resize. lia.
Qed.

Section WalkStack.

Variable d : Document.
Variable attributeNames : list string.
Variable toViewElement : nat → option MappedView.
Variable fireCheckElement : nat → ViewElement → bool.
Variable fireCheckAttributes :
  AttributesEvent → ViewElement → option (gmap string value) → bool.


End WalkStack.


(** * The scheduler on the batches of the differ *)

(** ** Every list is walked once *)

Lemma mapSet_NoDup (key v : nat) (m : list (nat * nat)) :
  NoDup m.*1 → NoDup (mapSet key v m).*1.
Proof.
  induction m as [|[k w] rest IH]; cbn [mapSet].
  - intros _. cbn. apply NoDup_singleton.
  - rewrite fmap_cons. cbn [fst]. intros [Hk Hrest]%NoDup_cons.
    destruct (bool_decide (k = key)) eqn:Hkey.
    + rewrite fmap_cons. cbn [fst]. by apply NoDup_cons.
    + apply bool_decide_eq_false in Hkey.
      rewrite fmap_cons. cbn [fst]. apply NoDup_cons. split; [| by apply IH].
      rewrite mapSet_keys. intros [? | ?]; done.
Qed.

Lemma runBackFrom_elem (d : Document) (k j : nat) :
  isListItemBlock d k = true →
  (listHeadOf d k ≤ j ≤ k)%nat → j ∈ runBackFrom d k.
Proof.
  induction k as [|k IH]; intros Hk Hj.
  - destruct (runBackFrom_block d 0 Hk) as [rest ->].
    replace j with 0%nat by lia. left.
  - destruct (decide (j = S k)) as [-> | Hne].
    { destruct (runBackFrom_block d (S k) Hk) as [rest ->]. left. }
    cbn [runBackFrom]. rewrite Hk. right.
    destruct (isListItemBlock d k) eqn:Hprevious.
    + apply IH; [done |].
      assert (k ∈ runBackFrom d (S k)) as Hin.
      { cbn [runBackFrom]. rewrite Hk. right.
        destruct (runBackFrom_block d k Hprevious) as [rest ->]. left. }
      rewrite (listHeadOf_same_run d (S k) k Hin). lia.
    + assert (listHeadOf d (S k) = S k) as Hhead; [| lia].
      apply listHeadOf_first; [done |]. by intros q [= <-].
Qed.

Lemma listHeadOf_head (d : Document) (k q : nat) :
  isListItemBlock d k = true →
  listHeadOf d k = S q → isListItemBlock d q = false.
Proof.
  intros Hk Hhead.
  destruct (isListItemBlock d q) eqn:Hq; [| done].
  destruct (listHeadOf_run d k Hk) as [Hle Hrun].
  assert (S q ∈ runBackFrom d k) as Hin
    by (apply runBackFrom_elem; [done | lia]).
  apply listHeadOf_same_run in Hin.
  assert (q ∈ runBackFrom d (S q)) as Hin'.
  { cbn [runBackFrom]. rewrite (Hrun (S q)) by lia. right.
    destruct (runBackFrom_block d q Hq) as [rest ->]. left. }
  apply listHeadOf_same_run in Hin'.
  destruct (listHeadOf_run d q Hq) as [Hle' _]. lia.
Qed.

(** The runs of two list heads that differ share no block. *)
Lemma iterate_heads_disjoint (d : Document) (k1 k2 b : nat) :
  isListItemBlock d k1 = true → isListItemBlock d k2 = true →
  b ∈ iterateSiblingListBlocks d (Some (listHeadOf d k1)) Forward →
  b ∈ iterateSiblingListBlocks d (Some (listHeadOf d k2)) Forward →
  listHeadOf d k1 = listHeadOf d k2.
Proof.
  assert (∀ k1 k2, isListItemBlock d k1 = true → isListItemBlock d k2 = true →
            b ∈ iterateSiblingListBlocks d (Some (listHeadOf d k1)) Forward →
            b ∈ iterateSiblingListBlocks d (Some (listHeadOf d k2)) Forward →
            (listHeadOf d k1 ≤ listHeadOf d k2)%nat) as Hle.
  { clear k1 k2. intros k1 k2 Hk1 Hk2 Hb1 Hb2.
    destruct (decide (listHeadOf d k1 ≤ listHeadOf d k2)%nat) as [|Hgt];
      [done |].
    destruct (listHeadOf d k1) as [|q] eqn:Hhead; [lia |].
    pose proof (listHeadOf_head d k1 q Hk1 Hhead) as Hq.
    assert (isListItemBlock d q = true) as Hin; [| congruence].
    apply (iterateForward_isListItemBlock d (listHeadOf d k2)).
    rewrite iterateForward_seq in Hb1, Hb2 |- *.
    apply elem_of_seq in Hb1, Hb2. apply elem_of_seq. lia. }
  intros Hk1 Hk2 Hb1 Hb2.
  pose proof (Hle k1 k2 Hk1 Hk2 Hb1 Hb2).
  pose proof (Hle k2 k1 Hk2 Hk1 Hb2 Hb1). lia.
Qed.

Section Visits.

Variable d : Document.

Lemma findAndAddListHeadToMap_cases (position : nat) (m : list (nat * nat)) :
  findAndAddListHeadToMap d position m = m ∨
  ∃ key,
    findAndAddListHeadToMap d position m = mapSet key (listHeadOf d key) m ∧
    isListItemBlock d key = true ∧
    ((position = S key ∧ ∀ k, k ∈ runBackFrom d key → k ∉ m.*1) ∨
     (position = key ∧ listHeadOf d key = key)).
Proof.
  unfold findAndAddListHeadToMap.
  assert (isListItemBlock d position = true →
          (∀ q, position = S q → isListItemBlock d q = false) →
          ∃ key,
            mapSet position position m = mapSet key (listHeadOf d key) m ∧
            isListItemBlock d key = true ∧
            ((position = S key ∧ ∀ k, k ∈ runBackFrom d key → k ∉ m.*1) ∨
             (position = key ∧ listHeadOf d key = key))) as Hfirst.
  { intros Hblock Hprevious. exists position.
    rewrite listHeadOf_first by done. split; [done |]. split; [done |].
    by right. }
  destruct position as [|previousNode]; cbn [previousSibling].
  { destruct (isListItemBlock d 0) eqn:Hblock; [| by left].
    right. by apply Hfirst. }
  destruct (isListItemBlock d previousNode) eqn:Hprevious.
  - cbn [iterateSiblingListBlocks].
    destruct (existsb _ _) eqn:Hknown; [by left |].
    right. exists previousNode. split; [done |]. split; [done |]. left.
    split; [done |]. intros k Hk Hkey.
    assert (existsb (mapHas m) (runBackFrom d previousNode) = true);
      [| congruence].
    apply existsb_exists. exists k. split; [by apply list_elem_of_In |].
    by apply bool_decide_eq_true.
  - destruct (isListItemBlock d (S previousNode)) eqn:Hblock; [| by left].
    right. apply Hfirst; [done |]. by intros q [= <-].
Qed.

(** The scan of a position at or after the positions scanned before. *)
Lemma findAndAddListHeadToMap_oneKeyPerList (p : nat) (m : list (nat * nat)) :
  oneKeyPerList d m p →
  oneKeyPerList d (findAndAddListHeadToMap d p m) p.
Proof.
  intros (Hrecorded & Hnodup & Hone & Hbelow).
  pose proof (findAndAddListHeadToMap_recorded d p m Hrecorded) as Hrecorded'.
  destruct (findAndAddListHeadToMap_cases p m)
    as [-> | (key & Hset & Hkey & Hcase)]; [done |].
  rewrite Hset in Hrecorded' |- *.
  assert (∀ k, k ∈ m.*1 → isListItemBlock d k = true) as Hblocks.
  { intros k ([k' v] & -> & Hin)%list_elem_of_fmap.
    by destruct (Hrecorded _ _ Hin). }
  assert (∀ k, k ∈ m.*1 → listHeadOf d k = listHeadOf d key → k = key)
    as Hnew.
  { intros k Hk Hhead. destruct (decide (k = key)) as [| Hne]; [done |].
    exfalso. destruct (Hbelow k Hk) as [Hle Hfirst].
    destruct (listHeadOf_run d k (Hblocks k Hk)) as [Hhk _].
    destruct (listHeadOf_run d key Hkey) as [Hhkey _].
    destruct Hcase as [[-> Hnone] | [-> Hhead']].
    - destruct (decide (k ≤ key)%nat) as [Hlow | Hhigh].
      + apply (Hnone k); [| done]. apply runBackFrom_elem; [done | lia].
      + rewrite Hfirst in Hhead by lia. lia.
    - rewrite Hhead' in Hhead. rewrite Hfirst in Hhead by lia. done. }
  split; [done |]. split; [by apply mapSet_NoDup |]. split.
  - intros k1 k2 [-> | Hk1]%mapSet_keys [-> | Hk2]%mapSet_keys Hhead.
    + done.
    + symmetry. by apply Hnew.
    + by apply Hnew.
    + by apply Hone.
  - intros k [-> | Hk]%mapSet_keys; [| by apply Hbelow].
    destruct Hcase as [[-> _] | [-> Hhead]]; [split; lia | split; [lia | done]].
Qed.

(** The scan of the position after one that was just scanned. *)
Lemma findAndAddListHeadToMap_next (p : nat) (m : list (nat * nat)) :
  let m1 := findAndAddListHeadToMap d p m in
  oneKeyPerList d m1 p →
  oneKeyPerList d (findAndAddListHeadToMap d (S p) m1) p.
Proof.
  intros m1 (Hrecorded & Hnodup & Hone & Hbelow).
  pose proof (findAndAddListHeadToMap_recorded d (S p) m1 Hrecorded)
    as Hrecorded'.
  unfold findAndAddListHeadToMap in Hrecorded' |- *.
  cbn [previousSibling] in Hrecorded' |- *.
  destruct (isListItemBlock d p) eqn:Hp.
  - assert (∃ k, k ∈ runBackFrom d p ∧ k ∈ m1.*1) as (k & Hrun & Hkey).
    { destruct p as [|q].
      - apply findAndAddListHeadToMap_records. split; [done |]. right.
        split; [done |]. by intros q [=].
      - destruct (isListItemBlock d q) eqn:Hq.
        + destruct (findAndAddListHeadToMap_records d (S q) q m)
            as (k & Hrun & Hkey); [split; [done | by left] |].
          exists k. split; [| done]. cbn [runBackFrom]. rewrite Hp. by right.
        + apply findAndAddListHeadToMap_records. split; [done |]. right.
          split; [done |]. by intros q' [= <-]. }
    cbn [iterateSiblingListBlocks].
    assert (existsb (mapHas m1) (runBackFrom d p) = true) as ->; [| done].
    apply existsb_exists. exists k. split; [by apply list_elem_of_In |].
    by apply bool_decide_eq_true.
  - destruct (isListItemBlock d (S p)) eqn:Hnext; [| done].
    assert (listHeadOf d (S p) = S p) as Hhead.
    { apply listHeadOf_first; [done |]. by intros q [= <-]. }
    assert (∀ k, k ∈ m1.*1 → isListItemBlock d k = true) as Hblocks.
    { intros k ([k' v] & -> & Hin)%list_elem_of_fmap.
      by destruct (Hrecorded _ _ Hin). }
    assert (∀ k, k ∈ m1.*1 → listHeadOf d k = S p → k = S p) as Hnew.
    { intros k Hk Hheadk. destruct (Hbelow k Hk) as [Hle _].
      destruct (listHeadOf_run d k (Hblocks k Hk)) as [Hhk _]. lia. }
    split; [done |]. split; [by apply mapSet_NoDup |]. split.
    + intros k1 k2 [-> | Hk1]%mapSet_keys [-> | Hk2]%mapSet_keys Hheads.
      * done.
      * symmetry. apply Hnew; [done |]. by rewrite <- Hheads.
      * apply Hnew; [done |]. by rewrite Hheads.
      * by apply Hone.
    + intros k [-> | Hk]%mapSet_keys; [| by apply Hbelow]. done.
Qed.

Lemma oneKeyPerList_mono (m : list (nat * nat)) (p p' : nat) :
  (p ≤ p')%nat → oneKeyPerList d m p → oneKeyPerList d m p'.
Proof.
  intros Hle (Hrecorded & Hnodup & Hone & Hbelow).
  split; [done |]. split; [done |]. split; [done |].
  intros k Hk. destruct (Hbelow k Hk) as [Hk' Hfirst].
  split; [lia |]. intros Hge. apply Hfirst. lia.
Qed.

Variable attributeNames : list string.

Lemma scannedPositions_ordered (entry : DiffItem) :
  insertsOneElement entry →
  let p := entryPosition entry in
  scannedPositions attributeNames entry = [] ∨
  scannedPositions attributeNames entry = [p] ∨
  scannedPositions attributeNames entry = [p; S p].
Proof.
  destruct entry as [name attrs position len | name attrs position len
                    | rangeStart key old new];
    cbn [insertsOneElement scannedPositions entryPosition].
  - intros Hlen.
    destruct (bool_decide (name = "$text"%string)) eqn:Hname; [by left |].
    destruct (bool_decide (is_Some (attrs !! "listItemId"%string)));
      [right; by left |].
    apply bool_decide_eq_false in Hname.
    destruct Hlen as [? | ->]; [done |].
    right. right. by rewrite Nat.add_1_r.
  - intros _.
    destruct (bool_decide (is_Some (attrs !! "listItemId"%string)));
      [right; by left | by left].
  - intros _. destruct (includes attributeNames key); [| by left].
    destruct new as [v|]; [right; by left |].
    right. right. by rewrite Nat.add_1_r.
Qed.

Lemma scanChanges_oneKeyPerList (changes : list DiffItem)
    (m : list (nat * nat)) (p : nat) :
  nondecreasingFrom p (entryPosition <$> changes) →
  Forall insertsOneElement changes →
  oneKeyPerList d m p →
  ∃ p',
    oneKeyPerList d
      (foldl (λ m position, findAndAddListHeadToMap d position m) m
         (changes ≫= scannedPositions attributeNames)) p'.
Proof.
  revert m p. induction changes as [|entry rest IH];
    intros m p Hsorted Hlengths Hm.
  { by exists p. }
  cbn [fmap list_fmap nondecreasingFrom] in Hsorted.
  destruct Hsorted as [Hle Hsorted].
  apply Forall_cons in Hlengths as [Hlength Hlengths].
  change ((entry :: rest) ≫= scannedPositions attributeNames)
    with (scannedPositions attributeNames entry
          ++ (rest ≫= scannedPositions attributeNames)).
  rewrite foldl_app.
  apply (IH _ (entryPosition entry)); [done | done |].
  apply (oneKeyPerList_mono m p (entryPosition entry)) in Hm; [| done].
  destruct (scannedPositions_ordered entry Hlength) as [-> | [-> | ->]];
    cbn [foldl].
  - done.
  - by apply findAndAddListHeadToMap_oneKeyPerList.
  - by apply findAndAddListHeadToMap_next,
      findAndAddListHeadToMap_oneKeyPerList.
Qed.

Lemma headsRecorded_values (m : list (nat * nat)) :
  headsRecorded d m → mapValues m = listHeadOf d <$> m.*1.
Proof.
  induction m as [|[k v] rest IH]; intros Hm; [done |].
  unfold mapValues. rewrite !fmap_cons. cbn [fst snd]. f_equal.
  - destruct (Hm k v) as [_ ->]; [left | done].
  - apply IH. intros k' v' Hin. apply Hm. by right.
Qed.

Lemma oneKeyPerList_values (m : list (nat * nat)) (p : nat) :
  oneKeyPerList d m p →
  NoDup (mapValues m) ∧
  ∀ v, v ∈ mapValues m → ∃ k, isListItemBlock d k = true ∧ v = listHeadOf d k.
Proof.
  intros (Hrecorded & Hnodup & Hone & _).
  rewrite (headsRecorded_values m Hrecorded). split.
  - by apply NoDup_fmap_2_strong.
  - intros v (k & -> & ([k' v'] & -> & Hin)%list_elem_of_fmap)%list_elem_of_fmap.
    exists k'. by destruct (Hrecorded _ _ Hin).
Qed.

Variable toViewElement : nat → option MappedView.
Variable fireCheckElement : nat → ViewElement → bool.
Variable fireCheckAttributes :
  AttributesEvent → ViewElement → option (gmap string value) → bool.

Local Abbreviation collect :=
  (collectListItemsToRefresh d attributeNames toViewElement
     fireCheckElement fireCheckAttributes).

Lemma walks_trace (changedItems : gset nat) (heads : list nat)
    (walks : list (list nat)) (b : nat) :
  Forall2 (λ listHead walk,
             ∃ pushed, collect listHead changedItems = Some (pushed, walk))
          heads walks →
  b ∈ concat walks ↔
  ∃ listHead, listHead ∈ heads ∧
    b ∈ iterateSiblingListBlocks d (Some listHead) Forward.
Proof.
  induction 1 as [|listHead walk heads walks [pushed Hwalk] _ IH];
    cbn [concat].
  { split; [by intros ?%not_elem_of_nil |].
    by intros (listHead & ?%not_elem_of_nil & _). }
  rewrite elem_of_app, IH.
  rewrite (collectListItemsToRefresh_trace d attributeNames toViewElement
             fireCheckElement fireCheckAttributes _ _ _ _ b Hwalk).
  split.
  - intros [Hb | (head & Hhead & Hb)].
    + exists listHead. split; [left | done].
    + exists head. split; [by right | done].
  - intros (head & [-> | Hhead]%elem_of_cons & Hb); [by left |].
    right. by exists head.
Qed.

Lemma walks_NoDup (changedItems : gset nat) (heads : list nat)
    (walks : list (list nat)) :
  Forall2 (λ listHead walk,
             ∃ pushed, collect listHead changedItems = Some (pushed, walk))
          heads walks →
  NoDup heads →
  (∀ v, v ∈ heads → ∃ k, isListItemBlock d k = true ∧ v = listHeadOf d k) →
  NoDup (concat walks).
Proof.
  intros Hwalks. induction Hwalks
    as [|listHead walk heads walks [pushed Hwalk] Hrest IH];
    intros Hnodup Hheads; cbn [concat]; [apply NoDup_nil_2 |].
  apply NoDup_cons in Hnodup as [Hnew Hnodup].
  apply NoDup_app. split; [| split].
  - by destruct (collectListItemsToRefresh_spec d attributeNames
                   toViewElement fireCheckElement fireCheckAttributes
                   _ _ _ _ Hwalk) as [? _].
  - intros b Hb Hlater.
    apply (collectListItemsToRefresh_trace d attributeNames toViewElement
             fireCheckElement fireCheckAttributes _ _ _ _ b Hwalk) in Hb.
    apply (walks_trace changedItems heads walks b Hrest) in Hlater
      as (head & Hhead & Hlater).
    destruct (Hheads listHead) as (k1 & Hk1 & ->); [left |].
    destruct (Hheads head) as (k2 & Hk2 & ->); [by right |].
    apply Hnew.
    by rewrite (iterate_heads_disjoint d k1 k2 b Hk1 Hk2 Hb Hlater).
  - apply IH; [done |]. intros v Hv. apply Hheads. by right.
Qed.

Local Abbreviation reconvert :=
  (reconvertItemsOnDataChange d attributeNames toViewElement
     fireCheckElement fireCheckAttributes).

(** C8.  In a run on the changes of the differ every block is handled at
    most once: no list head is recorded twice, the walks from the
    recorded heads share no block, and within a walk the visited set
    keeps a block from being handled again; the blocks handled are the
    blocks of the lists of the recorded heads.  [reconvertItem] is called
    once per distinct block of the refresh set. *)
Theorem reconvert_visits_and_calls (changes : list DiffItem)
    (run : SchedulerRun) :
  differOrdered changes →
  reconvert changes = Some run →
  NoDup (srListHeads run) ∧
  NoDup (srTrace run) ∧
  (∀ b, b ∈ srTrace run ↔
     ∃ listHead, listHead ∈ srListHeads run ∧
       b ∈ iterateSiblingListBlocks d (Some listHead) Forward) ∧
  NoDup (srReconverted run) ∧
  (∀ b, b ∈ srReconverted run ↔ b ∈ srItemsToRefresh run).
Proof.
  intros [Hsorted Hlengths] Hrun.
  destruct (reconvertItemsOnDataChange_spec d attributeNames toViewElement
              fireCheckElement fireCheckAttributes changes run Hrun)
    as (Hheads & Hreconverted & added & walks & _ & Htrace & Hwalks & _).
  destruct (scanChanges_oneKeyPerList changes [] 0 Hsorted Hlengths)
    as [p Hone].
  { split; [by intros k v ?%not_elem_of_nil |].
    split; [apply NoDup_nil_2 |].
    split; [by intros k1 k2 ?%not_elem_of_nil |].
    by intros k ?%not_elem_of_nil. }
  apply oneKeyPerList_values in Hone as [Hnodup Hvalues].
  unfold scanChanges in Hheads.
  rewrite (scanChanges_heads d attributeNames toViewElement fireCheckElement)
    in Hheads.
  cbn [ssItemToListHead] in Hheads. rewrite <- Hheads in Hnodup, Hvalues.
  split; [done |]. rewrite Htrace, Hreconverted.
  split; [by apply (walks_NoDup _ _ _ Hwalks) |].
  split; [intros b; by apply (walks_trace _ _ _ b Hwalks) |].
  split; [apply setOfArray_NoDup | apply elem_of_setOfArray].
Qed.

End Visits.


Lemma reconvert_visits_and_calls_witness :
  NoDup [0%nat] ∧ NoDup [0%nat; 1%nat; 2%nat].
Proof.
  assert (reconvertItemsOnDataChange threeItemDocument listAttributeNames
            threeItemView noCheckElement staleCheckAttributes orderedChanges
          = Some (mkSchedulerRun [1%nat] [1%nat] [0%nat]
                    [0%nat; 1%nat; 2%nat])) as Hrun
    by (by vm_compute).
  destruct (reconvert_visits_and_calls threeItemDocument listAttributeNames
              threeItemView noCheckElement staleCheckAttributes
              orderedChanges
              (mkSchedulerRun [1%nat] [1%nat] [0%nat] [0%nat; 1%nat; 2%nat]))
    as (Hheads & Htrace & _); [| exact Hrun |].
  - split; [cbn; lia | by repeat constructor].
  - by split.
Defined.

(** The order of the entries matters: on a batch that names the third
    block before the first, the list head 0 is recorded under two keys
    and the list is walked twice. *)
Lemma unordered_batch_revisits :
  reconvertItemsOnDataChange threeItemDocument listAttributeNames
    threeItemView noCheckElement staleCheckAttributes unorderedChanges
    = Some (mkSchedulerRun [1%nat] [1%nat; 1%nat] [0%nat; 0%nat]
              [0%nat; 1%nat; 2%nat; 0%nat; 1%nat; 2%nat]).
Proof. by vm_compute. Qed.

(** ** What the refresh set holds *)

(** The check reads the stack at the levels from the one it starts at
    down to 0. *)
Lemma wrappingLoop_ext
    (fireCheckAttributes :
       AttributesEvent → ViewElement → option (gmap string value) → bool)
    (stack stack' : Stack) (indent : Z) (ancestors : list ViewElement) :
  0 ≤ indent →
  (∀ level, 0 ≤ level ≤ indent → stackGet stack level = stackGet stack' level) →
  wrappingLoop fireCheckAttributes stack indent ancestors
  = wrappingLoop fireCheckAttributes stack' indent ancestors.
Proof.
  revert indent.
  induction ancestors as [|element rest IH]; intros indent Hindent Hlevels;
    [done |].
  cbn [wrappingLoop].
  destruct (viewIsKind element EditableElement); [done |].
  destruct (negb (isListView element) && negb (isListItemView element));
    [by apply IH |].
  rewrite (Hlevels indent) by lia.
  destruct (fireCheckAttributes _ _ _); [done |].
  destruct (isListView element); [| by apply IH].
  destruct (Z.ltb_spec (indent - 1) 0); [done |].
  apply IH; [lia |]. intros level Hlevel. apply Hlevels. lia.
Qed.

Lemma itemLevels_get (d : Document) (attributeNames : list string)
    (block : nat) (level : Z) :
  isArrayIndex (indentAt d block) = true →
  0 ≤ level ≤ indentAt d block →
  stackGet (mkStack (itemLevels d attributeNames block) ∅) level
  = listAttributesOf d attributeNames <$> levelOwner d level block.
Proof.
  intros Hindex Hlevel. unfold stackGet, itemLevels, isArrayIndex in *.
  cbn [stackElements].
  apply andb_prop in Hindex as [_ Hhigh]. apply Z.ltb_lt in Hhigh.
  destruct (Z.leb_spec 0 level); [| lia].
  destruct (Z.ltb_spec level 4294967295); [| lia]. cbn [andb].
  rewrite list_lookup_fmap, lookup_seq_lt by lia.
  cbn [fmap option_fmap option_map mjoin option_join plus].
  by rewrite Z2Nat.id by lia.
Qed.

Lemma stackGet_beyond (stack : Stack) (level : Z) :
  isArrayIndex level = true →
  Z.of_nat (length (stackElements stack)) ≤ level →
  stackGet stack level = None.
Proof.
  intros Hindex Hlength. unfold stackGet. rewrite Hindex.
  rewrite lookup_ge_None_2; [done |].
  apply andb_prop in Hindex as [Hlow _]. apply Z.leb_le in Hlow. lia.
Qed.

Lemma levelOwner_at (d : Document) (level : Z) (block : nat) :
  isListItemBlock d block = true → indentAt d block ≤ level →
  levelOwner d level block
  = if indentAt d block =? level then Some (itemHead d block) else None.
Proof.
  intros Hblock Hlevel. destruct block as [|p]; cbn [levelOwner];
    rewrite Hblock.
  - by destruct (Z.ltb_spec level (indentAt d 0)); [lia |].
  - by destruct (Z.ltb_spec level (indentAt d (S p))); [lia |].
Qed.

Lemma levelOwner_below (d : Document) (level : Z) (p : nat) :
  level < indentAt d (S p) →
  levelOwner d level (S p)
  = if isListItemBlock d (S p) then levelOwner d level p else None.
Proof.
  intros Hlevel. cbn [levelOwner].
  destruct (isListItemBlock d (S p)); [| done].
  by destruct (Z.ltb_spec level (indentAt d (S p))); [| lia].
Qed.

Lemma levelOwner_no_block (d : Document) (level : Z) (block : nat) :
  isListItemBlock d block = false → levelOwner d level block = None.
Proof. intros Hblock. destruct block; cbn [levelOwner]; by rewrite Hblock. Qed.

Lemma levelOwner_continued (d : Document) (level : Z) (p : nat) :
  isListItemBlock d p = true → isListItemBlock d (S p) = true →
  indentAt d p = indentAt d (S p) →
  attrAt d p "listItemId" = attrAt d (S p) "listItemId" →
  levelOwner d level (S p) = levelOwner d level p.
Proof.
  intros Hp Hnext Hindent Hid.
  destruct (decide (level < indentAt d (S p))) as [Hlow | Hhigh].
  { by rewrite levelOwner_below, Hnext. }
  rewrite !levelOwner_at by (done || lia).
  rewrite <- Hindent.
  destruct (indentAt d p =? level); [| done].
  cbn [itemHead]. rewrite Hp, <- Hindent, <- Hid.
  by rewrite !bool_decide_eq_true_2 by done.
Qed.

Section Minimal.

Variable d : Document.
Variable attributeNames : list string.
Variable toViewElement : nat → option MappedView.
Variable fireCheckElement : nat → ViewElement → bool.
Variable fireCheckAttributes :
  AttributesEvent → ViewElement → option (gmap string value) → bool.

Local Abbreviation blockCheck :=
  (doesItemBlockRequiresRefresh d attributeNames toViewElement
     fireCheckElement).
Local Abbreviation wrappingCheck :=
  (doesItemWrappingRequiresRefresh toViewElement fireCheckAttributes).
Local Abbreviation reason :=
  (refreshReason d attributeNames toViewElement fireCheckElement
     fireCheckAttributes).
Local Abbreviation blocksLoop' :=
  (blocksLoop d attributeNames toViewElement fireCheckElement
     fireCheckAttributes).
Local Abbreviation siblingsLoop' :=
  (siblingsLoop d attributeNames toViewElement fireCheckElement
     fireCheckAttributes).
Local Abbreviation collect :=
  (collectListItemsToRefresh d attributeNames toViewElement
     fireCheckElement fireCheckAttributes).
Local Abbreviation headsLoop' :=
  (headsLoop d attributeNames toViewElement fireCheckElement
     fireCheckAttributes).
Local Abbreviation scanChanges' :=
  (scanChanges d attributeNames toViewElement fireCheckElement).
Local Abbreviation reconvert :=
  (reconvertItemsOnDataChange d attributeNames toViewElement
     fireCheckElement fireCheckAttributes).
Local Abbreviation upToDate :=
  (wrappersUpToDate d attributeNames toViewElement fireCheckAttributes).
Local Abbreviation owner := (levelOwner d).
Local Abbreviation attributesOf := (listAttributesOf d attributeNames).

(** A block whose wrappers are up to date passes the check against a
    stack that holds, level by level, the attributes of the items that
    enclose it. *)
Lemma wrappingCheck_upToDate (block : nat) (stack : Stack)
    (changedItems : gset nat) :
  isArrayIndex (indentAt d block) = true →
  (block ∉ changedItems → upToDate block) →
  Z.of_nat (length (stackElements stack)) = indentAt d block + 1 →
  (∀ level, 0 ≤ level ≤ indentAt d block →
     stackGet stack level = attributesOf <$> owner level block) →
  wrappingCheck block stack changedItems = Some false.
Proof.
  intros Hindex HupToDate Hlength Hlevels.
  unfold doesItemWrappingRequiresRefresh.
  destruct (decide (block ∈ changedItems)) as [Hin | Hnot].
  { by rewrite bool_decide_eq_true_2. }
  rewrite bool_decide_eq_false_2 by done.
  destruct (HupToDate Hnot) as (mapped & -> & <-).
  replace (Z.of_nat (length (stackElements stack)) - 1)
    with (indentAt d block) by lia.
  pose proof Hindex as Hrange.
  apply andb_prop in Hrange as [Hlow _]. apply Z.leb_le in Hlow.
  apply wrappingLoop_ext; [done |].
  intros level Hlevel. by rewrite Hlevels, itemLevels_get.
Qed.

Section Walk.

Variable changedItems : gset nat.
Hypothesis Hvalid : validIndents d.
Hypothesis Hunbroken : itemsUnbroken d.
Hypothesis HupToDate :
  ∀ b, isListItemBlock d b = true → b ∉ changedItems → upToDate b.

(** A block of an item and the block before it, when that is a block of
    the item too. *)
Lemma blocks_continued (m p : nat) :
  (m ≤ p)%nat → S p ∈ getListItemBlocks d m Forward →
  isListItemBlock d p = true ∧ isListItemBlock d (S p) = true ∧
  indentAt d p = indentAt d (S p) ∧
  attrAt d p "listItemId" = attrAt d (S p) "listItemId".
Proof.
  intros Hle Hin.
  assert (isListItemBlock d m = true) as Hblock.
  { apply elem_of_getListItemBlocks_forward in Hin as (Hrange & _).
    apply (iterateForward_isListItemBlock d m).
    rewrite iterateForward_seq. apply elem_of_seq. lia. }
  assert (p ∈ getListItemBlocks d m Forward) as Hp.
  { rewrite (Hunbroken m Hblock) in Hin |- *.
    apply elem_of_seq in Hin. apply elem_of_seq. lia. }
  pose proof (getListItemBlocks_forward_isListItemBlock d m p Hp) as [_ ?].
  pose proof (getListItemBlocks_forward_isListItemBlock d m _ Hin) as [_ ?].
  apply elem_of_getListItemBlocks_forward in Hin as (_ & Hindent & Hid & _).
  apply elem_of_getListItemBlocks_forward in Hp as (_ & Hindent' & Hid' & _).
  unfold sameItemId in Hid, Hid'.
  split; [done |]. split; [done |]. split; congruence.
Qed.

(** The blocks of an item have the owners of the first of them. *)
Lemma levelOwner_blocks (a b : nat) (level : Z) :
  b ∈ getListItemBlocks d a Forward → owner level b = owner level a.
Proof.
  intros Hb.
  pose proof (getListItemBlocks_forward_isListItemBlock d a b Hb) as [Hle _].
  assert (isListItemBlock d a = true) as Hblock.
  { apply elem_of_getListItemBlocks_forward in Hb as (Hrange & _).
    apply (iterateForward_isListItemBlock d a).
    rewrite iterateForward_seq. apply elem_of_seq. lia. }
  induction b as [|p IH]; [by replace a with 0%nat by lia |].
  destruct (decide (a = S p)) as [-> | Hne]; [done |].
  destruct (blocks_continued a p) as (Hp & Hnext & Hindent & Hid);
    [lia | done |].
  rewrite levelOwner_continued by done.
  apply IH; [| lia].
  rewrite (Hunbroken a Hblock) in Hb |- *.
  apply elem_of_seq in Hb. apply elem_of_seq. lia.
Qed.

Lemma blocksLoop_upToDate (blocks rest : list nat) (node : nat)
    (st : CollectState) :
  (∀ b, b ∈ rest → b ∈ getListItemBlocks d node Forward) →
  Z.of_nat (length (stackElements (csStack st))) = indentAt d node + 1 →
  (∀ level, 0 ≤ level ≤ indentAt d node →
     stackGet (csStack st) level = attributesOf <$> owner level node) →
  ∃ st',
    blocksLoop' changedItems blocks rest st = Some st' ∧
    ∀ b, b ∈ csItemsToRefresh st' →
      b ∈ csItemsToRefresh st ∨ blockCheck b (Some blocks) = true.
Proof.
  revert st. induction rest as [|block rest IH];
    intros st Hrest Hlength Hlevels.
  { exists st. split; [done |]. by left. }
  cbn [blocksLoop].
  assert (∀ b, b ∈ rest → b ∈ getListItemBlocks d node Forward)
    as Hrest' by (intros b Hb; apply Hrest; by right).
  assert (block ∈ getListItemBlocks d node Forward) as Hblock
    by (apply Hrest; left).
  pose proof (getListItemBlocks_forward_isListItemBlock d node block Hblock)
    as [_ Hlist].
  assert (indentAt d block = indentAt d node) as Hindent
    by (by apply elem_of_getListItemBlocks_forward in Hblock as (_ & ? & _)).
  destruct (blockCheck block (Some blocks)) eqn:Hcheck.
  - match goal with
    | |- context [blocksLoop' _ _ _ ?s] =>
        destruct (IH s Hrest' Hlength Hlevels) as (st' & Hloop & Hitems)
    end.
    exists st'. split; [done |]. intros b Hb.
    destruct (Hitems b Hb) as [Hold | ?]; [| by right].
    cbn [csItemsToRefresh] in Hold.
    apply elem_of_app in Hold as [? | ->%list_elem_of_singleton];
      [by left | by right].
  - rewrite wrappingCheck_upToDate.
    + cbn [mbind option_bind].
      match goal with
      | |- context [blocksLoop' _ _ _ ?s] =>
          destruct (IH s Hrest' Hlength Hlevels) as (st' & Hloop & Hitems)
      end.
      by exists st'.
    + by apply validIndents_index.
    + by apply HupToDate.
    + by rewrite Hindent.
    + intros level Hlevel. rewrite Hindent in Hlevel.
      by rewrite Hlevels, (levelOwner_blocks node block).
Qed.

Lemma visited_continued (a : nat) (st : CollectState) :
  walkInvariant d a st → a ∈ csVisited st →
  ∃ p, a = S p ∧
    isListItemBlock d p = true ∧ isListItemBlock d a = true ∧
    indentAt d p = indentAt d a ∧
    attrAt d p "listItemId" = attrAt d a "listItemId".
Proof.
  intros (_ & _ & _ & Hwitness) Hvisited.
  destruct (Hwitness a Hvisited) as (m & Hm & Hin & _).
  destruct a as [|p]; [lia |]. exists p. split; [done |].
  apply (blocks_continued m p); [lia | done].
Qed.

(** A node that was not visited is the first block of its item. *)
Lemma unvisited_itemHead (p : nat) (st : CollectState) :
  walkInvariant d (S p) st → p ∈ csVisited st → S p ∉ csVisited st →
  isListItemBlock d (S p) = true →
  itemHead d (S p) = S p.
Proof.
  intros (_ & _ & Hlist & Hwitness) Hp Hnew Hblock.
  cbn [itemHead].
  destruct (isListItemBlock d p
            && bool_decide (indentAt d p = indentAt d (S p))
            && bool_decide (attrAt d p "listItemId"
                            = attrAt d (S p) "listItemId")) eqn:Hsame;
    [| done].
  exfalso.
  apply andb_prop in Hsame as [[_ Hindent]%andb_prop Hid].
  apply bool_decide_eq_true in Hindent, Hid.
  destruct (Hwitness p Hp) as (m & Hm & Hin & Hall).
  apply Hnew, Hall.
  assert (isListItemBlock d m = true) as Hhead.
  { apply elem_of_getListItemBlocks_forward in Hin as (Hrange & _).
    apply (iterateForward_isListItemBlock d m).
    rewrite iterateForward_seq. apply elem_of_seq. lia. }
  pose proof Hin as Hseq. rewrite (Hunbroken m Hhead) in Hseq.
  apply elem_of_seq in Hseq.
  apply elem_of_getListItemBlocks_forward.
  apply elem_of_getListItemBlocks_forward in Hin
    as (Hrange & Hindent' & Hid' & _).
  unfold sameItemId in *.
  split; [| split; [congruence | split; [congruence |]]].
  - split; [lia |].
    pose proof (iterateForward_boundary d m) as Hend.
    destruct (decide (S p = m + length (iterateSiblingListBlocks d (Some m)
                                          Forward))%nat) as [Heq | ?];
      [by rewrite <- Heq, Hblock in Hend | lia].
  - intros t Ht. right.
    assert (t ∈ getListItemBlocks d m Forward) as Hin'.
    { rewrite (Hunbroken m Hhead). apply elem_of_seq. lia. }
    by apply elem_of_getListItemBlocks_forward in Hin' as (_ & ? & ? & _).
Qed.

Lemma siblingsLoop_upToDate (k a : nat) (previous : option nat)
    (st : CollectState) :
  (∀ j, (a ≤ j < a + k)%nat → isListItemBlock d j = true) →
  walkInvariant d a st →
  stackFollows d attributeNames previous a st →
  (∀ b, b ∈ csItemsToRefresh st → ∃ blocks, blockCheck b blocks = true) →
  ∃ st',
    siblingsLoop' changedItems previous (seq a k) st = Some st' ∧
    ∀ b, b ∈ csItemsToRefresh st' → ∃ blocks, blockCheck b blocks = true.
Proof.
  revert a previous st.
  induction k as [|k IH]; intros a previous st Hrun Hinv Hstack Hitems.
  { by exists st. }
  cbn [seq siblingsLoop].
  assert (isListItemBlock d a = true) as Ha by (apply Hrun; lia).
  assert (∀ j, (S a ≤ j < S a + k)%nat → isListItemBlock d j = true)
    as Hrun' by (intros j Hj; apply Hrun; lia).
  destruct (decide (a ∈ csVisited st)) as [Hvisited | Hnew].
  - rewrite bool_decide_eq_true_2 by done.
    apply IH; [done | by apply (walkInvariant_mono d a); [lia |] | | done].
    destruct (visited_continued a st Hinv Hvisited)
      as (p & -> & Hp & _ & Hindent & Hid).
    destruct previous as [p'|]; cbn [stackFollows] in Hstack |- *.
    + destruct Hstack as ([= <-] & _ & Hlength & Hlevels).
      split; [done |]. split; [done |]. split; [by rewrite <- Hindent |].
      intros level Hlevel. rewrite <- Hindent in Hlevel.
      by rewrite Hlevels, levelOwner_continued.
    + destruct Hstack as (Hempty & _). rewrite Hempty in Hvisited.
      by apply not_elem_of_empty in Hvisited.
  - rewrite bool_decide_eq_false_2 by done.
    pose proof (validIndents_index d a Hvalid Ha) as Hindex.
    assert (0 ≤ indentAt d a < 4294967295) as Hrange.
    { apply andb_prop in Hindex as [Hlow Hhigh].
      apply Z.leb_le in Hlow. apply Z.ltb_lt in Hhigh. lia. }
    assert (itemHead d a = a) as Hhead.
    { destruct previous as [p|]; cbn [stackFollows] in Hstack.
      - destruct Hstack as (-> & Hp & _). by apply (unvisited_itemHead p st).
      - destruct Hstack as (_ & _ & Hfirst).
        destruct a as [|q]; [done |]. cbn [itemHead].
        by rewrite (Hfirst q eq_refl). }
    assert (∃ stack,
              match previous with
              | Some p =>
                  if indentAt d a <? indentAt d p
                  then stackSetLength (indentAt d a + 1) (csStack st)
                  else Some (csStack st)
              | None => Some (csStack st)
              end = Some stack ∧
              Z.of_nat (length (stackElements
                                  (stackSet (indentAt d a) (attributesOf a)
                                     stack)))
              = indentAt d a + 1 ∧
              ∀ level, 0 ≤ level < indentAt d a →
                stackGet stack level = attributesOf <$> owner level a)
      as (stack & -> & Hlength & Hbelow).
    { unfold stackSet. rewrite Hindex. cbn [stackElements].
      setoid_rewrite length_insert. setoid_rewrite length_resize.
      destruct previous as [p|]; cbn [stackFollows] in Hstack.
      - destruct Hstack as (-> & Hp & Hlength & Hlevels).
        pose proof (proj1 (proj2 (proj2 Hinv)) p Hp) as Hplist.
        pose proof (validIndents_index d p Hvalid Hplist) as Hpindex.
        assert (∀ level, level < indentAt d (S p) →
                  owner level (S p) = owner level p) as Hnext.
        { intros level Hlevel. by rewrite levelOwner_below, Ha. }
        assert (∀ level, indentAt d p < level → owner level p = None)
          as Hnone.
        { intros level Hlevel. rewrite levelOwner_at by (done || lia).
          by destruct (Z.eqb_spec (indentAt d p) level); [lia |]. }
        destruct (Z.ltb_spec (indentAt d (S p)) (indentAt d p)).
        + destruct (stackSetLength (indentAt d (S p) + 1) (csStack st))
            as [trimmed|] eqn:Htrim.
          2: { unfold stackSetLength in Htrim.
               destruct (Z.ltb_spec (indentAt d (S p) + 1) 0); [lia |].
               by destruct (Z.ltb_spec 4294967295 (indentAt d (S p) + 1));
                 [lia |]. }
          exists trimmed. split; [done |].
          destruct (stackSetLength_length _ _ _ Htrim) as [_ Hlen].
          split; [lia |]. intros level Hlevel.
          rewrite (stackGet_stackSetLength _ _ _ level Htrim).
          destruct (Z.ltb_spec level (indentAt d (S p) + 1)); [| lia].
          rewrite andb_false_r, Hlevels by lia. by rewrite Hnext by lia.
        + eexists. split; [done |]. split; [lia |].
          intros level Hlevel. rewrite Hnext by lia.
          destruct (decide (level ≤ indentAt d p)) as [Hin | Hout].
          * by rewrite Hlevels by lia.
          * rewrite Hnone by lia. apply stackGet_beyond; [| lia].
            unfold isArrayIndex.
            destruct (Z.leb_spec 0 level); [| lia].
            by destruct (Z.ltb_spec level 4294967295); [| lia].
      - destruct Hstack as (_ & -> & Hfirst). eexists. split; [done |].
        cbn [stackElements length]. split; [lia |].
        intros level Hlevel.
        assert (owner level a = None) as ->.
        { destruct a as [|q].
          - cbn [levelOwner]. rewrite Ha.
            by destruct (Z.ltb_spec level (indentAt d 0)); [| lia].
          - rewrite levelOwner_below, Ha by lia.
            apply levelOwner_no_block. by apply Hfirst. }
        unfold stackGet. cbn [stackElements stackProperties].
        destruct (isArrayIndex level); [| done].
        by rewrite lookup_nil. }
    cbn [mbind option_bind].
    match goal with
    | |- context [blocksLoop' _ ?b ?r ?s] =>
        destruct (blocksLoop_upToDate b r a s) as (st1 & Hblocks & Hitems1)
    end.
    { done. }
    { done. }
    { cbn [csStack]. intros level Hlevel. rewrite stackGet_stackSet.
      destruct (decide (level = indentAt d a)) as [-> | Hne].
      - rewrite bool_decide_eq_true_2 by done.
        rewrite levelOwner_at by (done || lia).
        by rewrite Z.eqb_refl, Hhead.
      - rewrite bool_decide_eq_false_2 by done. apply Hbelow. lia. }
    rewrite Hblocks. cbn [mbind option_bind].
    destruct (blocksLoop_spec d attributeNames toViewElement fireCheckElement
                fireCheckAttributes _ _ _ _ _ Hblocks)
      as (Htrace1 & Hvisited1 & Hstack1 & _).
    cbn [csTrace csVisited csStack csItemsToRefresh] in *.
    apply IH; [done | | |].
    + by apply (walkInvariant_blocks d toViewElement fireCheckElement a st
                  st1).
    + cbn [stackFollows]. split; [done |]. split.
      { rewrite Hvisited1. apply elem_of_union. left.
        apply elem_of_list_to_set.
        destruct (getListItemBlocks_forward_self d a Ha) as [others ->].
        left. }
      rewrite Hstack1. split; [done |].
      intros level Hlevel. rewrite stackGet_stackSet.
      destruct (decide (level = indentAt d a)) as [-> | Hne].
      * rewrite bool_decide_eq_true_2 by done.
        rewrite levelOwner_at by (done || lia).
        by rewrite Z.eqb_refl, Hhead.
      * rewrite bool_decide_eq_false_2 by done. apply Hbelow. lia.
    + intros b Hb. destruct (Hitems1 b Hb) as [Hold | Hcheck];
        [by apply Hitems | by eexists].
Qed.

Lemma collectListItemsToRefresh_upToDate (listHead : nat) :
  (∀ q, listHead = S q → isListItemBlock d q = false) →
  ∃ items trace,
    collect listHead changedItems = Some (items, trace) ∧
    ∀ b, b ∈ items → ∃ blocks, blockCheck b blocks = true.
Proof.
  intros Hfirst.
  unfold collectListItemsToRefresh. rewrite iterateForward_seq.
  set (k := length (iterateSiblingListBlocks d (Some listHead) Forward)).
  destruct (siblingsLoop_upToDate k listHead None
              (mkCollectState [] ∅ (mkStack [] ∅) []))
    as (st & -> & Hitems).
  - intros j Hj. apply (iterateForward_isListItemBlock d listHead).
    rewrite iterateForward_seq. fold k. apply elem_of_seq. lia.
  - split; [apply NoDup_nil_2 |]. cbn [csTrace csVisited].
    split; [intros b; rewrite elem_of_nil; set_solver |].
    split; intros b Hb; set_solver.
  - done.
  - by intros b ?%not_elem_of_nil.
  - cbn [mbind option_bind]. by eexists _, _.
Qed.

Lemma headsLoop_upToDate (heads : list nat) (items trace : list nat) :
  (∀ listHead q, listHead ∈ heads → listHead = S q →
     isListItemBlock d q = false) →
  (∀ b, b ∈ items → ∃ blocks, blockCheck b blocks = true) →
  ∃ items' trace',
    headsLoop' changedItems heads items trace = Some (items', trace') ∧
    ∀ b, b ∈ items' → ∃ blocks, blockCheck b blocks = true.
Proof.
  revert items trace.
  induction heads as [|listHead rest IH]; intros items trace Hheads Hitems.
  { by exists items, trace. }
  cbn [headsLoop].
  destruct (collectListItemsToRefresh_upToDate listHead)
    as (pushed & walk & -> & Hpushed).
  { intros q. apply Hheads. left. }
  cbn [mbind option_bind fst snd]. apply IH.
  - intros head q Hhead. apply Hheads. by right.
  - intros b [Hb | Hb]%elem_of_app; [by apply Hitems | by apply Hpushed].
Qed.

End Walk.

Lemma headsLoop_items (changedItems : gset nat) (heads : list nat)
    (items trace items' trace' : list nat) :
  headsLoop' changedItems heads items trace = Some (items', trace') →
  ∀ b, b ∈ items' → b ∈ items ∨ reason changedItems b.
Proof.
  intros Hheads b Hb.
  apply (headsLoop_spec d attributeNames toViewElement fireCheckElement
           fireCheckAttributes) in Hheads
    as (added & walks & -> & _ & _ & Hadded).
  apply elem_of_app in Hb as [Hb | Hb]; [by left |].
  right. by apply Hadded.
Qed.

(** The list heads the scan records are the first blocks of their
    runs. *)
Lemma scanChanges_run_heads (changes : list DiffItem) (listHead q : nat) :
  listHead ∈ mapValues (ssItemToListHead (scanChanges' changes)) →
  listHead = S q → isListItemBlock d q = false.
Proof.
  unfold scanChanges. rewrite scanChanges_heads. cbn [ssItemToListHead].
  intros ([k v] & -> & Hin)%list_elem_of_fmap Hhead. cbn [snd] in Hhead.
  assert (headsRecorded d
            (foldl (λ m position, findAndAddListHeadToMap d position m) []
               (changes ≫= scannedPositions attributeNames))) as Hrecorded.
  { apply positions_recorded. by intros k' v' ?%not_elem_of_nil. }
  destruct (Hrecorded k v Hin) as [Hk ->].
  by apply (listHeadOf_head d k q).
Qed.


End Minimal.



(** A block that sits in fewer list elements than the stack has levels is
    refreshed, whatever the listeners answer. *)
Lemma wrappingLoop_fewer_lists
    (fireCheckAttributes :
       AttributesEvent → ViewElement → option (gmap string value) → bool)
    (stack : Stack) (indent : Z)
    (pre : list ViewElement) (root : ViewElement) (post : list ViewElement) :
  Forall (λ e, viewIsKind e EditableElement = false) pre →
  viewIsKind root EditableElement = true →
  Z.of_nat (length (filter (λ e, isListView e = true) pre)) ≤ indent →
  wrappingLoop fireCheckAttributes stack indent (pre ++ root :: post)
  = Some true.
Proof.
  intros Hpre Hroot. revert indent.
  induction Hpre as [|e pre He _ IH]; intros indent Hlists.
  { cbn [app wrappingLoop]. by rewrite Hroot. }
  cbn [app wrappingLoop]. rewrite He.
  rewrite filter_cons in Hlists.
  destruct (isListView e) eqn:Hlist.
  - cbn [negb andb]. rewrite decide_True in Hlists by done.
    cbn [length] in Hlists.
    destruct (fireCheckAttributes _ e _); [done |].
    destruct (Z.ltb_spec (indent - 1) 0) as [Hneg | Hpos]; [lia |].
    apply IH. lia.
  - rewrite decide_False in Hlists by (by intros ?; congruence).
    destruct (isListItemView e); cbn [negb andb]; [| by apply IH].
    destruct (fireCheckAttributes _ e _); [done | by apply IH].
Qed.

(** The check of the fourth block of [brokenItemDocument] against a stack
    of two levels asks for a refresh, whatever the listeners answer. *)
Lemma broken_item_sibling_check
    (fireCheckAttributes :
       AttributesEvent → ViewElement → option (gmap string value) → bool)
    (stack : Stack) :
  length (stackElements stack) = 2%nat →
  doesItemWrappingRequiresRefresh brokenItemView fireCheckAttributes 3 stack
    {[ 4%nat ]} = Some true.
Proof.
  intros Hlength. unfold doesItemWrappingRequiresRefresh.
  rewrite bool_decide_eq_false_2 by set_solver.
  cbn [brokenItemView topLevelItemView mvAncestors]. rewrite Hlength.
  apply (wrappingLoop_fewer_lists fireCheckAttributes stack 1
           [createListItemElement 0 (Some (VStr "d"));
            createListElement 0 (Some (VStr "bulleted"))] rootEditable []).
  - by repeat constructor.
  - done.
  - by vm_compute.
Qed.


Lemma nestedDocument_unbroken : itemsUnbroken nestedDocument.
Proof. intros [|[|[|node]]] Hnode; by vm_compute. Qed.


(** * The round trip through the pipelines *)

Lemma insertBlock_events (d : Document) (block : nat) (st : DowncastState)
    (key : string) :
  key ∈ attributeKeysAt d block →
  consumableTest (dsConsumable (insertBlock d block st)) block
    ("attribute:" ++ key) = Some true.
Proof.
  unfold insertBlock, consumableTest. cbn [dsConsumable].
  induction (attributeKeysAt d block) as [|k keys IH]; cbn [foldr].
  { by intros ?%not_elem_of_nil. }
  intros [-> | Hkey]%elem_of_cons; [by rewrite lookup_insert_eq |].
  destruct (decide (k = key)) as [-> | Hne]; [by rewrite lookup_insert_eq |].
  rewrite lookup_insert_ne; [by apply IH |].
  intros [= Heq]. done.
Qed.

Section Pipeline.

Variable attributeNames : list string.
Variable strategies : list DowncastStrategy.
Variable d : Document.
Variable dataPipeline : bool.

Local Abbreviation converter :=
  (listItemDowncastConverter attributeNames strategies d dataPipeline).

(** Once the events of the block are consumed the converter does nothing
    more for the block. *)
Lemma converter_consumed (block : nat) (keys : list string)
    (st : DowncastState) :
  (createAttributesConsumer attributeNames d block (dsConsumable st)).1
  = false →
  foldl (λ st key, st ≫= converter block key) (Some st) keys = Some st.
Proof.
  intros Hconsumed. induction keys as [|key keys IH]; [done |].
  cbn [foldl mbind option_bind].
  assert (converter block key st = Some st) as ->; [| done].
  unfold listItemDowncastConverter.
  destruct (negb (includes attributeNames key)); [done |].
  destruct (createAttributesConsumer attributeNames d block (dsConsumable st))
    as [ok consumable]. cbn [fst] in Hconsumed. by rewrite Hconsumed.
Qed.

(** The first event of a list attribute converts the block. *)
Lemma converter_first (block : nat) (n : Node) (keys : list string)
    (st : DowncastState) :
  d !! block = Some n →
  dsView st !! block = Some (mkBlockView [paragraphView] [] []) →
  (∀ key, key ∈ attributeNames → hasAttribute n key = true →
     consumableTest (dsConsumable st) block ("attribute:" ++ key)
     = Some true) →
  (∃ key, key ∈ keys ∧ key ∈ attributeNames ∧ hasAttribute n key = true) →
  ∃ consumable,
    foldl (λ st key, st ≫= converter block key) (Some st) keys
    = Some (mkDowncastState
              (<[block := convertedView d strategies dataPipeline block]>
                 (dsView st))
              consumable).
Proof.
  intros Hn Hview Hevents. induction keys as [|key keys IH].
  { by intros (key & ?%not_elem_of_nil & _). }
  intros (listKey & Hin & Hname & Hhas).
  cbn [foldl mbind option_bind].
  destruct (decide (key ∈ attributeNames)) as [Hkey | Hkey].
  - assert ((createAttributesConsumer attributeNames d block
               (dsConsumable st)).1 = true) as Hok.
    { apply createAttributesConsumer_true. intros name n' Hname' Hn' Hhas'.
      rewrite Hn in Hn'. injection Hn' as <-.
      by rewrite (Hevents name Hname' Hhas'). }
    pose proof (createAttributesConsumer_events attributeNames d block
                  (dsConsumable st) ("attribute:" ++ listKey) Hok) as Hevent.
    unfold listItemDowncastConverter at 2.
    rewrite (proj2 (includes_true _ _) Hkey). cbn [negb].
    destruct (createAttributesConsumer attributeNames d block
                (dsConsumable st)) as [ok consumable].
    cbn [fst snd] in Hok, Hevent. rewrite Hok. cbn [negb].
    rewrite Hview. cbn [mbind option_bind].
    exists consumable.
    apply converter_consumed. cbn [dsConsumable].
    apply failsConsumableTest_not_all.
    exists listKey, n. split; [done |]. split; [done |]. split; [done |].
    destruct Hevent as [_ ->].
    { apply elem_of_consumerEvents. by exists listKey, n. }
    by rewrite (Hevents listKey Hname Hhas).
  - assert (converter block key st = Some st) as ->.
    { unfold listItemDowncastConverter.
      destruct (includes attributeNames key) eqn:Hincluded; [| done].
      by apply includes_true in Hincluded. }
    apply IH. exists listKey.
    apply elem_of_cons in Hin as [-> | Hin]; done.
Qed.

Lemma downcastBlock_converts (block : nat) (n : Node) (st : DowncastState) :
  d !! block = Some n →
  (∃ key, key ∈ attributeNames ∧ hasAttribute n key = true) →
  ∃ consumable,
    downcastBlock attributeNames strategies d dataPipeline (Some st) block
    = Some (mkDowncastState
              (<[block := convertedView d strategies dataPipeline block]>
                 (dsView st))
              consumable).
Proof.
  intros Hn (key & Hname & Hhas). unfold downcastBlock.
  cbn [fmap option_fmap option_map].
  assert (∀ key, hasAttribute n key = true → key ∈ attributeKeysAt d block)
    as Hkeys.
  { intros k Hk. unfold attributeKeysAt. rewrite Hn. cbn [from_option].
    apply elem_of_getAttributeKeys. unfold hasAttribute in Hk.
    by apply bool_decide_eq_true in Hk. }
  destruct (converter_first block n (attributeKeysAt d block)
              (insertBlock d block st) Hn) as [consumable ->].
  - cbn [insertBlock dsView]. by rewrite lookup_insert_eq.
  - intros k _ Hk. by apply insertBlock_events, Hkeys.
  - exists key. split; [by apply Hkeys | done].
  - exists consumable. cbn [insertBlock dsView]. by rewrite insert_insert_eq.
Qed.

(** The blocks are converted one after the other, and the conversion of
    a block leaves the view of the blocks before it as it is. *)
Lemma downcastDocument_views :
  Forall (λ n, ∃ key, key ∈ attributeNames ∧ hasAttribute n key = true) d →
  ∃ st,
    downcastDocument attributeNames strategies d dataPipeline = Some st ∧
    ∀ block, (block < length d)%nat →
      dsView st !! block
      = Some (convertedView d strategies dataPipeline block).
Proof.
  intros Hlisted. unfold downcastDocument.
  assert (∀ count, (count ≤ length d)%nat →
            ∃ st,
              foldl (downcastBlock attributeNames strategies d dataPipeline)
                (Some (mkDowncastState ∅ ∅)) (seq 0 count) = Some st ∧
              ∀ block, (block < count)%nat →
                dsView st !! block
                = Some (convertedView d strategies dataPipeline block))
    as Hcount; [| by apply Hcount].
  induction count as [|count IH]; intros Hle.
  { eexists. split; [done |]. lia. }
  destruct IH as (st & Hfold & Hviews); [lia |].
  rewrite seq_S, foldl_app, Hfold. cbn [foldl plus].
  destruct (lookup_lt_is_Some_2 d count) as [n Hn]; [lia |].
  destruct (downcastBlock_converts count n st Hn) as [consumable ->].
  { by apply (Forall_lookup_1 _ _ _ _ Hlisted Hn). }
  eexists. split; [done |]. cbn [dsView]. intros block Hblock.
  destruct (decide (block = count)) as [-> | Hne].
  - by rewrite lookup_insert_eq.
  - rewrite lookup_insert_ne by done. apply Hviews. lia.
Qed.

End Pipeline.

Lemma convertedView_plain (d : Document) (dataPipeline : bool) (block : nat) :
  bvRange (convertedView d [] dataPipeline block)
  = wrapListItemBlock d block [paragraphView] [].
Proof.
  unfold convertedView, insertCustomMarkerElements. cbn [bvRange].
  by destruct (negb (isFirstBlockOfListItem d block)).
Qed.

Lemma nodeOfStack_listed (stacks : list (list Level)) :
  Forall (λ s, s ≠ []) stacks →
  Forall (λ n, ∃ key, key ∈ listAttributeNames ∧ hasAttribute n key = true)
    (nodeOfStack <$> stacks).
Proof.
  intros Hne. apply Forall_fmap. eapply Forall_impl; [exact Hne |].
  intros [|[ordered number] outer] Hs; [done |]. cbn.
  exists "listItemId"%string. split; [left |].
  destruct (nodeOfStack_attributes ordered number outer) as (Hid & _).
  unfold hasAttribute. apply bool_decide_eq_true.
  unfold getAttribute in Hid. by eexists.
Qed.

(** C6.  A nested list markup is upcast to the flat model, and the model
    is downcast to the data view: every block is inserted as a paragraph
    and [listItemDowncastConverter] runs on the events of its attributes.
    The pipeline returns, and the wrappers around the view element of
    every block are the ones the nesting of the block in the markup asks
    for, level by level a list wrapper of the type of the list of the
    markup around an item wrapper that carries the identity of the item
    of the markup.  So the nesting depth of every block and the list type
    at every level are those of the markup, and two blocks have the same
    wrappers exactly when they are blocks of the same item of the
    markup. *)
Theorem upcast_downcast_roundtrip (ordered : bool)
    (items : list (list ItemChild)) (counter : nat) :
  let d := upcastList ordered items counter in
  let stacks := childStacks [] (ChildList ordered items) counter in
  length d = length stacks ∧
  (∃ st,
     downcastDocument listAttributeNames [] d true = Some st ∧
     ∀ j stack, stacks !! j = Some stack →
       ∃ v, dsView st !! j = Some v ∧
            rangeChain (bvRange v) = expectedWrappers stack) ∧
  (∀ j stack, stacks !! j = Some stack →
     viewWrapperStack d j = expectedWrappers stack ∧
     length (viewWrapperStack d j) = (2 * length stack)%nat) ∧
  (∀ j k s t, stacks !! j = Some s → stacks !! k = Some t →
     (viewWrapperStack d j = viewWrapperStack d k ↔ s = t)).
Proof.
  intros d stacks.
  assert (d = nodeOfStack <$> stacks) as Hd by apply upcastList_stacks.
  assert (Forall (λ s, s ≠ []) stacks) as Hne
    by (by apply childStacks_nonempty).
  assert (allPlaced [] stacks) as Hplaced.
  { by destruct (childStacks_placed (ChildList ordered items) [] [] counter
                   (or_introl eq_refl)). }
  assert (length d = length stacks) as Hlength
    by (by rewrite Hd, length_fmap).
  destruct (downcastDocument_views listAttributeNames [] d true)
    as (st & Hrun & Hviews).
  { rewrite Hd. by apply nodeOfStack_listed. }
  assert (∀ j stack, stacks !! j = Some stack →
            ∃ v, dsView st !! j = Some v ∧
                 rangeChain (bvRange v) = expectedWrappers stack) as Hview.
  { intros j stack Hj. eexists. split.
    - apply Hviews. rewrite Hlength. by apply lookup_lt_Some in Hj.
    - rewrite convertedView_plain, Hd. by apply wrapListItemBlock_stacks. }
  assert (∀ j stack, stacks !! j = Some stack →
            viewWrapperStack d j = expectedWrappers stack) as Hstack.
  { intros j stack Hj. unfold viewWrapperStack. rewrite Hrun.
    cbn [mbind option_bind].
    by destruct (Hview j stack Hj) as (v & -> & <-). }
  split; [done |]. split; [by exists st |]. split.
  - intros j stack Hj. split; [by apply Hstack |].
    rewrite (Hstack j stack Hj). apply expectedWrappersFrom_length.
  - intros j k s t Hj Hk. rewrite (Hstack j s Hj), (Hstack k t Hk).
    split; [apply expectedWrappers_inj | by intros ->].
Qed.

Lemma upcast_downcast_roundtrip_witness :
  upcastList true scenarioItems 1 =
    [listParagraph (ListItemUid_id 1) 0 "numbered";
     listParagraph (ListItemUid_id 3) 0 "numbered";
     listParagraph (ListItemUid_id 2) 1 "bulleted"] ∧
  viewWrapperStack (upcastList true scenarioItems 1) 2 =
    [createListElement 0 (Some (VStr "numbered"));
     createListItemElement 0 (Some (VStr (ListItemUid_id 3)));
     createListElement 1 (Some (VStr "bulleted"));
     createListItemElement 1 (Some (VStr (ListItemUid_id 2)))].
Proof.
  split; [by vm_compute |].
  exact (proj1 (proj1 (proj2 (proj2
           (upcast_downcast_roundtrip true scenarioItems 1)))
                  2%nat [(false, 2%nat); (true, 3%nat)] eq_refl)).
Defined.
